(** * libtjson: the JSON tree algebra and grammar builder

    A shallow embedding of json.c (tree algebra), json_parser.y (grammar
    builder) and lexan.l (scanner rules), with the C heap made explicit,
    followed by the properties of the library's specification.

    Conventions of the embedding
    - the heap is a list of allocated structs; a pointer is [option nat]
      ([None] is NULL, [Some l] the l-th allocation); [calloc] always
      succeeds and [free] is not modelled;
    - character data is [list ascii]: the bytes of a buffer up to, and not
      including, the terminator written last; [c_str] is the C-string view
      of such a buffer (it stops at the first NUL);
    - C integers are [Z] with conversions written out;
    - floating point is kept abstract: the C type [float], the conversion
      [(float) atof(text)] and [printf("%f")] are parameters ([CFloat]). *)

From Stdlib Require Import ZArith Ascii String List Lia Bool.
From stdpp Require Import base list.
Import ListNotations.

Local Open Scope list_scope.

(** ** C library *)

(** A string literal as character data. *)
Definition cstr (s : string) : list ascii := list_ascii_of_string s.

Definition NUL : ascii := "000"%char.

(** The double quote character. *)
Definition dquote : ascii := "034"%char.

(** The C-string view of a buffer: the bytes before the first NUL. *)
Fixpoint c_str (s : list ascii) : list ascii :=
  match s with
  | [] => []
  | c :: s' => if Ascii.eqb c NUL then [] else c :: c_str s'
  end.

Definition strlen (s : list ascii) : nat := length (c_str s).

Definition strdup (s : list ascii) : list ascii := c_str s.

Definition is_digit (c : ascii) : bool :=
  (48 <=? nat_of_ascii c) && (nat_of_ascii c <=? 57).

Definition is_nzdigit (c : ascii) : bool :=
  (49 <=? nat_of_ascii c) && (nat_of_ascii c <=? 57).

Definition is_upper (c : ascii) : bool :=
  (65 <=? nat_of_ascii c) && (nat_of_ascii c <=? 90).

Definition is_lower (c : ascii) : bool :=
  (97 <=? nat_of_ascii c) && (nat_of_ascii c <=? 122).

(** isspace() in the C locale: space, \t, \n, \v, \f, \r. *)
Definition isspace (c : ascii) : bool :=
  (nat_of_ascii c =? 32) || ((9 <=? nat_of_ascii c) && (nat_of_ascii c <=? 13)).

Definition digit_val (c : ascii) : Z := (Z.of_nat (nat_of_ascii c) - 48)%Z.

(** The value of a run of decimal digits, most significant first; stops at
    the first character that is not a digit. *)
Fixpoint digits_val (acc : Z) (s : list ascii) : Z :=
  match s with
  | c :: s' => if is_digit c then digits_val (10 * acc + digit_val c)%Z s' else acc
  | [] => acc
  end.

Fixpoint skip_space (s : list ascii) : list ascii :=
  match s with
  | c :: s' => if isspace c then skip_space s' else s
  | [] => []
  end.

Definition LLONG_MIN : Z := (- 2 ^ 63)%Z.
Definition LLONG_MAX : Z := (2 ^ 63 - 1)%Z.
Definition ULLONG_MAX : Z := (2 ^ 64 - 1)%Z.

(** strtoll(s, NULL, 10): white space, an optional sign, decimal digits;
    out of range values saturate. *)
Definition strtoll (s : list ascii) : Z :=
  match skip_space s with
  | c :: s' =>
      if Ascii.eqb c "-"%char then Z.max LLONG_MIN (- digits_val 0 s')%Z
      else if Ascii.eqb c "+"%char then Z.min LLONG_MAX (digits_val 0 s')
      else Z.min LLONG_MAX (digits_val 0 (c :: s'))
  | [] => 0%Z
  end.

(** strtoull(s, NULL, 10): same syntax; a magnitude out of range gives
    ULLONG_MAX, a minus sign negates in the unsigned type. *)
Definition strtoull (s : list ascii) : Z :=
  let conv (neg : bool) (m : Z) : Z :=
    if (ULLONG_MAX <? m)%Z then ULLONG_MAX
    else if neg then ((- m) mod 2 ^ 64)%Z else m in
  match skip_space s with
  | c :: s' =>
      if Ascii.eqb c "-"%char then conv true (digits_val 0 s')
      else if Ascii.eqb c "+"%char then conv false (digits_val 0 s')
      else conv false (digits_val 0 (c :: s'))
  | [] => 0%Z
  end.

Definition digit_char (d : Z) : ascii := ascii_of_nat (48 + Z.to_nat d).

(** Decimal digits of a non-negative number, most significant first. *)
Fixpoint decimal_digits (fuel : nat) (n : Z) (acc : list ascii) : list ascii :=
  match fuel with
  | O => acc
  | S fuel' =>
      if (n <? 10)%Z then digit_char n :: acc
      else decimal_digits fuel' (n / 10)%Z (digit_char (n mod 10)%Z :: acc)
  end.

(** printf("%d", n). *)
Definition printf_d (n : Z) : list ascii :=
  if (n <? 0)%Z then "-"%char :: decimal_digits (S (Z.to_nat (Z.log2 (- n)%Z))) (- n)%Z []
  else decimal_digits (S (Z.to_nat (Z.log2 n))) n [].

(** printf("%s", s). *)
Definition printf_s (s : list ascii) : list ascii := c_str s.

(** Integer conversions. *)
Definition to_uint16 (z : Z) : Z := (z mod 2 ^ 16)%Z.
Definition to_uint32 (z : Z) : Z := (z mod 2 ^ 32)%Z.
Definition to_int16 (z : Z) : Z := ((z + 2 ^ 15) mod 2 ^ 16 - 2 ^ 15)%Z.
Definition to_int32 (z : Z) : Z := ((z + 2 ^ 31) mod 2 ^ 32 - 2 ^ 31)%Z.

(** errno.h *)
Definition EOK : Z := 0%Z.
Definition EINVAL : Z := 22%Z.
Definition ENOTSUP : Z := 95%Z.

(** The C float type with the two library operations json.c and the
    grammar apply to it. *)
Class CFloat := {
  float : Type;
  float_zero : float;              (* the float whose bytes are all zero *)
  atof : list ascii -> float;      (* (float) atof( text ) *)
  printf_f : float -> list ascii;  (* printf( "%f", f ) *)
}.

(** An instance for evaluating the definitions: two floats, zero, which
    prints as 0.000000, and a NaN, which prints as nan; the text of a
    FLOAT token is taken to be a zero. *)
Definition two_floats : CFloat :=
  {| float := bool; float_zero := false; atof := fun _ => false;
     printf_f := fun f => if f then cstr "nan" else cstr "0.000000" |}.

(** ** Data model (json.h) *)

Inductive JType :=
  | JSON_INVALID | JSON_ARRAY | JSON_OBJECT | JSON_VAR | JSON_BOOL.

Inductive JVarType :=
  | JVARTYPE_INVALID | JVARTYPE_UINT16 | JVARTYPE_INT16 | JVARTYPE_UINT32
  | JVARTYPE_INT32 | JVARTYPE_UINT64 | JVARTYPE_INT64 | JVARTYPE_FLOAT
  | JVARTYPE_STR | JVARTYPE_BLOB | JVARTYPE_END_MARKER.

(** The first member of every JSON struct. *)
Record JNode := mkJNode {
  type : JType;
  name : option (list ascii);
  pNext : option nat;
}.

(** The members of JArray after its node header; JObject has the same
    members in the same order. *)
Record JArray := mkJArray {
  n : nat;
  pFirst : option nat;
  pLast : option nat;
}.

Section Json.
Context {CF : CFloat}.

(** union JVarData, tagged with the member written last ([val_zero]: the
    zeroed bytes calloc leaves). *)
Inductive JVarData :=
  | val_zero
  | val_ui (z : Z) | val_i (z : Z) | val_ul (z : Z) | val_l (z : Z)
  | val_ull (z : Z) | val_ll (z : Z)
  | val_f (f : float)
  | val_str (s : list ascii).

Record JVarObject := mkJVarObject {
  var_type : JVarType;
  var_len : nat;
  var_val : JVarData;
}.

Inductive members :=
  | Container (c : JArray)   (* JArray, JObject *)
  | Var (v : JVarObject).    (* JVar *)

(** An allocated JArray, JObject or JVar. *)
Record object := mkobject {
  node : JNode;
  rest : members;
}.

Definition zero_JNode : JNode := mkJNode JSON_INVALID None None.
Definition zero_JArray : object := mkobject zero_JNode (Container (mkJArray 0 None None)).
Definition zero_JVarObject : JVarObject := mkJVarObject JVARTYPE_INVALID 0 val_zero.
Definition zero_JVar : object := mkobject zero_JNode (Var zero_JVarObject).

(** Reading a struct. Dereferencing a pointer that was never allocated, or
    through a cast that disagrees with the allocated struct, is undefined in
    C; the model reads zeroed members there. Every cast in json.c is guarded
    by node.type, which the constructors set to agree with the struct. *)
Definition load (h : list object) (l : nat) : object := default zero_JArray (h !! l).

Definition as_JArray (o : object) : JArray :=
  match rest o with Container c => c | Var _ => mkJArray 0 None None end.

Definition as_JVar (o : object) : JVarObject :=
  match rest o with Var v => v | Container _ => zero_JVarObject end.

(** Union members are read through the member written last, which var.type
    (or node.type for JSON_BOOL) records; any other read gives zero. *)
Definition get_ui (d : JVarData) : Z := match d with val_ui z => z | _ => 0%Z end.
Definition get_ul (d : JVarData) : Z := match d with val_ul z => z | _ => 0%Z end.
Definition get_f (d : JVarData) : float := match d with val_f f => f | _ => float_zero end.
Definition get_str (d : JVarData) : list ascii := match d with val_str s => s | _ => [] end.

(** Writing one member of a struct in the heap. *)
Definition set_type (t : JType) (o : object) : object :=
  mkobject (mkJNode t (name (node o)) (pNext (node o))) (rest o).
Definition set_name (nm : option (list ascii)) (o : object) : object :=
  mkobject (mkJNode (type (node o)) nm (pNext (node o))) (rest o).
Definition set_pNext (p : option nat) (o : object) : object :=
  mkobject (mkJNode (type (node o)) (name (node o)) p) (rest o).
Definition set_pFirst (p : option nat) (o : object) : object :=
  mkobject (node o) (Container (mkJArray (n (as_JArray o)) p (pLast (as_JArray o)))).
Definition set_pLast (p : option nat) (o : object) : object :=
  mkobject (node o) (Container (mkJArray (n (as_JArray o)) (pFirst (as_JArray o)) p)).
Definition set_var (v : JVarObject) (o : object) : object :=
  mkobject (node o) (Var v).

Definition store (f : object -> object) (l : nat) (h : list object) : list object :=
  alter f l h.

Definition calloc (o : object) (h : list object) : nat * list object :=
  (length h, h ++ [o]).

(** ** Tree algebra (json.c) *)

Definition JSON_Array (name : option (list ascii)) (h : list object)
  : option nat * list object :=
  let '(pArray, h) := calloc zero_JArray h in
  let h := store (set_name name) pArray h in
  let h := store (set_type JSON_ARRAY) pArray h in
  (Some pArray, h).

Definition JSON_Object (name : option (list ascii)) (h : list object)
  : option nat * list object :=
  let '(pObject, h) := calloc zero_JArray h in
  let h := store (set_name name) pObject h in
  let h := store (set_type JSON_OBJECT) pObject h in
  (Some pObject, h).

Definition JSON_Var (name : option (list ascii)) (h : list object)
  : option nat * list object :=
  let '(pVar, h) := calloc zero_JVar h in
  let h := store (set_name name) pVar h in
  let h := store (set_type JSON_VAR) pVar h in
  (Some pVar, h).

Definition JSON_Num (name : option (list ascii)) (num : Z) (h : list object)
  : option nat * list object :=
  match JSON_Var name h with
  | (Some pVar, h) =>
      (Some pVar,
       store (set_var (mkJVarObject JVARTYPE_UINT32 4 (val_ul (to_uint32 num)))) pVar h)
  | (None, h) => (None, h)
  end.

Definition JSON_ParseNumber (name : option (list ascii))
    (numstr : option (list ascii)) (h : list object) : option nat * list object :=
  match JSON_Var name h, numstr with
  | (Some pVar, h), Some numstr =>
      let var :=
        if Ascii.eqb (nth 0 numstr NUL) "-"%char then
            let lli := strtoll numstr in
            if ((-32768 <? lli) && (lli <? 32767))%Z then
              mkJVarObject JVARTYPE_INT16 2 (val_i (to_int16 lli))
            else if ((-2147483648 <? lli) && (lli <? 2147483647))%Z then
              mkJVarObject JVARTYPE_INT32 4 (val_l (to_int32 lli))
            else
              mkJVarObject JVARTYPE_INT64 8 (val_ll lli)
        else
            let llu := strtoull numstr in
            if (llu <? 65535)%Z then
              mkJVarObject JVARTYPE_UINT16 2 (val_ui (to_uint16 llu))
            else if (llu <? 4294967295)%Z then
              mkJVarObject JVARTYPE_UINT32 4 (val_ul (to_uint32 llu))
            else
              mkJVarObject JVARTYPE_UINT64 8 (val_ull llu) in
      (Some pVar, store (set_var var) pVar h)
  | (pVar, h), _ => (pVar, h)
  end.

Definition JSON_Float (name : option (list ascii)) (num : float) (h : list object)
  : option nat * list object :=
  match JSON_Var name h with
  | (Some pVar, h) =>
      (Some pVar, store (set_var (mkJVarObject JVARTYPE_FLOAT 4 (val_f num))) pVar h)
  | (None, h) => (None, h)
  end.

Definition JSON_Bool (name : option (list ascii)) (num : Z) (h : list object)
  : option nat * list object :=
  match JSON_Var name h with
  | (Some pVar, h) =>
      let h := store (set_type JSON_BOOL) pVar h in
      (Some pVar,
       store (set_var (mkJVarObject JVARTYPE_UINT16 2
                         (val_ui (if (0 <? num)%Z then 1 else 0)%Z))) pVar h)
  | (None, h) => (None, h)
  end.

Definition JSON_Str (name : option (list ascii)) (str : option (list ascii))
    (h : list object) : option nat * list object :=
  match JSON_Var name h, str with
  | (Some pVar, h), Some str =>
      (Some pVar,
       store (set_var (mkJVarObject JVARTYPE_STR (strlen str) (val_str str))) pVar h)
  | (pVar, h), _ => (pVar, h)
  end.

Definition JSON_ArrayAdd (pArray pObject : option nat) (h : list object)
  : Z * list object :=
  match pArray, pObject with
  | Some a, Some _ =>
      match type (node (load h a)) with
      | JSON_ARRAY =>
          match pFirst (as_JArray (load h a)) with
          | None =>
              let h := store (set_pFirst pObject) a h in
              let h := store (set_pLast pObject) a h in
              (EOK, h)
          | Some _ =>
              match pLast (as_JArray (load h a)) with
              | Some last =>
                  let h := store (set_pNext pObject) last h in
                  let h := store (set_pLast pObject) a h in
                  (EOK, h)
              | None => (EINVAL, h)
              end
          end
      | _ => (ENOTSUP, h)
      end
  | _, _ => (EINVAL, h)
  end.

Definition JSON_ObjectAdd (pObject pNode : option nat) (h : list object)
  : Z * list object :=
  match pObject, pNode with
  | Some o, Some _ =>
      match type (node (load h o)) with
      | JSON_OBJECT =>
          match pFirst (as_JArray (load h o)) with
          | None =>
              let h := store (set_pFirst pNode) o h in
              let h := store (set_pLast pNode) o h in
              (EOK, h)
          | Some _ =>
              match pLast (as_JArray (load h o)) with
              | Some last =>
                  let h := store (set_pNext pNode) last h in
                  let h := store (set_pLast pNode) o h in
                  (EOK, h)
              | None => (EINVAL, h)
              end
          end
      | _ => (ENOTSUP, h)
      end
  | _, _ => (EINVAL, h)
  end.

(** The while loop of JSON_Index; [k] is idx - n, the iterations left
    before idx == n. *)
Fixpoint JSON_Index_loop (h : list object) (pNode : option nat) (k : nat)
  : option nat :=
  match pNode with
  | None => None
  | Some l =>
      match k with
      | O => Some l
      | S k' => JSON_Index_loop h (pNext (node (load h l))) k'
      end
  end.

Definition JSON_Index (pArray : option nat) (idx : nat) (h : list object)
  : option nat :=
  match pArray with
  | Some a =>
      match type (node (load h a)) with
      | JSON_ARRAY => JSON_Index_loop h (pFirst (as_JArray (load h a))) idx
      | _ => None
      end
  | None => None
  end.

(** JSON_Iterate. The callback receives the node and the argument; it may
    read and write the heap and a state [St] of its own, and returns an int.
    [None]: the loop does not end within [fuel] iterations. *)
Section Iterate.
Context {St A : Type}.



End Iterate.

Definition json_PrintValue (pVar : object) : list ascii :=
  match type (node pVar) with
  | JSON_BOOL =>
      if (0 <? get_ui (var_val (as_JVar pVar)))%Z then cstr "true" else cstr "false "
  | _ =>
      match var_type (as_JVar pVar) with
      | JVARTYPE_UINT16 => printf_d (get_ui (var_val (as_JVar pVar)))
      | JVARTYPE_UINT32 => printf_d (to_int32 (get_ul (var_val (as_JVar pVar))))
      | JVARTYPE_FLOAT => printf_f (get_f (var_val (as_JVar pVar)))
      | JVARTYPE_STR =>
          [dquote] ++ printf_s (get_str (var_val (as_JVar pVar))) ++ [dquote]
      | _ => []
      end
  end.

(** JSON_Print. The result is the text written to the stream [fp], which
    is open ([fp != NULL]); [None]: the recursion does not end within
    [fuel] calls. [JSON_Print_loop] is the while loop over the children of
    an array or object. *)
Fixpoint JSON_Print (fuel : nat) (h : list object) (json : option nat)
    (comma : bool) : option (list ascii) :=
  match fuel with
  | O => None
  | S fuel' =>
      match json with
      | None => Some []
      | Some l =>
          let out_comma := if comma then cstr "," else [] in
          let out_name :=
            match name (node (load h l)) with
            | Some nm => [dquote] ++ printf_s nm ++ [dquote] ++ cstr " : "
            | None => []
            end in
          match type (node (load h l)) with
          | JSON_ARRAY =>
              match JSON_Print_loop fuel' h (pFirst (as_JArray (load h l))) false with
              | Some out => Some (out_comma ++ out_name ++ cstr "[" ++ out ++ cstr "]")
              | None => None
              end
          | JSON_OBJECT =>
              match JSON_Print_loop fuel' h (pFirst (as_JArray (load h l))) false with
              | Some out => Some (out_comma ++ out_name ++ cstr "{" ++ out ++ cstr "}")
              | None => None
              end
          | JSON_BOOL | JSON_VAR =>
              Some (out_comma ++ out_name ++ json_PrintValue (load h l))
          | JSON_INVALID => Some (out_comma ++ out_name)
          end
      end
  end
with JSON_Print_loop (fuel : nat) (h : list object) (pNode : option nat)
    (comma : bool) : option (list ascii) :=
  match fuel with
  | O => None
  | S fuel' =>
      match pNode with
      | None => Some []
      | Some l =>
          match JSON_Print fuel' h pNode comma with
          | Some out1 =>
              match JSON_Print_loop fuel' h (pNext (node (load h l))) true with
              | Some out2 => Some (out1 ++ out2)
              | None => None
              end
          | None => None
          end
      end
  end.

(** strcmp( s1, s2 ): the difference of the first two characters, as
    unsigned char, that differ, 0 when there are none; the end of a
    buffer is its terminator. (The C standard fixes only the sign.) *)
Fixpoint strcmp (s1 s2 : list ascii) : Z :=
  match s1, s2 with
  | c1 :: r1, c2 :: r2 =>
      if Ascii.eqb c1 NUL || negb (Ascii.eqb c1 c2)
      then (Z.of_nat (nat_of_ascii c1) - Z.of_nat (nat_of_ascii c2))%Z
      else strcmp r1 r2
  | c1 :: _, [] => Z.of_nat (nat_of_ascii c1)
  | [], c2 :: _ => (- Z.of_nat (nat_of_ascii c2))%Z
  | [], [] => 0%Z
  end.

(** The while loop of JSON_Attribute. [None]: the loop does not end
    within [fuel] iterations. *)
Fixpoint JSON_Attribute_loop (fuel : nat) (h : list object)
    (pNode : option nat) (attribute : list ascii) : option (option nat) :=
  match pNode with
  | None => Some None
  | Some l =>
      match fuel with
      | O => None
      | S fuel' =>
          match name (node (load h l)) with
          | Some nm =>
              if (strcmp nm attribute =? 0)%Z then Some pNode
              else JSON_Attribute_loop fuel' h (pNext (node (load h l))) attribute
          | None => JSON_Attribute_loop fuel' h (pNext (node (load h l))) attribute
          end
      end
  end.

Definition JSON_Attribute (fuel : nat) (pObject : option nat)
    (attribute : option (list ascii)) (h : list object) : option (option nat) :=
  match pObject, attribute with
  | Some o, Some attribute =>
      match type (node (load h o)) with
      | JSON_OBJECT =>
          JSON_Attribute_loop fuel h (pFirst (as_JArray (load h o))) attribute
      | _ => Some None
      end
  | _, _ => Some None
  end.

(** JSON_Find. [None]: the recursion does not end within [fuel] calls. *)
Fixpoint JSON_Find (fuel : nat) (h : list object) (json : option nat)
    (key : option (list ascii)) : option (option nat) :=
  match fuel with
  | O => None
  | S fuel' =>
      match key, json with
      | Some k, Some l =>
          let is_key :=
            match name (node (load h l)) with
            | Some nm => (strcmp k nm =? 0)%Z
            | None => false
            end in
          let found :=
            match type (node (load h l)) with
            | JSON_ARRAY | JSON_OBJECT =>
                if is_key then Some json
                else JSON_Find fuel' h (pFirst (as_JArray (load h l))) key
            | JSON_BOOL | JSON_VAR => Some (if is_key then json else None)
            | JSON_INVALID => Some None
            end in
          match found with
          | Some None => JSON_Find fuel' h (pNext (node (load h l))) key
          | r => r
          end
      | _, _ => Some None
      end
  end.

(** How a call of a getter ends: it returns; or it passes the NULL name
    of a member to strcmp, which is undefined; or its loop does not end
    within the fuel. *)
Inductive outcome (A : Type) : Type :=
  | Returns (a : A)
  | Undefined
  | Unfinished.
#[global] Arguments Returns {A} a.
#[global] Arguments Undefined {A}.
#[global] Arguments Unfinished {A}.

(** The while loop of JSON_GetStr; [None] in the result is NULL. *)
Fixpoint JSON_GetStr_loop (fuel : nat) (h : list object) (pNode : option nat)
    (key : list ascii) : outcome (option (list ascii)) :=
  match pNode with
  | None => Returns None
  | Some l =>
      match fuel with
      | O => Unfinished
      | S fuel' =>
          match name (node (load h l)) with
          | None => Undefined
          | Some nm =>
              if (strcmp nm key =? 0)%Z then
                match type (node (load h l)), var_type (as_JVar (load h l)) with
                | JSON_VAR, JVARTYPE_STR =>
                    Returns (Some (get_str (var_val (as_JVar (load h l)))))
                | _, _ => JSON_GetStr_loop fuel' h (pNext (node (load h l))) key
                end
              else JSON_GetStr_loop fuel' h (pNext (node (load h l))) key
          end
      end
  end.

Definition JSON_GetStr (fuel : nat) (pNode : option nat)
    (key : option (list ascii)) (h : list object)
  : outcome (option (list ascii)) :=
  match pNode, key with
  | Some l, Some key =>
      match type (node (load h l)) with
      | JSON_OBJECT => JSON_GetStr_loop fuel h (pFirst (as_JArray (load h l))) key
      | _ => Returns None
      end
  | _, _ => Returns None
  end.

(** The while loop of JSON_GetBool. *)
Fixpoint JSON_GetBool_loop (fuel : nat) (h : list object) (pNode : option nat)
    (key : list ascii) : outcome bool :=
  match pNode with
  | None => Returns false
  | Some l =>
      match fuel with
      | O => Unfinished
      | S fuel' =>
          match name (node (load h l)) with
          | None => Undefined
          | Some nm =>
              if (strcmp nm key =? 0)%Z then
                match type (node (load h l)), var_type (as_JVar (load h l)) with
                | JSON_BOOL, JVARTYPE_UINT16 =>
                    Returns (negb (get_ui (var_val (as_JVar (load h l))) =? 0)%Z)
                | _, _ => JSON_GetBool_loop fuel' h (pNext (node (load h l))) key
                end
              else JSON_GetBool_loop fuel' h (pNext (node (load h l))) key
          end
      end
  end.

Definition JSON_GetBool (fuel : nat) (pNode : option nat)
    (key : option (list ascii)) (h : list object) : outcome bool :=
  match pNode, key with
  | Some l, Some key =>
      match type (node (load h l)) with
      | JSON_OBJECT => JSON_GetBool_loop fuel h (pFirst (as_JArray (load h l))) key
      | _ => Returns false
      end
  | _, _ => Returns false
  end.

(** The while loop of JSON_GetNum: the result and the int stored through
    pVal, if one is. *)
Fixpoint JSON_GetNum_loop (fuel : nat) (h : list object) (pNode : option nat)
    (key : list ascii) : outcome (Z * option Z) :=
  match pNode with
  | None => Returns ((-1)%Z, None)
  | Some l =>
      match fuel with
      | O => Unfinished
      | S fuel' =>
          match name (node (load h l)) with
          | None => Undefined
          | Some nm =>
              if (strcmp nm key =? 0)%Z then
                match type (node (load h l)), var_type (as_JVar (load h l)) with
                | JSON_VAR, JVARTYPE_UINT32 =>
                    Returns (0%Z,
                             Some (to_int32 (get_ul (var_val (as_JVar (load h l))))))
                | _, _ => JSON_GetNum_loop fuel' h (pNext (node (load h l))) key
                end
              else JSON_GetNum_loop fuel' h (pNext (node (load h l))) key
          end
      end
  end.

(** JSON_GetNum; [pVal] tells whether the pointer is not NULL. *)
Definition JSON_GetNum (fuel : nat) (pNode : option nat)
    (key : option (list ascii)) (pVal : bool) (h : list object)
  : outcome (Z * option Z) :=
  match pNode, key, pVal with
  | Some l, Some key, true =>
      match type (node (load h l)) with
      | JSON_OBJECT => JSON_GetNum_loop fuel h (pFirst (as_JArray (load h l))) key
      | _ => Returns ((-1)%Z, None)
      end
  | _, _, _ => Returns ((-1)%Z, None)
  end.



(** The while loop of JSON_GetFloat: the result and the float stored
    through pVal, if one is. *)
Fixpoint JSON_GetFloat_loop (fuel : nat) (h : list object) (pNode : option nat)
    (key : list ascii) : outcome (Z * option float) :=
  match pNode with
  | None => Returns ((-1)%Z, None)
  | Some l =>
      match fuel with
      | O => Unfinished
      | S fuel' =>
          match name (node (load h l)) with
          | None => Undefined
          | Some nm =>
              if (strcmp nm key =? 0)%Z then
                match type (node (load h l)), var_type (as_JVar (load h l)) with
                | JSON_VAR, JVARTYPE_FLOAT =>
                    Returns (0%Z, Some (get_f (var_val (as_JVar (load h l)))))
                | _, _ => JSON_GetFloat_loop fuel' h (pNext (node (load h l))) key
                end
              else JSON_GetFloat_loop fuel' h (pNext (node (load h l))) key
          end
      end
  end.

Definition JSON_GetFloat (fuel : nat) (pNode : option nat)
    (key : option (list ascii)) (pVal : bool) (h : list object)
  : outcome (Z * option float) :=
  match pNode, key, pVal with
  | Some l, Some key, true =>
      match type (node (load h l)) with
      | JSON_OBJECT => JSON_GetFloat_loop fuel h (pFirst (as_JArray (load h l))) key
      | _ => Returns ((-1)%Z, None)
      end
  | _, _, _ => Returns ((-1)%Z, None)
  end.

(** ** Scanner (lexan.l) *)

Inductive token :=
  | LBRACE | RBRACE | LBRACKET | RBRACKET | COMMA | SEMI | DQUOTE | DOT
  | COLON | ID | NUM | FLOAT | CHARSTR | TRUE | FALSE.

Definition is_letter (c : ascii) : bool :=
  is_lower c || is_upper c || Ascii.eqb c "_"%char.

Definition is_delim (c : ascii) : bool :=
  Ascii.eqb c " "%char || Ascii.eqb c "009"%char.

Definition newline : ascii := "010"%char.

(** The length of the longest prefix whose characters satisfy [p]. *)
Fixpoint span (p : ascii -> bool) (s : list ascii) : nat :=
  match s with
  | c :: s' => if p c then S (span p s') else 0
  | [] => 0
  end.

(** Each pattern gives the length of its longest match at the start of the
    input, if it matches there. *)

Fixpoint starts_with (lit s : list ascii) : bool :=
  match lit, s with
  | [], _ => true
  | a :: lit', b :: s' => Ascii.eqb a b && starts_with lit' s'
  | _ :: _, [] => false
  end.

(* ws: one or more of space and tab *)
Definition match_ws (s : list ascii) : option nat :=
  match span is_delim s with O => None | k => Some k end.

(* comment: two slashes and the rest of the line, which a newline must
   end (the trailing context of the pattern) *)
Definition match_comment (s : list ascii) : option nat :=
  if starts_with (cstr "//") s then
    let k := span (fun c => negb (Ascii.eqb c newline)) (drop 2 s) in
    match drop k (drop 2 s) with
    | _ :: _ => Some (2 + k)
    | [] => None
    end
  else None.

(* a pattern that is one fixed string *)
Definition match_lit (lit : list ascii) (s : list ascii) : option nat :=
  if starts_with lit s then Some (length lit) else None.

(* charstr, after the opening quote: characters other than quote and
   backslash, or a backslash and any character but newline, up to the
   closing quote *)
Fixpoint match_charstr_tail (s : list ascii) : option nat :=
  match s with
  | [] => None
  | c :: s' =>
      if Ascii.eqb c dquote then Some 1
      else if Ascii.eqb c "\"%char then
        match s' with
        | c' :: s'' =>
            if Ascii.eqb c' newline then None
            else option_map (fun k => 2 + k) (match_charstr_tail s'')
        | [] => None
        end
      else option_map S (match_charstr_tail s')
  end.

Definition match_charstr (s : list ascii) : option nat :=
  match s with
  | c :: s' =>
      if Ascii.eqb c dquote then option_map S (match_charstr_tail s') else None
  | [] => None
  end.

(* id: a letter, then letters and digits *)
Definition match_id (s : list ascii) : option nat :=
  match s with
  | c :: s' =>
      if is_letter c then Some (S (span (fun c => is_letter c || is_digit c) s'))
      else None
  | [] => None
  end.

(* one digit, or a non-zero digit and more digits *)
Definition match_unsigned (s : list ascii) : option nat :=
  match s with
  | c :: s' =>
      if is_nzdigit c then Some (S (span is_digit s'))
      else if is_digit c then Some 1
      else None
  | [] => None
  end.

(* num: an optional minus sign and an unsigned number *)
Definition match_num (s : list ascii) : option nat :=
  match s with
  | c :: s' =>
      if Ascii.eqb c "-"%char then option_map S (match_unsigned s')
      else match_unsigned s
  | [] => None
  end.

(* the optional exponent of floatnum (e or E, an optional sign, digits):
   its length, 0 when there is none *)
Definition match_exponent (s : list ascii) : nat :=
  match s with
  | c :: s' =>
      if Ascii.eqb c "e"%char || Ascii.eqb c "E"%char then
        match s' with
        | c' :: s'' =>
            if Ascii.eqb c' "-"%char || Ascii.eqb c' "+"%char then
              match span is_digit s'' with O => 0 | k => 2 + k end
            else
              match span is_digit s' with O => 0 | k => 1 + k end
        | [] => 0
        end
      else 0
  | [] => 0
  end.

(* digits, a dot, one or more digits, an optional exponent *)
Definition match_unsigned_float (s : list ascii) : option nat :=
  let k1 := span is_digit s in
  match drop k1 s with
  | c :: s' =>
      if Ascii.eqb c "."%char then
        match span is_digit s' with
        | O => None
        | k2 => Some (k1 + 1 + k2 + match_exponent (drop k2 s'))
        end
      else None
  | [] => None
  end.

(* floatnum: an optional sign and an unsigned float *)
Definition match_floatnum (s : list ascii) : option nat :=
  match s with
  | c :: s' =>
      if Ascii.eqb c "-"%char || Ascii.eqb c "+"%char then
        option_map S (match_unsigned_float s')
      else match_unsigned_float s
  | [] => None
  end.

Inductive action :=
  | Skip                 (* no action *)
  | Return (t : token).  (* return(t) *)

(** The rules section, in the order of the file. *)
Definition rules (s : list ascii) : list (option nat * action) :=
  [ (match_ws s, Skip);
    (match_comment s, Skip);
    (match_lit [newline] s, Skip);
    (match_lit (cstr "true") s, Return TRUE);
    (match_lit (cstr "false") s, Return FALSE);
    (match_lit (cstr "{") s, Return LBRACE);
    (match_lit (cstr "}") s, Return RBRACE);
    (match_lit (cstr "[") s, Return LBRACKET);
    (match_lit (cstr "]") s, Return RBRACKET);
    (match_lit (cstr ".") s, Return DOT);
    (match_lit (cstr ",") s, Return COMMA);
    (match_lit (cstr ";") s, Return SEMI);
    (match_lit (cstr ":") s, Return COLON);
    (match_charstr s, Return CHARSTR);
    (match_id s, Return ID);
    (match_num s, Return NUM);
    (match_floatnum s, Return FLOAT) ].

(** The rule that matches the most text; of two that match the same
    amount, the one listed first. *)
Fixpoint longest (rs : list (option nat * action)) (best : option (nat * action))
  : option (nat * action) :=
  match rs with
  | [] => best
  | (Some k, a) :: rs' =>
      match best with
      | Some (kb, _) => if kb <? k then longest rs' (Some (k, a)) else longest rs' best
      | None => longest rs' (Some (k, a))
      end
  | (None, _) :: rs' => longest rs' best
  end.

(** The tokens successive calls of yylex() return, each with its yytext,
    until end of input. Text no rule matches is echoed by the default rule,
    one character at a time. Every match consumes input, so [fuel] at least
    the length of the input reaches its end. *)
Fixpoint yylex (fuel : nat) (input : list ascii) : list (token * list ascii) :=
  match fuel with
  | O => []
  | S fuel' =>
      match input with
      | [] => []
      | _ :: input' =>
          match longest (rules input) None with
          | Some (k, Skip) => yylex fuel' (drop k input)
          | Some (k, Return t) => (t, take k input) :: yylex fuel' (drop k input)
          | None => yylex fuel' input'
          end
      end
  end.

Definition scan (input : list ascii) : list (token * list ascii) :=
  yylex (length input) input.

(** ** Grammar builder (json_parser.y) *)

Definition escape (c : ascii) : ascii :=
  if Ascii.eqb c "\"%char then "\"%char
  else if Ascii.eqb c "0"%char then NUL
  else if Ascii.eqb c "r"%char then "013"%char
  else if Ascii.eqb c "n"%char then "010"%char
  else if Ascii.eqb c "t"%char then "009"%char
  else if Ascii.eqb c "'"%char then "'"%char
  else if Ascii.eqb c dquote then dquote
  else c.

(** The for loop of get_charstr, [count] iterations from index [i]; the
    buffer [s] is rewritten in place. *)
Fixpoint get_charstr_loop (count : nat) (i j : nat) (state : nat)
    (s : list ascii) : list ascii * nat :=
  match count with
  | O => (s, j)
  | S count' =>
      let c := nth i s NUL in
      match state with
      | 0 =>
          if Ascii.eqb c "\"%char then get_charstr_loop count' (S i) j 1 s
          else get_charstr_loop count' (S i) (S j) 0 (<[j:=c]> s)
      | 1 => get_charstr_loop count' (S i) (S j) 0 (<[j:=escape c]> s)
      | _ => get_charstr_loop count' (S i) j state s
      end
  end.

(** get_charstr. The result is the buffer up to the NUL stored last, at
    index j. A CHARSTR token scanned from a C string has both its quotes,
    so that [l] is at least 1. When the string after the first character
    is empty ([l] is 0; the scanner returns such a token only from a file
    with a NUL byte right after an opening quote) the C code computes
    l - 1 in size_t and writes out of bounds: its behaviour is undefined,
    and what this definition gives then (the empty string) stands for
    nothing. *)
Definition get_charstr (str : option (list ascii)) : option (list ascii) :=
  match str with
  | None => None
  | Some str =>
      let s := strdup (drop 1 str) in
      let l := strlen s in
      let s := <[l - 1 := NUL]> s in
      let '(s, j) := get_charstr_loop (l - 1) 0 0 0 s in
      Some (take j s)
  end.

(** The process-wide state: the heap, the parser's [root] and
    [errorFlag]. *)
Record globals := mkglobals {
  heap : list object;
  root : option nat;
  errorFlag : bool;
}.

Definition set_heap (h : list object) (g : globals) : globals :=
  mkglobals h (root g) (errorFlag g).
Definition set_root (r : option nat) (g : globals) : globals :=
  mkglobals (heap g) r (errorFlag g).

(** The productions, by recursive descent over the token stream. A result
    [Some (v, ts)] is the semantic value of the reduced nonterminal with
    the tokens left; [None] is a syntax error. The actions run in the
    order of the generated parser's reductions: after a terminal that ends
    a rule the rule is reduced before the next token is read, so yytext
    is the text of the token shifted last. *)
Fixpoint json (fuel : nat) (ts : list (token * list ascii)) (g : globals)
  : option (option nat * list (token * list ascii)) * globals :=
  match fuel with
  | O => (None, g)
  | S fuel' =>
      match ts with
      | (LBRACKET, _) :: ts =>
          (* json_list : LBRACKET value_list RBRACKET ; json : json_list *)
          match value_list fuel' ts g with
          | (Some (v2, (RBRACKET, _) :: ts), g) =>
              let '(pArray, h) := JSON_Array None (heap g) in
              let h :=
                match pArray with
                | Some a => store (set_pFirst v2) a h
                | None => h
                end in
              (Some (pArray, ts), set_root pArray (set_heap h g))
          | (_, g) => (None, g)
          end
      | (LBRACE, _) :: ts =>
          (* json_object : LBRACE attribute_list RBRACE ; json : json_object *)
          match attribute_list fuel' ts g with
          | (Some (v2, (RBRACE, _) :: ts), g) =>
              let '(pObject, h) := JSON_Object None (heap g) in
              let h :=
                match pObject with
                | Some o => store (set_pFirst v2) o h
                | None => h
                end in
              (Some (pObject, ts), set_root pObject (set_heap h g))
          | (_, g) => (None, g)
          end
      | _ => (None, g)
      end
  end

with value (fuel : nat) (ts : list (token * list ascii)) (g : globals)
  : option (option nat * list (token * list ascii)) * globals :=
  match fuel with
  | O => (None, g)
  | S fuel' =>
      match ts with
      | (NUM, yytext) :: ts =>
          let '(v, h) := JSON_ParseNumber None (Some yytext) (heap g) in
          (Some (v, ts), set_heap h g)
      | (FLOAT, yytext) :: ts =>
          let '(v, h) := JSON_Float None (atof yytext) (heap g) in
          (Some (v, ts), set_heap h g)
      | (TRUE, _) :: ts =>
          let '(v, h) := JSON_Bool None 1 (heap g) in
          (Some (v, ts), set_heap h g)
      | (FALSE, _) :: ts =>
          let '(v, h) := JSON_Bool None 0 (heap g) in
          (Some (v, ts), set_heap h g)
      | (CHARSTR, yytext) :: ts =>
          let '(v, h) := JSON_Str None (get_charstr (Some yytext)) (heap g) in
          (Some (v, ts), set_heap h g)
      | _ => json fuel' ts g
      end
  end

with value_list (fuel : nat) (ts : list (token * list ascii)) (g : globals)
  : option (option nat * list (token * list ascii)) * globals :=
  match fuel with
  | O => (None, g)
  | S fuel' =>
      match value fuel' ts g with
      | (Some (v1, (COMMA, _) :: ts), g) =>
          (* value_list : value COMMA value_list *)
          match value_list fuel' ts g with
          | (Some (v3, ts), g) =>
              let h :=
                match v1 with
                | Some l => store (set_pNext v3) l (heap g)
                | None => heap g
                end in
              (Some (v1, ts), set_heap h g)
          | (None, g) => (None, g)
          end
      | r => r   (* value_list : value *)
      end
  end

with attribute_list (fuel : nat) (ts : list (token * list ascii)) (g : globals)
  : option (option nat * list (token * list ascii)) * globals :=
  match fuel with
  | O => (None, g)
  | S fuel' =>
      let attribute :=
        (* attribute : key COLON value ; key : CHARSTR *)
        match ts with
        | (CHARSTR, yytext) :: ts =>
            let v1 := get_charstr (Some yytext) in
            match ts with
            | (COLON, _) :: ts =>
                match value fuel' ts g with
                | (Some (v3, ts), g) =>
                    let h :=
                      match v3 with
                      | Some l => store (set_name v1) l (heap g)
                      | None => heap g
                      end in
                    (Some (v3, ts), set_heap h g)
                | (None, g) => (None, g)
                end
            | _ => (None, g)
            end
        | _ => (None, g)
        end in
      match attribute with
      | (Some (v1, (COMMA, _) :: ts), g) =>
          (* attribute_list : attribute COMMA attribute_list *)
          match attribute_list fuel' ts g with
          | (Some (v3, ts), g) =>
              let h :=
                match v1 with
                | Some l => store (set_pNext v3) l (heap g)
                | None => heap g
                end in
              (Some (v1, ts), set_heap h g)
          | (None, g) => (None, g)
          end
      | r => r   (* attribute_list : attribute *)
      end
  end.

(** yyerror *)
Definition yyerror (g : globals) : globals :=
  mkglobals (heap g) (root g) true.

(** yyparse: 0 when the token stream is one [json] followed by the end of
    input, 1 after a syntax error. No call chain of the productions is
    longer than three calls per token. This is the grammar with its
    actions. The parser Bison generates from it (CMakeLists.txt) also keeps
    a stack of bounded size, which is not part of this definition: it
    calls yyerror and returns 2 when a push makes the stack hold YYMAXDEPTH
    entries. For the texts that stay below that ([stack_need]) the
    generated parser and this definition agree. *)
Definition yyparse (ts : list (token * list ascii)) (g : globals) : Z * globals :=
  match json (3 * length ts + 3) ts g with
  | (Some (_, []), g) => (0%Z, g)
  | (_, g) => (1%Z, yyerror g)
  end.

(** ** Entry points (json.c) *)

(** JSON_Process; [fopen] gives the content of the file a path names, if
    it can be opened. The scanner starts at the beginning of that file, as
    it does on the first call and after a call that read its file to the
    end. *)
Definition JSON_Process (fopen : list ascii -> option (list ascii))
    (inputFile : option (list ascii)) (g : globals) : option nat * globals :=
  match inputFile with
  | Some path =>
      match fopen path with
      | Some yyin =>
          let '(_, g) := yyparse (scan yyin) g in
          (root g, g)
      | None => (None, g)
      end
  | None => (None, g)
  end.

Definition JSON_ProcessBuffer (buf : option (list ascii)) (g : globals)
  : option nat * globals :=
  match buf with
  | Some buf =>
      let '(rc, g) := yyparse (scan (c_str buf)) g in
      ((if (rc =? 0)%Z then root g else None), g)
  | None => (None, g)
  end.

(** The state of a process at start: nothing allocated, [root] NULL. *)
Definition initial : globals := mkglobals [] None false.

(** * Specification-level definitions *)

(** ** Number classifier *)

(** A decimal integer literal: an optional minus sign and one or more
    digits. *)
Definition all_digits (ds : list ascii) : bool :=
  match ds with [] => false | _ => forallb is_digit ds end.

Definition decimal_literal (s : list ascii) : bool :=
  match s with
  | c :: ds => if Ascii.eqb c "-"%char then all_digits ds else all_digits s
  | [] => false
  end.

(** The integer a decimal literal denotes. *)
Definition literal_value (s : list ascii) : Z :=
  match s with
  | c :: ds => if Ascii.eqb c "-"%char then (- digits_val 0 ds)%Z else digits_val 0 s
  | [] => 0%Z
  end.

(** The width thresholds, as the specification words them. *)
Definition narrowest_kind (negative : bool) (n : Z) : JVarType :=
  if negative then
    if bool_decide (-32768 < n < 32767)%Z then JVARTYPE_INT16
    else if bool_decide (-2147483648 < n < 2147483647)%Z then JVARTYPE_INT32
    else JVARTYPE_INT64
  else
    if bool_decide (n < 65535)%Z then JVARTYPE_UINT16
    else if bool_decide (n < 4294967295)%Z then JVARTYPE_UINT32
    else JVARTYPE_UINT64.

(** The scalar kind of the Var a constructor returns. *)
Definition kind_of (r : option nat * list object) : JVarType :=
  match r with
  | (Some pVar, h) => var_type (as_JVar (load h pVar))
  | (None, _) => JVARTYPE_INVALID
  end.

(** The digits of [n]: a non-empty run of digits with value [n], without
    a leading zero unless [n] is zero. *)
Definition digits_of (n : Z) (ds : list ascii) : Prop :=
  Forall (fun c => is_digit c = true) ds /\
  (forall a s, digits_val a (ds ++ s) = digits_val (a * 10 ^ Z.of_nat (length ds) + n) s) /\
  exists c ds', ds = c :: ds' /\
    ((0 < n)%Z -> is_nzdigit c = true) /\ (n = 0%Z -> ds = ["0"%char]).

(** ** String unescaping *)

(** Decoding as the specification words it: left to right, a backslash
    consumes the character after it, which the escape table maps;
    any other character is copied. *)
Fixpoint unescape (s : list ascii) : list ascii :=
  match s with
  | [] => []
  | c :: s' =>
      if Ascii.eqb c "\"%char then
        match s' with
        | c' :: s'' => escape c' :: unescape s''
        | [] => []
        end
      else c :: unescape s'
  end.

(** Decoding from either state of the scanning loop. *)
Definition unescape_from (state : nat) (s : list ascii) : list ascii :=
  match state, s with
  | 0, _ => unescape s
  | _, c :: s' => escape c :: unescape s'
  | _, [] => []
  end.

(** ** Sibling chains *)

(** [chain h p ls]: following pNext from [p] visits the nodes [ls], in
    this order, and then reaches NULL. *)
Inductive chain (h : list object) : option nat -> list nat -> Prop :=
  | chain_nil : chain h None []
  | chain_cons l o ls :
      h !! l = Some o -> chain h (pNext (node o)) ls -> chain h (Some l) (l :: ls).

(** A freshly created array: what JSON_Array leaves in the heap. *)
Definition fresh_array (name : option (list ascii)) : object :=
  mkobject (mkJNode JSON_ARRAY name None) (Container (mkJArray 0 None None)).

(** A node that is linked nowhere: its pNext is NULL. *)
Definition unlinked (h : list object) (p : nat) : Prop :=
  exists o, h !! p = Some o /\ pNext (node o) = None.

(** JSON_ArrayAdd( a, p ) for each [p] of [ps], in order. *)
Definition appends (a : nat) (ps : list nat) (h : list object) : list object :=
  foldl (fun h p => snd (JSON_ArrayAdd (Some a) (Some p) h)) h ps.

(** The array [a] after the nodes [qs] were appended to it, starting from
    the heap [h0]. *)
Record appended (h0 : list object) (a : nat) (qs : list nat) (h : list object)
  : Prop := mkappended {
  app_length : length h = length h0;
  app_type : type (node (load h a)) = JSON_ARRAY;
  app_n : n (as_JArray (load h a)) = 0;
  app_first : pFirst (as_JArray (load h a)) = head qs;
  app_last : pLast (as_JArray (load h a)) = last qs;
  app_chain : chain h (head qs) qs;
  app_other : forall p, p ∉ qs -> p <> a -> h !! p = h0 !! p;
}.

(** ** Iteration *)




(** ** Trees *)

(** The tree a node of the heap is the root of, without pointers: kind,
    name and scalar of each node, children in chain order. *)
Inductive tree :=
  | TArray (nm : option (list ascii)) (ts : forest)
  | TObject (nm : option (list ascii)) (ts : forest)
  | TVar (nm : option (list ascii)) (v : JVarObject)
  | TBool (nm : option (list ascii)) (v : JVarObject)
with forest :=
  | Fnil
  | Fcons (t : tree) (ts : forest).

Scheme tree_mut := Induction for tree Sort Prop
  with forest_mut := Induction for forest Sort Prop.
Combined Scheme tree_forest_ind from tree_mut, forest_mut.

Definition tree_name (t : tree) : option (list ascii) :=
  match t with TArray nm _ | TObject nm _ | TVar nm _ | TBool nm _ => nm end.

Definition with_name (nm : option (list ascii)) (t : tree) : tree :=
  match t with
  | TArray _ ts => TArray nm ts
  | TObject _ ts => TObject nm ts
  | TVar _ v => TVar nm v
  | TBool _ v => TBool nm v
  end.

(** [repr h l t]: the node at [l] of the heap [h] is the root of [t];
    [repr_chain h p ts]: the sibling chain from [p] is the forest [ts]. *)
Inductive repr (h : list object) : nat -> tree -> Prop :=
  | repr_array l nm nx c ts :
      h !! l = Some (mkobject (mkJNode JSON_ARRAY nm nx) (Container c)) ->
      repr_chain h (pFirst c) ts -> repr h l (TArray nm ts)
  | repr_object l nm nx c ts :
      h !! l = Some (mkobject (mkJNode JSON_OBJECT nm nx) (Container c)) ->
      repr_chain h (pFirst c) ts -> repr h l (TObject nm ts)
  | repr_var l nm nx v :
      h !! l = Some (mkobject (mkJNode JSON_VAR nm nx) (Var v)) ->
      repr h l (TVar nm v)
  | repr_bool l nm nx v :
      h !! l = Some (mkobject (mkJNode JSON_BOOL nm nx) (Var v)) ->
      repr h l (TBool nm v)
with repr_chain (h : list object) : option nat -> forest -> Prop :=
  | repr_nil : repr_chain h None Fnil
  | repr_cons l t ts :
      repr h l t -> repr_chain h (pNext (node (load h l))) ts ->
      repr_chain h (Some l) (Fcons t ts).

Scheme repr_mut := Induction for repr Sort Prop
  with repr_chain_mut := Induction for repr_chain Sort Prop.
Combined Scheme repr_both_ind from repr_mut, repr_chain_mut.

(** [built h lo l t]: as [repr h l t], with the nodes of [t] allocated
    at [lo], ..., [l], every node after its children;
    [built_chain h lo hi p ts]: as [repr_chain h p ts], with the nodes at
    [lo], ..., [hi - 1], every sibling after the ones before it. This is
    how the grammar's actions lay a tree out. *)
Inductive built (h : list object) : nat -> nat -> tree -> Prop :=
  | built_array lo l nm nx c ts :
      lo <= l ->
      h !! l = Some (mkobject (mkJNode JSON_ARRAY nm nx) (Container c)) ->
      built_chain h lo l (pFirst c) ts -> built h lo l (TArray nm ts)
  | built_object lo l nm nx c ts :
      lo <= l ->
      h !! l = Some (mkobject (mkJNode JSON_OBJECT nm nx) (Container c)) ->
      built_chain h lo l (pFirst c) ts -> built h lo l (TObject nm ts)
  | built_var lo l nm nx v :
      lo <= l ->
      h !! l = Some (mkobject (mkJNode JSON_VAR nm nx) (Var v)) ->
      built h lo l (TVar nm v)
  | built_bool lo l nm nx v :
      lo <= l ->
      h !! l = Some (mkobject (mkJNode JSON_BOOL nm nx) (Var v)) ->
      built h lo l (TBool nm v)
with built_chain (h : list object) : nat -> nat -> option nat -> forest -> Prop :=
  | built_nil lo hi : built_chain h lo hi None Fnil
  | built_cons lo hi l t ts :
      l < hi -> built h lo l t ->
      built_chain h (S l) hi (pNext (node (load h l))) ts ->
      built_chain h lo hi (Some l) (Fcons t ts).

Scheme built_mut := Induction for built Sort Prop
  with built_chain_mut := Induction for built_chain Sort Prop.
Combined Scheme built_both_ind from built_mut, built_chain_mut.

(** ** Terms of the tree algebra *)

(** A tree as a program builds it: a constructor call for every node, and
    for a container the append of each member, built just before, in
    order. *)
Inductive term :=
  | MkArray (nm : option (list ascii)) (ms : terms)
  | MkObject (nm : option (list ascii)) (ms : terms)
  | MkNum (nm : option (list ascii)) (num : Z)
  | MkParsed (nm : option (list ascii)) (numstr : list ascii)
  | MkFloat (nm : option (list ascii)) (num : float)
  | MkBool (nm : option (list ascii)) (num : Z)
  | MkStr (nm : option (list ascii)) (str : list ascii)
with terms :=
  | Mnil
  | Mcons (m : term) (ms : terms).

Scheme term_mut := Induction for term Sort Prop
  with terms_mut := Induction for terms Sort Prop.
Combined Scheme term_terms_ind from term_mut, terms_mut.

(** The calls a term stands for: the node returned and the heap left. *)
Fixpoint construct (t : term) (h : list object) : option nat * list object :=
  match t with
  | MkArray nm ms =>
      let '(a, h) := JSON_Array nm h in
      (a, construct_members JSON_ArrayAdd a ms h)
  | MkObject nm ms =>
      let '(o, h) := JSON_Object nm h in
      (o, construct_members JSON_ObjectAdd o ms h)
  | MkNum nm num => JSON_Num nm num h
  | MkParsed nm numstr => JSON_ParseNumber nm (Some numstr) h
  | MkFloat nm num => JSON_Float nm num h
  | MkBool nm num => JSON_Bool nm num h
  | MkStr nm str => JSON_Str nm (Some str) h
  end
with construct_members
    (add : option nat -> option nat -> list object -> Z * list object)
    (parent : option nat) (ms : terms) (h : list object) : list object :=
  match ms with
  | Mnil => h
  | Mcons m ms =>
      let '(v, h) := construct m h in
      let '(_, h) := add parent v h in
      construct_members add parent ms h
  end.

(** The Var JSON_ParseNumber stores for a number text. *)
Definition parsed_var (numstr : list ascii) : JVarObject :=
  as_JVar (load (snd (JSON_ParseNumber None (Some numstr) [])) 0).

(** The tree a term builds. *)
Fixpoint tree_of (t : term) : tree :=
  match t with
  | MkArray nm ms => TArray nm (forest_of ms)
  | MkObject nm ms => TObject nm (forest_of ms)
  | MkNum nm num => TVar nm (mkJVarObject JVARTYPE_UINT32 4 (val_ul (to_uint32 num)))
  | MkParsed nm numstr => TVar nm (parsed_var numstr)
  | MkFloat nm num => TVar nm (mkJVarObject JVARTYPE_FLOAT 4 (val_f num))
  | MkBool nm num =>
      TBool nm (mkJVarObject JVARTYPE_UINT16 2 (val_ui (if (0 <? num)%Z then 1 else 0)%Z))
  | MkStr nm str => TVar nm (mkJVarObject JVARTYPE_STR (strlen str) (val_str str))
  end
with forest_of (ms : terms) : forest :=
  match ms with
  | Mnil => Fnil
  | Mcons m ms => Fcons (tree_of m) (forest_of ms)
  end.

(** One forest after another. *)
Fixpoint forest_app (ts us : forest) : forest :=
  match ts with
  | Fnil => us
  | Fcons t ts => Fcons t (forest_app ts us)
  end.

(** [laid h lo hi t]: as [repr h lo t], with the nodes of [t] allocated at
    [lo], ..., [hi - 1], every node before its children and every sibling
    before the next; [laid_chain h lo hi p ts lst]: the same for a chain,
    whose last root is [lst]. This is how [construct] lays a tree out. *)
Inductive laid (h : list object) : nat -> nat -> tree -> Prop :=
  | laid_array lo hi nm nx c ts lst :
      h !! lo = Some (mkobject (mkJNode JSON_ARRAY nm nx) (Container c)) ->
      laid_chain h (S lo) hi (pFirst c) ts lst -> laid h lo hi (TArray nm ts)
  | laid_object lo hi nm nx c ts lst :
      h !! lo = Some (mkobject (mkJNode JSON_OBJECT nm nx) (Container c)) ->
      laid_chain h (S lo) hi (pFirst c) ts lst -> laid h lo hi (TObject nm ts)
  | laid_var lo nm nx v :
      h !! lo = Some (mkobject (mkJNode JSON_VAR nm nx) (Var v)) ->
      laid h lo (S lo) (TVar nm v)
  | laid_bool lo nm nx v :
      h !! lo = Some (mkobject (mkJNode JSON_BOOL nm nx) (Var v)) ->
      laid h lo (S lo) (TBool nm v)
with laid_chain (h : list object)
  : nat -> nat -> option nat -> forest -> option nat -> Prop :=
  | laid_nil lo : laid_chain h lo lo None Fnil None
  | laid_cons lo mid hi t ts lst :
      laid h lo mid t ->
      laid_chain h mid hi (pNext (node (load h lo))) ts lst ->
      laid_chain h lo hi (Some lo) (Fcons t ts) (Some (default lo lst)).

Scheme laid_mut := Induction for laid Sort Prop
  with laid_chain_mut := Induction for laid_chain Sort Prop.
Combined Scheme laid_both_ind from laid_mut, laid_chain_mut.

(** JSON_ArrayAdd on an array, JSON_ObjectAdd on an object. *)
Definition appender (ty : JType)
    (add : option nat -> option nat -> list object -> Z * list object) : Prop :=
  (ty = JSON_ARRAY /\ add = JSON_ArrayAdd) \/
  (ty = JSON_OBJECT /\ add = JSON_ObjectAdd).

(** The text JSON_Print writes for a tree. *)
Definition comma_text (comma : bool) : list ascii :=
  if comma then cstr "," else [].

Definition name_text (nm : option (list ascii)) : list ascii :=
  match nm with
  | Some nm => [dquote] ++ printf_s nm ++ [dquote] ++ cstr " : "
  | None => []
  end.

Fixpoint print_tree (t : tree) (comma : bool) : list ascii :=
  comma_text comma ++ name_text (tree_name t) ++
  match t with
  | TArray _ ts => cstr "[" ++ print_forest ts false ++ cstr "]"
  | TObject _ ts => cstr "{" ++ print_forest ts false ++ cstr "}"
  | TVar nm v => json_PrintValue (mkobject (mkJNode JSON_VAR nm None) (Var v))
  | TBool nm v => json_PrintValue (mkobject (mkJNode JSON_BOOL nm None) (Var v))
  end
with print_forest (ts : forest) (comma : bool) : list ascii :=
  match ts with
  | Fnil => []
  | Fcons t ts => print_tree t comma ++ print_forest ts true
  end.

(** The text of a tree after its comma and name. *)
Definition print_value (t : tree) : list ascii :=
  print_tree (with_name None t) false.

(** Calls of JSON_Print that printing a tree nests, at most. *)
Fixpoint weight (t : tree) : nat :=
  match t with
  | TArray _ ts | TObject _ ts => 2 + weight_forest ts
  | TVar _ _ | TBool _ _ => 1
  end
with weight_forest (ts : forest) : nat :=
  match ts with
  | Fnil => 1
  | Fcons t ts => 1 + weight t + weight_forest ts
  end.

(** ** Trees that print as text the grammar accepts *)

(** Text that reads back unchanged between quotes: its C string has no
    quote and no backslash. *)
Definition plain (s : list ascii) : Prop :=
  Forall (fun c => c <> dquote /\ c <> "\"%char) (c_str s).

(** What may follow a value in printed text. *)
Definition closes (rest : list ascii) : Prop :=
  match rest with
  | c :: _ => c = ","%char \/ c = "]"%char \/ c = "}"%char
  | [] => True
  end.

(** A float whose text the scanner returns as one FLOAT token, and which
    prints as the same text after it is converted back. *)
Definition float_reads_back (f : float) : Prop :=
  (forall rest, closes rest ->
     longest (rules (printf_f f ++ rest)) None =
     Some (length (printf_f f), Return FLOAT)) /\
  Forall (fun c => c <> NUL) (printf_f f) /\
  printf_f (atof (printf_f f)) = printf_f f.

Definition printable_var (v : JVarObject) : Prop :=
  match var_type v with
  | JVARTYPE_UINT16 => (0 <= get_ui (var_val v) < 2 ^ 31)%Z
  | JVARTYPE_UINT32 => (0 <= to_int32 (get_ul (var_val v)))%Z
  | JVARTYPE_FLOAT => float_reads_back (get_f (var_val v))
  | JVARTYPE_STR => plain (get_str (var_val v))
  | _ => False
  end.

(** The name a child must have: a plain one in an object, none in an
    array. *)
Definition printable_name (in_object : bool) (nm : option (list ascii)) : Prop :=
  match nm with
  | Some nm => in_object = true /\ plain nm
  | None => in_object = false
  end.

Fixpoint printable (in_object : bool) (t : tree) : Prop :=
  printable_name in_object (tree_name t) /\
  match t with
  | TArray _ ts => ts <> Fnil /\ printable_forest false ts
  | TObject _ ts => ts <> Fnil /\ printable_forest true ts
  | TVar _ v => printable_var v
  | TBool _ _ => True
  end
with printable_forest (in_object : bool) (ts : forest) : Prop :=
  match ts with
  | Fnil => True
  | Fcons t ts => printable in_object t /\ printable_forest in_object ts
  end.

(** A root the grammar can produce: an array or object without a name. *)
Definition printable_root (t : tree) : Prop :=
  printable false t /\
  match t with TArray _ _ | TObject _ _ => True | _ => False end.

(** ** The stack of the generated parser *)

(** Bison's bound on the parser's stack; json_parser.y and CMakeLists.txt
    set no other. The generated parser gives up when a push makes the
    stack hold this many entries. *)
Definition YYMAXDEPTH : nat := 100 * 100.

(** The most entries the parser has on its stack, above those below the
    value, while it reads the text of a tree. A scalar is one entry. In an
    array the bracket stays below the list, and the closing bracket is
    the third entry (bracket, list, bracket). The list is right-recursive
    (value_list : value COMMA value_list): nothing is reduced before its
    last value is read, so every element but the last leaves two entries,
    the value and the comma, below the rest. In an object the key and the
    colon lie below the value of a member, and the member and the comma
    below the rest. *)
Fixpoint stack_value (t : tree) : nat :=
  match t with
  | TArray _ ts => Nat.max 3 (1 + stack_elements ts)
  | TObject _ ts => Nat.max 3 (1 + stack_members ts)
  | TVar _ _ | TBool _ _ => 1
  end
with stack_elements (ts : forest) : nat :=
  match ts with
  | Fnil => 0
  | Fcons t ts' =>
      Nat.max (stack_value t)
        match ts' with Fnil => 0 | Fcons _ _ => 2 + stack_elements ts' end
  end
with stack_members (ts : forest) : nat :=
  match ts with
  | Fnil => 0
  | Fcons t ts' =>
      Nat.max (2 + stack_value t)
        match ts' with Fnil => 0 | Fcons _ _ => 2 + stack_members ts' end
  end.

(** The entries of the stack when it is fullest, the initial state
    included: 2n + 1 for an array of n scalars, 2n + 3 for an object of n
    scalar members. *)
Definition stack_need (t : tree) : nat := 1 + stack_value t.

(** What one reduction of [value] leaves: the globals [g'] after it, the
    new node [l], allocated last, the root of a tree [t'] laid out after
    the old heap, without a name and unlinked, which prints as [t] does. *)
Definition parsed (g g' : globals) (l : nat) (t t' : tree) : Prop :=
  errorFlag g' = errorFlag g /\
  (forall i, i < length (heap g) -> heap g' !! i = heap g !! i) /\
  length (heap g') = S l /\
  built (heap g') (length (heap g)) l t' /\
  tree_name t' = None /\
  pNext (node (load (heap g') l)) = None /\
  print_value t' = print_value t.

(** The same for a child as it is linked into a chain: [t'] has the name
    the grammar gave it, and prints as [t] does after a comma or not. *)
Definition parsed_child (g g' : globals) (l : nat) (t t' : tree) : Prop :=
  errorFlag g' = errorFlag g /\
  (forall i, i < length (heap g) -> heap g' !! i = heap g !! i) /\
  length (heap g') = S l /\
  built (heap g') (length (heap g)) l t' /\
  pNext (node (load (heap g') l)) = None /\
  (forall comma, print_tree t' comma = print_tree t comma).

(** What a reduction of [value_list] or [attribute_list] leaves: a chain
    from [l] that prints as the forest [ts] does. *)
Definition parsed_chain (g g' : globals) (l : nat) (ts ts' : forest) : Prop :=
  errorFlag g' = errorFlag g /\
  (forall i, i < length (heap g) -> heap g' !! i = heap g !! i) /\
  length (heap g) <= length (heap g') /\
  built_chain (heap g') (length (heap g)) (length (heap g')) (Some l) ts' /\
  (forall comma, print_forest ts' comma = print_forest ts comma).

(** The tokens of the printed text. *)
Definition comma_tokens (comma : bool) : list (token * list ascii) :=
  if comma then [(COMMA, cstr ",")] else [].

Definition name_tokens (nm : option (list ascii)) : list (token * list ascii) :=
  match nm with
  | Some nm => [(CHARSTR, [dquote] ++ c_str nm ++ [dquote]); (COLON, cstr ":")]
  | None => []
  end.

Definition var_tokens (v : JVarObject) : list (token * list ascii) :=
  match var_type v with
  | JVARTYPE_UINT16 => [(NUM, printf_d (get_ui (var_val v)))]
  | JVARTYPE_UINT32 => [(NUM, printf_d (to_int32 (get_ul (var_val v))))]
  | JVARTYPE_FLOAT => [(FLOAT, printf_f (get_f (var_val v)))]
  | JVARTYPE_STR => [(CHARSTR, [dquote] ++ c_str (get_str (var_val v)) ++ [dquote])]
  | _ => []
  end.

Fixpoint value_tokens (t : tree) : list (token * list ascii) :=
  match t with
  | TArray _ ts => [(LBRACKET, cstr "[")] ++ forest_tokens ts false ++ [(RBRACKET, cstr "]")]
  | TObject _ ts => [(LBRACE, cstr "{")] ++ forest_tokens ts false ++ [(RBRACE, cstr "}")]
  | TVar _ v => var_tokens v
  | TBool _ v =>
      if (0 <? get_ui (var_val v))%Z then [(TRUE, cstr "true")]
      else [(FALSE, cstr "false")]
  end
with forest_tokens (ts : forest) (comma : bool) : list (token * list ascii) :=
  match ts with
  | Fnil => []
  | Fcons t ts =>
      comma_tokens comma ++ name_tokens (tree_name t) ++ value_tokens t ++
      forest_tokens ts true
  end.

(** Each production, on the tokens of a printable tree or forest and
    with enough fuel, reduces to a tree that prints the same. *)
Definition value_reads (t : tree) : Prop :=
  forall in_object fuel ts g,
    printable in_object t -> weight t <= fuel ->
    exists l g' t',
      value fuel (value_tokens t ++ ts) g = (Some (Some l, ts), g') /\
      parsed g g' l t t'.

Definition value_list_reads (ts : forest) : Prop :=
  forall fuel x rest g,
    printable_forest false ts -> weight_forest ts <= fuel ->
    exists l g' ts',
      value_list fuel (forest_tokens ts false ++ (RBRACKET, x) :: rest) g =
      (Some (Some l, (RBRACKET, x) :: rest), g') /\
      parsed_chain g g' l ts ts'.

Definition attribute_list_reads (ts : forest) : Prop :=
  forall fuel x rest g,
    printable_forest true ts -> weight_forest ts <= fuel ->
    exists l g' ts',
      attribute_list fuel (forest_tokens ts false ++ (RBRACE, x) :: rest) g =
      (Some (Some l, (RBRACE, x) :: rest), g') /\
      parsed_chain g g' l ts ts'.

(** Test data: text with each apostrophe standing for a double quote. *)
Definition jtext (s : string) : list ascii :=
  map (fun c => if Ascii.eqb c "'"%char then dquote else c) (cstr s).

(** ** Sample trees *)

(** The heap after JSON_Array( NULL ), JSON_Num( NULL, 1 ),
    JSON_Bool( NULL, 1 ) and JSON_Str( NULL, x ): the array is node 0, the
    others nodes 1, 2 and 3, not yet appended. *)
Definition sample_nodes : list object :=
  let '(_, h) := JSON_Array None [] in
  let '(_, h) := JSON_Num None 1 h in
  let '(_, h) := JSON_Bool None 1 h in
  let '(_, h) := JSON_Str None (Some (cstr "x")) h in
  h.

(** The same heap after the three nodes were appended to the array. *)
Definition sample_array : list object := appends 0 [1; 2; 3] sample_nodes.

(** The tree of [sample_array]. *)
Definition sample_tree : tree :=
  TArray None
    (Fcons (TVar None (mkJVarObject JVARTYPE_UINT32 4 (val_ul 1)))
       (Fcons (TBool None (mkJVarObject JVARTYPE_UINT16 2 (val_ui 1)))
          (Fcons (TVar None (mkJVarObject JVARTYPE_STR 1 (val_str (cstr "x"))))
             Fnil))).

(** The heap after an object was built with the constructors and the
    appends, in the manner of jsontest.c: its members are a, the number 1,
    and b, an array of true, false and a string; the object is node 0. *)
Definition sample_object : list object :=
  let '(o, h) := JSON_Object None [] in
  let '(v, h) := JSON_Num (Some (cstr "a")) 1 h in
  let '(_, h) := JSON_ObjectAdd o v h in
  let '(b, h) := JSON_Array (Some (cstr "b")) h in
  let '(v, h) := JSON_Bool None 1 h in
  let '(_, h) := JSON_ArrayAdd b v h in
  let '(v, h) := JSON_Bool None 0 h in
  let '(_, h) := JSON_ArrayAdd b v h in
  let '(v, h) := JSON_Str None (Some (cstr "x")) h in
  let '(_, h) := JSON_ArrayAdd b v h in
  let '(_, h) := JSON_ObjectAdd o b h in
  h.

(** The tree of [sample_object]. *)
Definition sample_object_tree : tree :=
  TObject None
    (Fcons (TVar (Some (cstr "a")) (mkJVarObject JVARTYPE_UINT32 4 (val_ul 1)))
       (Fcons
          (TArray (Some (cstr "b"))
             (Fcons (TBool None (mkJVarObject JVARTYPE_UINT16 2 (val_ui 1)))
                (Fcons (TBool None (mkJVarObject JVARTYPE_UINT16 2 (val_ui 0)))
                   (Fcons (TVar None (mkJVarObject JVARTYPE_STR 1 (val_str (cstr "x"))))
                      Fnil))))
          Fnil)).

(** The term of [sample_object]. *)
Definition sample_term : term :=
  MkObject None
    (Mcons (MkNum (Some (cstr "a")) 1)
       (Mcons
          (MkArray (Some (cstr "b"))
             (Mcons (MkBool None 1)
                (Mcons (MkBool None 0)
                   (Mcons (MkStr None (cstr "x")) Mnil))))
          Mnil)).





(** A container with one member: the constructor [container] on the empty
    heap, the constructor [member], and the append [add]. *)
Definition with_member
    (container : list object -> option nat * list object)
    (add : option nat -> option nat -> list object -> Z * list object)
    (member : list object -> option nat * list object)
  : option nat * list object :=
  let '(a, h) := container [] in
  let '(v, h) := member h in
  let '(_, h) := add a v h in
  (a, h).

(** JSON_Print of a tree, JSON_ProcessBuffer of that text (from the
    initial globals), JSON_Print of the result: the first text, the node
    read back, and the second text. *)
Definition print_parse_print (fuel : nat) (p : option nat * list object)
  : list ascii * option nat * option (list ascii) :=
  let '(a, h) := p in
  let text := default [] (JSON_Print fuel h a false) in
  let '(r, g) := JSON_ProcessBuffer (Some text) initial in
  (text, r, JSON_Print fuel (heap g) r false).

(** Trees built by the constructors and the appends alone, for which
    printing, reading back and printing again does not give the same text:
    an empty array; an array holding an empty object; a scalar root; a
    named root; a named array element; an unnamed object member; strings
    with a double quote and with a backslash; a string Var with a NULL
    string; and the numbers -1, 4294967294 and 4294967295. *)
Definition round_trip_samples : list (option nat * list object) :=
  [ JSON_Array None [];
    with_member (JSON_Array None) JSON_ArrayAdd (JSON_Object None);
    JSON_Num None 1 [];
    with_member (JSON_Array (Some (cstr "r"))) JSON_ArrayAdd (JSON_Num None 1);
    with_member (JSON_Array None) JSON_ArrayAdd (JSON_Num (Some (cstr "k")) 1);
    with_member (JSON_Object None) JSON_ObjectAdd (JSON_Num None 1);
    with_member (JSON_Array None) JSON_ArrayAdd (JSON_Str None (Some (jtext "a'b")));
    with_member (JSON_Array None) JSON_ArrayAdd (JSON_Str None (Some (cstr "a\b")));
    with_member (JSON_Array None) JSON_ArrayAdd (JSON_Str None None);
    with_member (JSON_Array None) JSON_ArrayAdd (JSON_Num None (-1));
    with_member (JSON_Array None) JSON_ArrayAdd
      (JSON_ParseNumber None (Some (cstr "4294967294")));
    with_member (JSON_Array None) JSON_ArrayAdd
      (JSON_ParseNumber None (Some (cstr "4294967295"))) ].

(** ** Trees the grammar builds *)

(** The Vars the actions of [value] make: a classified number, a float, a
    string. *)
Definition parsed_scalar (v : JVarObject) : Prop :=
  (exists numstr, v = parsed_var numstr) \/
  (exists num, v = mkJVarObject JVARTYPE_FLOAT 4 (val_f num)) \/
  (exists str, v = mkJVarObject JVARTYPE_STR (strlen str) (val_str str)).

(** The shape of a parsed tree: no container is empty, the members of an
    object have names and the elements of an array have none, a Bool holds
    0 or 1. *)
Fixpoint grammatical (in_object : bool) (t : tree) : Prop :=
  (if in_object then tree_name t <> None else tree_name t = None) /\
  match t with
  | TArray _ ts => ts <> Fnil /\ grammatical_forest false ts
  | TObject _ ts => ts <> Fnil /\ grammatical_forest true ts
  | TVar _ v => parsed_scalar v
  | TBool _ v =>
      v = mkJVarObject JVARTYPE_UINT16 2 (val_ui 1) \/
      v = mkJVarObject JVARTYPE_UINT16 2 (val_ui 0)
  end
with grammatical_forest (in_object : bool) (ts : forest) : Prop :=
  match ts with
  | Fnil => True
  | Fcons t ts => grammatical in_object t /\ grammatical_forest in_object ts
  end.

Definition is_container (t : tree) : Prop :=
  match t with TArray _ _ | TObject _ _ => True | _ => False end.

(** A node as the parser leaves it: no tail pointer, no count, and a
    first child if it is an array or an object. *)
Definition parser_node (o : object) : Prop :=
  pLast (as_JArray o) = None /\ n (as_JArray o) = 0 /\
  (type (node o) = JSON_ARRAY \/ type (node o) = JSON_OBJECT ->
   pFirst (as_JArray o) <> None).

(** The heap of [g'] is the heap of [g] with nodes the parser allocated
    after it (and the error flag is the same). *)
Definition extends (g g' : globals) : Prop :=
  (forall i, i < length (heap g) -> heap g' !! i = heap g !! i) /\
  length (heap g) <= length (heap g') /\
  errorFlag g' = errorFlag g /\
  (forall i, length (heap g) <= i -> parser_node (load (heap g') i)).

(** The tokens a production of the grammar names. *)
Definition grammar_token (tk : token) : bool :=
  match tk with
  | ID | SEMI | DOT | DQUOTE => false
  | _ => true
  end.

(** ** Lookup by name *)

(** The node [l] has a name that strcmp finds equal to [key]. *)
Definition has_name (h : list object) (key : list ascii) (l : nat) : bool :=
  match name (node (load h l)) with
  | Some nm => (strcmp nm key =? 0)%Z
  | None => false
  end.

(** A freshly created object: what JSON_Object leaves in the heap. *)
Definition fresh_object (name : option (list ascii)) : object :=
  mkobject (mkJNode JSON_OBJECT name None) (Container (mkJArray 0 None None)).

(** JSON_ObjectAdd( o, p ) for each [p] of [ps], in order. *)
Definition object_appends (o : nat) (ps : list nat) (h : list object) : list object :=
  foldl (fun h p => snd (JSON_ObjectAdd (Some o) (Some p) h)) h ps.

(** The object [a] after the nodes [qs] were appended to it, starting
    from the heap [h0]: only links were written. *)
Record linked (h0 : list object) (a : nat) (qs : list nat) (h : list object)
  : Prop := mklinked {
  lk_length : length h = length h0;
  lk_type : type (node (load h a)) = JSON_OBJECT;
  lk_first : pFirst (as_JArray (load h a)) = head qs;
  lk_last : pLast (as_JArray (load h a)) = last qs;
  lk_chain : chain h (head qs) qs;
  lk_other : forall p, p ∉ qs -> p <> a -> h !! p = h0 !! p;
  lk_same : forall p, p <> a ->
    name (node (load h p)) = name (node (load h0 p)) /\
    type (node (load h p)) = type (node (load h0 p)) /\
    rest (load h p) = rest (load h0 p);
}.

(** The values JSON_ObjectAdd( o, p ) returns for each [p] of [ps], in
    order. *)
Fixpoint object_append_results (o : nat) (ps : list nat) (h : list object)
  : list Z :=
  match ps with
  | [] => []
  | p :: ps =>
      fst (JSON_ObjectAdd (Some o) (Some p) h) ::
      object_append_results o ps (snd (JSON_ObjectAdd (Some o) (Some p) h))
  end.

(** ** Searching a tree *)

(** [preorder h p ls]: the nodes JSON_Find visits from [p], when it finds
    nothing: each node of the sibling chain from [p], every array and
    object followed by its descendants. *)
Inductive preorder (h : list object) : option nat -> list nat -> Prop :=
  | pre_nil : preorder h None []
  | pre_container l o kids sibs :
      h !! l = Some o ->
      type (node o) = JSON_ARRAY \/ type (node o) = JSON_OBJECT ->
      preorder h (pFirst (as_JArray o)) kids ->
      preorder h (pNext (node o)) sibs ->
      preorder h (Some l) (l :: kids ++ sibs)
  | pre_leaf l o sibs :
      h !! l = Some o ->
      type (node o) <> JSON_ARRAY -> type (node o) <> JSON_OBJECT ->
      preorder h (pNext (node o)) sibs ->
      preorder h (Some l) (l :: sibs).

(** The node [l] has a kind and a name that strcmp finds equal to
    [key]. *)
Definition is_key (h : list object) (key : list ascii) (l : nat) : bool :=
  match type (node (load h l)) with
  | JSON_INVALID => false
  | _ =>
      match name (node (load h l)) with
      | Some nm => (strcmp key nm =? 0)%Z
      | None => false
      end
  end.

(** ** Members of an object *)

(** The first member of [ts] that has the name [key] and a value of the
    kind asked for. *)
Fixpoint member {A : Type} (key : list ascii) (value : tree -> option A)
    (ts : forest) : option A :=
  match ts with
  | Fnil => None
  | Fcons t ts =>
      match tree_name t with
      | Some nm =>
          if (strcmp nm key =? 0)%Z then
            match value t with
            | Some a => Some a
            | None => member key value ts
            end
          else member key value ts
      | None => member key value ts
      end
  end.

Definition str_value (t : tree) : option (list ascii) :=
  match t with
  | TVar _ v =>
      match var_type v with
      | JVARTYPE_STR => Some (get_str (var_val v))
      | _ => None
      end
  | _ => None
  end.

Definition bool_value (t : tree) : option bool :=
  match t with
  | TBool _ v =>
      match var_type v with
      | JVARTYPE_UINT16 => Some (negb (get_ui (var_val v) =? 0)%Z)
      | _ => None
      end
  | _ => None
  end.

Definition num_value (t : tree) : option Z :=
  match t with
  | TVar _ v =>
      match var_type v with
      | JVARTYPE_UINT32 => Some (to_int32 (get_ul (var_val v)))
      | _ => None
      end
  | _ => None
  end.

Definition float_value (t : tree) : option float :=
  match t with
  | TVar _ v =>
      match var_type v with
      | JVARTYPE_FLOAT => Some (get_f (var_val v))
      | _ => None
      end
  | _ => None
  end.


(** Every tree of the forest has a name. *)
Fixpoint named_forest (ts : forest) : Prop :=
  match ts with
  | Fnil => True
  | Fcons t ts => tree_name t <> None /\ named_forest ts
  end.

Fixpoint forest_length (ts : forest) : nat :=
  match ts with
  | Fnil => 0
  | Fcons _ ts => S (forest_length ts)
  end.

(** ** Tokens *)

(** The texts the scanner can return with each token. *)
Definition token_text (t : token) (text : list ascii) : Prop :=
  match t with
  | LBRACE => text = cstr "{"
  | RBRACE => text = cstr "}"
  | LBRACKET => text = cstr "["
  | RBRACKET => text = cstr "]"
  | COMMA => text = cstr ","
  | SEMI => text = cstr ";"
  | DOT => text = cstr "."
  | COLON => text = cstr ":"
  | TRUE => text = cstr "true"
  | FALSE => text = cstr "false"
  | NUM => decimal_literal text = true
  | CHARSTR => exists x, text = [dquote] ++ x ++ [dquote]
  | ID | FLOAT => text <> []
  | DQUOTE => False
  end.

(** The characters the scanner skips between tokens. *)
Definition is_blank (c : ascii) : bool :=
  is_delim c || Ascii.eqb c newline.

(** The heap after JSON_Object( NULL ), JSON_Num( a, 1 ), JSON_Str( b, x )
    and JSON_Num( a, 2 ): the object is node 0, the others nodes 1, 2 and
    3, not yet appended. *)
Definition sample_members : list object :=
  let '(_, h) := JSON_Object None [] in
  let '(_, h) := JSON_Num (Some (cstr "a")) 1 h in
  let '(_, h) := JSON_Str (Some (cstr "b")) (Some (cstr "x")) h in
  let '(_, h) := JSON_Num (Some (cstr "a")) 2 h in
  h.

(** ** Which token may follow which *)

(** The tokens a value starts with. *)
Definition starts_value (t : token) : bool :=
  match t with
  | NUM | FLOAT | TRUE | FALSE | CHARSTR | LBRACKET | LBRACE => true
  | _ => false
  end.

(** The tokens a value ends with. *)
Definition ends_value (t : token) : bool :=
  match t with
  | NUM | FLOAT | TRUE | FALSE | CHARSTR | RBRACKET | RBRACE => true
  | _ => false
  end.

(** [follows t1 t2]: in text the grammar accepts, [t2] may come next
    after [t1]. *)
Definition follows (t1 t2 : token) : bool :=
  match t1 with
  | LBRACKET | COMMA | COLON => starts_value t2
  | LBRACE => match t2 with CHARSTR => true | _ => false end
  | NUM | FLOAT | TRUE | FALSE | RBRACKET | RBRACE =>
      match t2 with COMMA | RBRACKET | RBRACE => true | _ => false end
  | CHARSTR =>
      match t2 with COMMA | RBRACKET | RBRACE | COLON => true | _ => false end
  | _ => false
  end.

(** Every token of the list may follow the one before it. *)
Fixpoint chained (l : list token) : bool :=
  match l with
  | t1 :: r => match r with t2 :: _ => follows t1 t2 | [] => true end && chained r
  | [] => true
  end.

(** A phrase: a non-empty token list that begins as [start] asks, ends
    as a value ends, and in which each token may follow the one before. *)
Definition phrase (start : token -> bool) (l : list token) : Prop :=
  exists t r, l = t :: r /\ start t = true /\
    ends_value (List.last l t) = true /\ chained l = true.

Definition is_charstr (t : token) : bool :=
  match t with CHARSTR => true | _ => false end.

(** * Properties *)

(** ** Heap reads and writes *)

Lemma load_lookup (h : list object) l o : h !! l = Some o -> load h l = o.
Proof. unfold load. now intros ->. Qed.

Lemma load_store_eq f l (h : list object) :
  l < length h -> load (store f l h) l = f (load h l).
Proof.
  intros Hl. unfold load, store. rewrite list_lookup_alter_eq.
  destruct (lookup_lt_is_Some_2 h l Hl) as [o ->]. reflexivity.
Qed.

Lemma load_store_ne f l l' (h : list object) :
  l <> l' -> load (store f l h) l' = load h l'.
Proof. intros Hne. unfold load, store. now rewrite list_lookup_alter_ne. Qed.

Lemma store_length f l (h : list object) : length (store f l h) = length h.
Proof. apply length_alter. Qed.

Lemma store_new f (h : list object) o : store f (length h) (h ++ [o]) = h ++ [f o].
Proof.
  unfold store. replace (length h) with (length h + 0) by lia.
  now rewrite alter_app_r.
Qed.

Lemma load_new (h : list object) o : load (h ++ [o]) (length h) = o.
Proof. apply load_lookup. apply list_lookup_middle. reflexivity. Qed.

Lemma load_old (h : list object) o l : l < length h -> load (h ++ [o]) l = load h l.
Proof. intros Hl. unfold load. now rewrite lookup_app_l. Qed.

(** ** The constructors allocate one struct *)

Lemma JSON_Var_eq name h :
  JSON_Var name h =
  (Some (length h), h ++ [mkobject (mkJNode JSON_VAR name None) (Var zero_JVarObject)]).
Proof. unfold JSON_Var, calloc. now rewrite !store_new. Qed.

Lemma JSON_Array_eq name h :
  JSON_Array name h =
  (Some (length h),
   h ++ [mkobject (mkJNode JSON_ARRAY name None) (Container (mkJArray 0 None None))]).
Proof. unfold JSON_Array, calloc. now rewrite !store_new. Qed.

Lemma JSON_Object_eq name h :
  JSON_Object name h =
  (Some (length h),
   h ++ [mkobject (mkJNode JSON_OBJECT name None) (Container (mkJArray 0 None None))]).
Proof. unfold JSON_Object, calloc. now rewrite !store_new. Qed.

Lemma JSON_Bool_eq name num h :
  JSON_Bool name num h =
  (Some (length h),
   h ++ [mkobject (mkJNode JSON_BOOL name None)
           (Var (mkJVarObject JVARTYPE_UINT16 2
                   (val_ui (if (0 <? num)%Z then 1 else 0)%Z)))]).
Proof. unfold JSON_Bool. rewrite JSON_Var_eq. now rewrite !store_new. Qed.

Lemma JSON_Num_eq name num h :
  JSON_Num name num h =
  (Some (length h),
   h ++ [mkobject (mkJNode JSON_VAR name None)
           (Var (mkJVarObject JVARTYPE_UINT32 4 (val_ul (to_uint32 num))))]).
Proof. unfold JSON_Num. rewrite JSON_Var_eq. now rewrite !store_new. Qed.

Lemma JSON_Float_eq name num h :
  JSON_Float name num h =
  (Some (length h),
   h ++ [mkobject (mkJNode JSON_VAR name None)
           (Var (mkJVarObject JVARTYPE_FLOAT 4 (val_f num)))]).
Proof. unfold JSON_Float. rewrite JSON_Var_eq. now rewrite !store_new. Qed.

Lemma JSON_Str_eq name str h :
  JSON_Str name (Some str) h =
  (Some (length h),
   h ++ [mkobject (mkJNode JSON_VAR name None)
           (Var (mkJVarObject JVARTYPE_STR (strlen str) (val_str str)))]).
Proof. unfold JSON_Str. rewrite JSON_Var_eq. now rewrite !store_new. Qed.

Lemma JSON_ParseNumber_eq name numstr h :
  exists var,
    JSON_ParseNumber name (Some numstr) h =
    (Some (length h), h ++ [mkobject (mkJNode JSON_VAR name None) (Var var)]) /\
    var_type var =
      narrowest_kind (Ascii.eqb (nth 0 numstr NUL) "-"%char)
        (if Ascii.eqb (nth 0 numstr NUL) "-"%char then strtoll numstr
         else strtoull numstr).
Proof.
  unfold JSON_ParseNumber. rewrite JSON_Var_eq.
  eexists. rewrite store_new. split; [reflexivity|].
  unfold narrowest_kind.
  destruct (Ascii.eqb (nth 0 numstr NUL) "-"%char).
  - repeat case_bool_decide;
      repeat match goal with
             | |- context [(?a <? ?b)%Z] => destruct (Z.ltb_spec a b)
             end; simpl; try reflexivity; lia.
  - repeat case_bool_decide;
      repeat match goal with
             | |- context [(?a <? ?b)%Z] => destruct (Z.ltb_spec a b)
             end; simpl; try reflexivity; lia.
Qed.

(** ** C1: the number classifier *)

Lemma is_digit_range c : is_digit c = true -> 48 <= nat_of_ascii c <= 57.
Proof.
  unfold is_digit. rewrite andb_true_iff, !Nat.leb_le. tauto.
Qed.

Lemma digit_neq c d :
  is_digit c = true -> is_digit d = false -> Ascii.eqb c d = false.
Proof.
  intros Hc Hd. destruct (Ascii.eqb_spec c d); [subst; congruence | reflexivity].
Qed.

Lemma digit_not_space c : is_digit c = true -> isspace c = false.
Proof.
  intros [H1 H2]%is_digit_range. unfold isspace.
  apply orb_false_iff. split.
  - apply Nat.eqb_neq. lia.
  - apply andb_false_iff. right. apply Nat.leb_gt. lia.
Qed.

Lemma all_digits_head ds :
  all_digits ds = true -> exists c ds', ds = c :: ds' /\ is_digit c = true.
Proof.
  destruct ds as [|c ds']; [discriminate|]. simpl.
  intros [H _]%andb_true_iff. eauto.
Qed.

Lemma strtoll_negative_literal ds :
  strtoll ("-"%char :: ds) = Z.max LLONG_MIN (- digits_val 0 ds).
Proof. reflexivity. Qed.

Lemma strtoull_digits ds :
  all_digits ds = true -> strtoull ds = Z.min ULLONG_MAX (digits_val 0 ds).
Proof.
  intros (c & ds' & -> & Hc)%all_digits_head.
  unfold strtoull. simpl skip_space. rewrite (digit_not_space c Hc).
  rewrite !(digit_neq c) by (assumption || reflexivity).
  destruct (Z.ltb_spec ULLONG_MAX (digits_val 0 (c :: ds'))); lia.
Qed.

(** C1. For a decimal integer literal, the 64-bit value JSON_ParseNumber
    converts it to is the literal's value saturated to the signed (with a
    leading minus) or unsigned 64-bit range, and the Var's scalar kind is
    chosen by the strict thresholds: INT16 when -32768 < n < 32767, else
    INT32 when -2147483648 < n < 2147483647, else INT64 for a literal
    with a minus sign; UINT16 when n < 65535, else UINT32 when
    n < 4294967295, else UINT64 otherwise. So 65535 is UINT32, 65534 is
    UINT16, -32768 is INT32 and -32767 is INT16. *)
Theorem C1_number_classifier name numstr h :
  decimal_literal numstr = true ->
  let negative := Ascii.eqb (nth 0 numstr NUL) "-"%char in
  let n := if negative then strtoll numstr else strtoull numstr in
  n = (if negative then Z.max LLONG_MIN (literal_value numstr)
       else Z.min ULLONG_MAX (literal_value numstr)) /\
  kind_of (JSON_ParseNumber name (Some numstr) h) = narrowest_kind negative n /\
  kind_of (JSON_ParseNumber name (Some (cstr "65535")) h) = JVARTYPE_UINT32 /\
  kind_of (JSON_ParseNumber name (Some (cstr "65534")) h) = JVARTYPE_UINT16 /\
  kind_of (JSON_ParseNumber name (Some (cstr "-32768")) h) = JVARTYPE_INT32 /\
  kind_of (JSON_ParseNumber name (Some (cstr "-32767")) h) = JVARTYPE_INT16.
Proof.
  intros Hlit negative n.
  assert (Hkind : forall s,
    kind_of (JSON_ParseNumber name (Some s) h) =
    narrowest_kind (Ascii.eqb (nth 0 s NUL) "-"%char)
      (if Ascii.eqb (nth 0 s NUL) "-"%char then strtoll s else strtoull s)).
  { intros s. destruct (JSON_ParseNumber_eq name s h) as (var & -> & <-).
    unfold kind_of. now rewrite load_new. }
  split; [|split; [apply Hkind|]].
  - subst n negative. destruct numstr as [|c ds]; [discriminate|].
    unfold decimal_literal in Hlit. unfold literal_value. simpl nth.
    destruct (Ascii.eqb_spec c "-"%char) as [->|Hc].
    + apply strtoll_negative_literal.
    + now apply strtoull_digits.
  - rewrite !Hkind. repeat split; reflexivity.
Qed.

(** ** C8: string unescaping *)

Lemma c_str_app_no_NUL x y :
  Forall (fun c => c <> NUL) x -> c_str (x ++ y) = x ++ c_str y.
Proof.
  induction 1 as [|c x Hc _ IH]; [reflexivity|]. simpl.
  destruct (Ascii.eqb_spec c NUL); [contradiction|]. now rewrite IH.
Qed.

Lemma nth_drop_head (s : list ascii) i c r : drop i s = c :: r -> nth i s NUL = c.
Proof.
  revert i. induction s as [|a s IH]; intros [|i] H; simpl in *;
    try discriminate; [congruence | now apply IH].
Qed.

Lemma get_charstr_loop_spec count :
  forall i j state (s : list ascii),
    state <= 1 -> j <= i -> i + count <= length s ->
    take (snd (get_charstr_loop count i j state s))
         (fst (get_charstr_loop count i j state s)) =
    take j s ++ unescape_from state (take count (drop i s)).
Proof.
  induction count as [|count IH]; intros i j state s Hst Hj Hlen.
  - simpl. destruct state as [|[|]]; simpl; now rewrite ?app_nil_r.
  - destruct (drop i s) as [|c r] eqn:Hdrop.
    { apply (f_equal length) in Hdrop. rewrite length_drop in Hdrop.
      simpl in Hdrop. lia. }
    assert (Hnth : nth i s NUL = c) by now apply nth_drop_head in Hdrop.
    assert (Hr : drop (S i) s = r).
    { replace (S i) with (i + 1) by lia. rewrite <- drop_drop, Hdrop.
      reflexivity. }
    assert (Hstep : forall x, j <= i ->
      take (S j) (<[j:=x]> s) = take j s ++ [x] /\
      drop (S i) (<[j:=x]> s) = r /\ length (<[j:=x]> s) = length s).
    { intros x Hji. repeat split.
      - erewrite take_S_r; [|apply list_lookup_insert_eq; lia].
        now rewrite take_insert_ge by lia.
      - now rewrite drop_insert_lt by lia.
      - apply length_insert. }
    cbn [get_charstr_loop]. rewrite Hnth. cbn [take].
    destruct state as [|[|]]; [| |lia].
    + cbn [unescape_from unescape].
      destruct (Ascii.eqb c "\"%char).
      * rewrite IH by lia. rewrite Hr.
        destruct (take count r); reflexivity.
      * destruct (Hstep c Hj) as (Ht & Hd & Hl).
        rewrite IH by lia. rewrite Ht, Hd, <- app_assoc. reflexivity.
    + cbn [unescape_from].
      destruct (Hstep (escape c) Hj) as (Ht & Hd & Hl).
      rewrite IH by lia. rewrite Ht, Hd, <- app_assoc. reflexivity.
Qed.

Lemma get_charstr_quoted (x : list ascii) :
  Forall (fun c => c <> NUL) x ->
  get_charstr (Some ([dquote] ++ x ++ [dquote])) = Some (unescape x).
Proof.
  intros Hx.
  assert (Hc : c_str (x ++ [dquote]) = x ++ [dquote])
    by now rewrite c_str_app_no_NUL.
  unfold get_charstr. cbn [app drop]. unfold strdup, strlen.
  rewrite drop_0, !Hc, length_app. cbn [length].
  replace (length x + 1 - 1) with (length x + 0) by lia.
  rewrite insert_app_r. cbn [list_insert insert].
  pose proof (get_charstr_loop_spec (length x + 0) 0 0 0 (x ++ [NUL])) as H.
  destruct (get_charstr_loop (length x + 0) 0 0 0 (x ++ [NUL])) as [s' j'].
  cbn [fst snd] in H. rewrite H; [|lia|lia|rewrite length_app; simpl; lia].
  cbn [unescape_from]. rewrite Nat.add_0_r, drop_0, take_0, take_app_length.
  reflexivity.
Qed.

(** C8. For a quoted-string token (a quote, the characters [x], a quote),
    get_charstr strips both quotes and decodes [x] left to right: a
    backslash consumes the next character and maps backslash to backslash,
    0 to NUL, r to carriage return, n to line feed, t to tab, apostrophe to
    apostrophe, quote to quote and any other character to itself; other
    characters are copied. The token a\nb\tc in quotes decodes to the five
    characters a, line feed, b, tab, c. *)
Theorem C8_unescape (x : list ascii) :
  Forall (fun c => c <> NUL) x ->
  get_charstr (Some ([dquote] ++ x ++ [dquote])) = Some (unescape x) /\
  (forall c r, c <> "\"%char -> unescape (c :: r) = c :: unescape r) /\
  (forall c r, unescape ("\"%char :: c :: r) = escape c :: unescape r) /\
  escape "\"%char = "\"%char /\ escape "0"%char = NUL /\
  escape "r"%char = "013"%char /\ escape "n"%char = "010"%char /\
  escape "t"%char = "009"%char /\ escape "'"%char = "'"%char /\
  escape dquote = dquote /\
  (forall c, ~ In c (dquote :: cstr "\0rnt'") -> escape c = c) /\
  get_charstr (Some ([dquote] ++ cstr "a\nb\tc" ++ [dquote])) =
    Some ["a"%char; "010"%char; "b"%char; "009"%char; "c"%char].
Proof.
  intros Hx. split; [|repeat split; try reflexivity].
  - now apply get_charstr_quoted.
  - intros c r Hc. simpl. now destruct (Ascii.eqb_spec c "\"%char).
  - intros c Hin. unfold escape.
    repeat match goal with
           | |- context [Ascii.eqb c ?d] =>
               destruct (Ascii.eqb_spec c d);
               [subst; exfalso; apply Hin; simpl; tauto|]
           end.
    reflexivity.
Qed.

(** ** C9, C3: appending to an array and indexing it *)

Lemma lookup_store_ne f l l' (h : list object) :
  l <> l' -> store f l h !! l' = h !! l'.
Proof. intros. unfold store. now rewrite list_lookup_alter_ne. Qed.

Lemma lookup_store_eq f l (h : list object) o :
  h !! l = Some o -> store f l h !! l = Some (f o).
Proof. intros H. unfold store. now rewrite list_lookup_alter_eq, H. Qed.

Lemma chain_head h p ls : chain h p ls -> p = head ls.
Proof. now destruct 1. Qed.

Lemma chain_store_ne f l h p ls :
  chain h p ls -> l ∉ ls -> chain (store f l h) p ls.
Proof.
  induction 1 as [|l' o ls Hl Hch IH]; intros Hnot; [constructor|].
  apply not_elem_of_cons in Hnot as [Hne Hnot].
  econstructor; [rewrite lookup_store_ne by congruence; eassumption | auto].
Qed.

Lemma chain_snoc h qs : forall p q0 x ox,
  chain h p (qs ++ [q0]) -> NoDup (qs ++ [q0]) -> x ∉ qs ++ [q0] ->
  h !! x = Some ox -> pNext (node ox) = None ->
  chain (store (set_pNext (Some x)) q0 h) p ((qs ++ [q0]) ++ [x]).
Proof.
  induction qs as [|q qs IH]; intros p q0 x ox Hch Hnd Hx Hox Hnext.
  - inversion Hch as [|l o ls Hl Hch']; subst. inversion Hch'; subst.
    apply not_elem_of_cons in Hx as [Hx _].
    econstructor; [eapply lookup_store_eq; eassumption|]. cbn.
    econstructor; [rewrite lookup_store_ne by congruence; eassumption|].
    rewrite Hnext. constructor.
  - inversion Hch as [|l o ls Hl Hch']; subst.
    apply NoDup_cons in Hnd as [Hq Hnd].
    apply not_elem_of_cons in Hx as [Hxq Hx].
    assert (q <> q0) by (intros ->; apply Hq, elem_of_app; right; constructor).
    econstructor; [rewrite lookup_store_ne by congruence; eassumption|].
    now apply (IH _ _ _ ox).
Qed.

Lemma JSON_Index_loop_chain h p ls :
  chain h p ls -> forall i, JSON_Index_loop h p i = ls !! i.
Proof.
  induction 1 as [|l o ls Hl Hch IH]; intros [|i]; try reflexivity.
  simpl. rewrite (load_lookup _ _ _ Hl). apply IH.
Qed.

Lemma appended_step h0 a qs h p :
  a < length h0 -> p <> a -> a ∉ qs -> NoDup (qs ++ [p]) -> unlinked h0 p ->
  appended h0 a qs h ->
  fst (JSON_ArrayAdd (Some a) (Some p) h) = EOK /\
  appended h0 a (qs ++ [p]) (snd (JSON_ArrayAdd (Some a) (Some p) h)).
Proof.
  intros Ha Hpa Haq Hnd (o & Ho & Hnext) [Hlen Hty Hn Hfirst Hlast Hch Hother].
  assert (Hpq : p ∉ qs).
  { apply NoDup_app in Hnd as (_ & Hd & _). intros Hin. apply (Hd _ Hin). constructor. }
  assert (Hop : h !! p = Some o) by now rewrite Hother.
  unfold JSON_ArrayAdd. rewrite Hty, Hfirst, Hlast.
  destruct qs as [|q0 qs' _] using rev_ind.
  - cbn [head fst snd]. split; [reflexivity|].
    assert (Hload : load (store (set_pLast (Some p)) a (store (set_pFirst (Some p)) a h)) a
                    = set_pLast (Some p) (set_pFirst (Some p) (load h a))).
    { rewrite load_store_eq by (rewrite store_length; lia).
      now rewrite load_store_eq by lia. }
    constructor; rewrite ?store_length, ?Hload; try assumption; try reflexivity.
    + cbn. econstructor; [rewrite !lookup_store_ne by congruence; eassumption|].
      rewrite Hnext. constructor.
    + intros p' Hp' Hp'a. rewrite !lookup_store_ne by congruence.
      apply Hother; [apply not_elem_of_nil | assumption].
  - rewrite last_snoc.
    assert (Hq0a : q0 <> a) by (intros ->; apply Haq, elem_of_app; right; constructor).
    assert (Hq0p : q0 <> p) by (intros ->; apply Hpq, elem_of_app; right; constructor).
    assert (Hhead : head ((qs' ++ [q0]) ++ [p]) = head (qs' ++ [q0]))
      by now destruct qs'.
    destruct (head (qs' ++ [q0])) as [f|] eqn:Hf; [|destruct qs'; discriminate].
    cbn [fst snd]. split; [reflexivity|].
    assert (Hload : load (store (set_pLast (Some p)) a
                            (store (set_pNext (Some p)) q0 h)) a
                    = set_pLast (Some p) (load h a)).
    { rewrite load_store_eq by (rewrite store_length; lia).
      now rewrite load_store_ne by congruence. }
    constructor; rewrite ?store_length, ?Hload, ?Hhead; try assumption.
    + cbn. now rewrite last_snoc.
    + apply chain_store_ne.
      * apply (chain_snoc _ _ _ _ _ o); try assumption.
        now apply NoDup_app in Hnd as (? & _ & _).
      * intros [Hin|Hin%list_elem_of_singleton]%elem_of_app; [auto | congruence].
    + intros p' Hp' Hp'a.
      assert (p' <> q0)
        by (intros ->; apply Hp'; rewrite !elem_of_app; left; right; constructor).
      rewrite !lookup_store_ne by congruence.
      apply Hother; [|assumption]. intros Hin. apply Hp', elem_of_app. now left.
Qed.

Lemma appended_all h0 a ps : forall qs h,
  a < length h0 -> a ∉ qs ++ ps -> NoDup (qs ++ ps) ->
  (forall p, p ∈ ps -> unlinked h0 p) ->
  appended h0 a qs h ->
  appended h0 a (qs ++ ps) (appends a ps h).
Proof.
  induction ps as [|p ps IH]; intros qs h Ha Haq Hnd Hun Hinv.
  - now rewrite app_nil_r.
  - cbn [appends foldl]. fold (appends a ps).
    replace (qs ++ p :: ps) with ((qs ++ [p]) ++ ps) in *
      by now rewrite <- app_assoc.
    apply IH; try assumption.
    + intros q Hq. apply Hun. now right.
    + apply appended_step; try assumption.
      * intros ->. apply Haq. rewrite !elem_of_app. left. right. constructor.
      * intros Hin. apply Haq. rewrite !elem_of_app. now left; left.
      * now apply NoDup_app in Hnd as (? & _ & _).
      * apply Hun. now left.
Qed.

Lemma appended_fresh h a name :
  h !! a = Some (fresh_array name) -> appended h a [] h.
Proof.
  intros Ha. constructor; rewrite ?(load_lookup _ _ _ Ha);
    try reflexivity; constructor.
Qed.

(** C9. After the distinct, unlinked nodes [ps] are appended to a freshly
    created array, JSON_Index at i returns the i-th appended node for every
    i below their number and NULL at their number (and beyond); JSON_Index
    returns NULL when the array pointer is NULL or the node's kind is not
    JSON_ARRAY. *)
Theorem C9_index_after_append (h : list object) (a : nat)
    (name : option (list ascii)) (ps : list nat) :
  h !! a = Some (fresh_array name) ->
  a ∉ ps -> NoDup ps -> (forall p, p ∈ ps -> unlinked h p) ->
  (forall i p, ps !! i = Some p ->
     JSON_Index (Some a) i (appends a ps h) = Some p) /\
  (forall i, length ps <= i -> JSON_Index (Some a) i (appends a ps h) = None) /\
  (forall i (h' : list object), JSON_Index None i h' = None) /\
  (forall p i (h' : list object),
     type (node (load h' p)) <> JSON_ARRAY -> JSON_Index (Some p) i h' = None).
Proof.
  intros Ha Haps Hnd Hun.
  assert (Hinv : appended h a ps (appends a ps h)).
  { apply (appended_all h a ps [] h); try assumption.
    - now apply lookup_lt_Some in Ha.
    - now apply appended_fresh with name. }
  destruct Hinv as [_ Hty _ Hfirst _ Hch _].
  assert (Hidx : forall i, JSON_Index (Some a) i (appends a ps h) = ps !! i).
  { intros i. unfold JSON_Index. rewrite Hty, Hfirst.
    now apply JSON_Index_loop_chain. }
  repeat split.
  - intros i p Hp. now rewrite Hidx.
  - intros i Hi. rewrite Hidx. now apply lookup_ge_None.
  - intros p i h' Hty'. unfold JSON_Index.
    destruct (type (node (load h' p))); congruence.
Qed.

Lemma chain_last h p ls q :
  chain h p ls -> last ls = Some q -> pNext (node (load h q)) = None.
Proof.
  induction 1 as [|l o ls Hl Hch IH]; [discriminate|].
  destruct ls as [|l' ls'].
  - intros [= <-]. inversion Hch as [Hnx|]. now rewrite (load_lookup _ _ _ Hl).
  - rewrite last_cons_cons. exact IH.
Qed.

(** C3 (the code does not keep the count). After the distinct, unlinked
    nodes [ps] are appended to a freshly created array, the chain from
    pFirst visits the appended nodes, pLast is the node appended last and
    its pNext is NULL, but the member n is 0, however many nodes were
    appended. The same after JSON_ObjectAdd appended a node to a fresh
    object: one node is reachable and n is 0. *)
Theorem C3_count_not_maintained (h : list object) (a : nat)
    (name : option (list ascii)) (ps : list nat) :
  h !! a = Some (fresh_array name) ->
  a ∉ ps -> NoDup ps -> (forall p, p ∈ ps -> unlinked h p) ->
  let h' := appends a ps h in
  chain h' (pFirst (as_JArray (load h' a))) ps /\
  pLast (as_JArray (load h' a)) = last ps /\
  (forall p, last ps = Some p -> pNext (node (load h' p)) = None) /\
  n (as_JArray (load h' a)) = 0 /\
  (let '(o, h) := JSON_Object None [] in
   let '(v, h) := JSON_Num (Some (cstr "k")) 1 h in
   let '(rc, h) := JSON_ObjectAdd o v h in
   rc = EOK /\ chain h (pFirst (as_JArray (load h 0))) [1] /\
   pLast (as_JArray (load h 0)) = Some 1 /\
   pNext (node (load h 1)) = None /\
   n (as_JArray (load h 0)) = 0).
Proof.
  intros Ha Haps Hnd Hun h'.
  assert (Hinv : appended h a ps h').
  { apply (appended_all h a ps [] h); try assumption.
    - now apply lookup_lt_Some in Ha.
    - now apply appended_fresh with name. }
  destruct Hinv as [_ _ Hn Hfirst Hlast Hch _].
  rewrite Hfirst. repeat split; try assumption; try reflexivity.
  - intros p Hp. now apply chain_last with (head ps) ps.
  - repeat (econstructor; [reflexivity|]). constructor.
Qed.

(** ** C7: iterating over an array *)

Section IterateProperties.
Context {St A : Type}.
Implicit Types (fn : nat -> A -> list object * St -> Z * (list object * St)).





End IterateProperties.

(** ** C2: printing, scanning and parsing what was printed *)

(** *** JSON_Print writes the text of the tree *)

Lemma JSON_Print_repr h fuel :
  (forall l t comma, repr h l t -> weight t <= fuel ->
     JSON_Print fuel h (Some l) comma = Some (print_tree t comma)) /\
  (forall p ts comma, repr_chain h p ts -> weight_forest ts <= fuel ->
     JSON_Print_loop fuel h p comma = Some (print_forest ts comma)).
Proof.
  induction fuel as [|fuel [IHt IHf]].
  - split.
    + intros l t comma _ Hw. destruct t; simpl in Hw; lia.
    + intros p ts comma _ Hw. destruct ts; simpl in Hw; lia.
  - split.
    + intros l t comma Hrepr Hw.
      inversion Hrepr as [? ? ? ? ? Hl Hch|? ? ? ? ? Hl Hch|? ? ? ? Hl|? ? ? ? Hl];
        subst; cbn [JSON_Print]; rewrite (load_lookup _ _ _ Hl);
        cbn [node type name rest as_JArray pFirst print_tree tree_name];
        try reflexivity.
      * rewrite (IHf _ _ _ Hch) by (simpl in Hw; lia). reflexivity.
      * rewrite (IHf _ _ _ Hch) by (simpl in Hw; lia). reflexivity.
    + intros p ts comma Hch Hw.
      inversion Hch as [|l t ts' Hrepr Hch']; subst; [reflexivity|].
      cbn [JSON_Print_loop].
      rewrite (IHt _ _ _ Hrepr) by (simpl in Hw; lia).
      rewrite (IHf _ _ _ Hch') by (simpl in Hw; lia). reflexivity.
Qed.

(** *** The scanner on printed text *)

Lemma longest_from rs : forall best k a,
  longest rs best = Some (k, a) -> best = Some (k, a) \/ In (Some k, a) rs.
Proof.
  induction rs as [|[[k'|] a'] rs IH]; intros best k a H; simpl in H.
  - now left.
  - destruct best as [[kb ab]|]; [destruct (kb <? k')|];
      apply IH in H as [H|H];
      try (right; now right); try (now left);
      injection H as <- <-; right; now left.
  - apply IH in H as [H|H]; [now left | right; now right].
Qed.

Lemma option_map_pos (f : nat -> nat) o k :
  (forall x, 1 <= f x) -> option_map f o = Some k -> 1 <= k.
Proof. intros Hf. destruct o; intros [=]. subst. apply Hf. Qed.

Lemma match_lit_pos lit s k : lit <> [] -> match_lit lit s = Some k -> 1 <= k.
Proof.
  unfold match_lit. destruct (starts_with lit s); intros Hl [=]. subst.
  destruct lit; [congruence | simpl; lia].
Qed.

Lemma rules_pos s k a : In (Some k, a) (rules s) -> 1 <= k.
Proof.
  unfold rules. simpl.
  intros H.
  repeat match type of H with
         | _ \/ _ => destruct H as [H|H]
         end;
    try (injection H as H _);
    try (apply match_lit_pos in H; [assumption | discriminate]);
    try contradiction.
  - unfold match_ws in H. destruct (span is_delim s); [discriminate|].
    injection H as <-. lia.
  - unfold match_comment in H. destruct (starts_with _ s); [|discriminate].
    destruct (drop _ (drop 2 s)); [discriminate|]. injection H as <-. lia.
  - unfold match_charstr in H. destruct s as [|c s']; [discriminate|].
    destruct (Ascii.eqb c dquote); [|discriminate].
    apply option_map_pos in H; [assumption | intros; lia].
  - unfold match_id in H. destruct s as [|c s']; [discriminate|].
    destruct (is_letter c); [|discriminate]. injection H as <-. lia.
  - assert (Hu : forall s k, match_unsigned s = Some k -> 1 <= k).
    { intros [|c s'] k'; [discriminate|]. simpl.
      destruct (is_nzdigit c); [intros [= <-]; lia|].
      destruct (is_digit c); [intros [= <-]; lia | discriminate]. }
    unfold match_num in H. destruct s as [|c s']; [discriminate|].
    destruct (Ascii.eqb c "-"%char).
    + apply option_map_pos in H; [assumption | intros; lia].
    + now apply Hu in H.
  - assert (Hu : forall s k, match_unsigned_float s = Some k -> 1 <= k).
    { intros s0 k'. unfold match_unsigned_float.
      destruct (drop _ s0) as [|c s']; [discriminate|].
      destruct (Ascii.eqb c "."%char); [|discriminate].
      destruct (span is_digit s'); [discriminate|]. intros [= <-]. lia. }
    unfold match_floatnum in H. destruct s as [|c s']; [discriminate|].
    destruct (_ || _).
    + apply option_map_pos in H; [assumption | intros; lia].
    + now apply Hu in H.
Qed.

Lemma longest_pos s k a : longest (rules s) None = Some (k, a) -> 1 <= k.
Proof.
  intros [H|H]%longest_from; [discriminate | now apply rules_pos in H].
Qed.

Lemma yylex_fuel f1 : forall f2 input,
  length input <= f1 -> length input <= f2 -> yylex f1 input = yylex f2 input.
Proof.
  induction f1 as [|f1 IH]; intros f2 input H1 H2.
  - destruct input; [now destruct f2 | simpl in H1; lia].
  - destruct input as [|c input']; [now destruct f2|].
    destruct f2 as [|f2]; [simpl in H2; lia|].
    cbn [yylex]. simpl in H1, H2.
    destruct (longest (rules (c :: input')) None) as [[k a]|] eqn:Hl.
    + apply longest_pos in Hl.
      assert (length (drop k (c :: input')) <= length input')
        by (rewrite length_drop; simpl; lia).
      destruct a; [|f_equal]; apply IH; lia.
    + apply IH; lia.
Qed.

Lemma scan_return tok rest t :
  longest (rules (tok ++ rest)) None = Some (length tok, Return t) ->
  scan (tok ++ rest) = (t, tok) :: scan rest.
Proof.
  intros Hl. pose proof (longest_pos _ _ _ Hl) as Hpos.
  unfold scan. destruct (tok ++ rest) as [|c s] eqn:Hs.
  { apply (f_equal length) in Hs. rewrite length_app in Hs. simpl in Hs. lia. }
  cbn [length yylex]. rewrite Hl, <- Hs.
  rewrite take_app_length, drop_app_length. f_equal.
  apply yylex_fuel; [|lia].
  apply (f_equal length) in Hs. rewrite length_app in Hs. simpl in Hs. lia.
Qed.

Lemma scan_skip tok rest :
  longest (rules (tok ++ rest)) None = Some (length tok, Skip) ->
  scan (tok ++ rest) = scan rest.
Proof.
  intros Hl. pose proof (longest_pos _ _ _ Hl) as Hpos.
  unfold scan. destruct (tok ++ rest) as [|c s] eqn:Hs.
  { apply (f_equal length) in Hs. rewrite length_app in Hs. simpl in Hs. lia. }
  cbn [length yylex]. rewrite Hl, <- Hs.
  rewrite drop_app_length.
  apply yylex_fuel; [|lia].
  apply (f_equal length) in Hs. rewrite length_app in Hs. simpl in Hs. lia.
Qed.

Lemma scan_punct c t rest :
  In (c, t) [(","%char, COMMA); (":"%char, COLON); ("["%char, LBRACKET);
             ("]"%char, RBRACKET); ("{"%char, LBRACE); ("}"%char, RBRACE)] ->
  scan (c :: rest) = (t, [c]) :: scan rest.
Proof.
  intros Hin. apply (scan_return [c] rest t). simpl in Hin.
  repeat destruct Hin as [[= <- <-]|Hin]; try reflexivity. contradiction.
Qed.

Lemma span_le p s : span p s <= length s.
Proof. induction s as [|c s IH]; simpl; [|destruct (p c); simpl]; lia. Qed.

Lemma scan_delim c r :
  is_delim c = true -> scan (c :: r) = scan (drop (span is_delim r) r).
Proof.
  intros Hc.
  assert (Hl : longest (rules (c :: r)) None = Some (S (span is_delim r), Skip)).
  { unfold is_delim in Hc. apply orb_true_iff in Hc as [Hc|Hc];
      apply Ascii.eqb_eq in Hc; subst c; reflexivity. }
  pose proof (span_le is_delim r) as Hle.
  replace (c :: r) with ((c :: take (span is_delim r) r) ++ drop (span is_delim r) r)
    at 1 by (simpl; now rewrite take_drop).
  apply scan_skip. cbn [app length]. rewrite take_drop, length_take.
  rewrite Nat.min_l by lia. exact Hl.
Qed.

Lemma scan_space rest : scan (" "%char :: rest) = scan rest.
Proof.
  rewrite scan_delim by reflexivity.
  destruct rest as [|c r]; [reflexivity|]. simpl span.
  destruct (is_delim c) eqn:Hc; [|reflexivity].
  now rewrite scan_delim.
Qed.

Lemma scan_true rest :
  closes rest -> scan (cstr "true" ++ rest) = (TRUE, cstr "true") :: scan rest.
Proof.
  intros Hrest. apply scan_return.
  destruct rest as [|c r]; [reflexivity|].
  destruct Hrest as [->|[->| ->]]; reflexivity.
Qed.

Lemma scan_false rest :
  scan (cstr "false " ++ rest) = (FALSE, cstr "false") :: scan rest.
Proof.
  change (cstr "false " ++ rest) with (cstr "false" ++ " "%char :: rest).
  rewrite scan_return with (t := FALSE) by reflexivity.
  now rewrite scan_space.
Qed.

Lemma match_charstr_tail_plain x rest :
  Forall (fun c => c <> dquote /\ c <> "\"%char) x ->
  match_charstr_tail (x ++ dquote :: rest) = Some (S (length x)).
Proof.
  induction 1 as [|c x [Hq Hb] _ IH]; [reflexivity|]. simpl.
  destruct (Ascii.eqb_spec c dquote); [contradiction|].
  destruct (Ascii.eqb_spec c "\"%char); [contradiction|].
  now rewrite IH.
Qed.

Lemma scan_charstr x rest :
  Forall (fun c => c <> dquote /\ c <> "\"%char) x ->
  scan (([dquote] ++ x ++ [dquote]) ++ rest) =
  (CHARSTR, [dquote] ++ x ++ [dquote]) :: scan rest.
Proof.
  intros Hx. apply scan_return.
  rewrite <- !app_assoc. cbn [app]. unfold rules.
  replace (match_charstr (dquote :: x ++ dquote :: rest))
    with (Some (length (dquote :: x ++ [dquote]))).
  - reflexivity.
  - unfold match_charstr. cbn [Ascii.eqb dquote]. simpl Ascii.eqb.
    rewrite match_charstr_tail_plain by assumption.
    simpl. now rewrite length_app, Nat.add_comm.
Qed.

(** *** Decimal text *)

Lemma digit_char_facts d :
  (0 <= d < 10)%Z ->
  is_digit (digit_char d) = true /\ digit_val (digit_char d) = d /\
  ((0 < d)%Z -> is_nzdigit (digit_char d) = true) /\
  (d = 0%Z -> digit_char d = "0"%char).
Proof.
  intros Hd.
  assert (d = 0 \/ d = 1 \/ d = 2 \/ d = 3 \/ d = 4 \/ d = 5 \/ d = 6 \/
          d = 7 \/ d = 8 \/ d = 9)%Z as Hc by lia.
  repeat destruct Hc as [->|Hc]; try subst d;
    repeat split; intros; try reflexivity; lia.
Qed.

Lemma decimal_digits_S fuel n acc :
  decimal_digits (S fuel) n acc =
  if (n <? 10)%Z then digit_char n :: acc
  else decimal_digits fuel (n / 10) (digit_char (n mod 10) :: acc).
Proof. reflexivity. Qed.

Lemma decimal_digits_spec fuel : forall n acc,
  (0 <= n < 2 ^ Z.of_nat (S fuel))%Z ->
  exists ds, decimal_digits (S fuel) n acc = ds ++ acc /\ digits_of n ds.
Proof.
  induction fuel as [|fuel IH]; intros n acc Hn;
    rewrite decimal_digits_S; destruct (Z.ltb_spec n 10) as [Hlt|Hge].
  1, 3: destruct (digit_char_facts n ltac:(lia)) as (Hd & Hv & Hnz & Hz);
    exists [digit_char n]; split; [reflexivity|]; repeat split;
    [ repeat constructor; exact Hd
    | intros a s; cbn [app digits_val length]; rewrite Hd, Hv; f_equal; lia
    | exists (digit_char n), []; repeat split; [exact Hnz|];
      intros H0; now rewrite (Hz H0) ].
  - change (2 ^ Z.of_nat 1)%Z with 2%Z in Hn. lia.
  - assert (Hq : (0 <= n / 10 < 2 ^ Z.of_nat (S fuel))%Z).
    { rewrite (Nat2Z.inj_succ (S fuel)), Z.pow_succ_r in Hn by lia.
      split; [apply Z.div_pos; lia|].
      apply Z.div_lt_upper_bound; lia. }
    destruct (IH (n / 10)%Z (digit_char (n mod 10) :: acc) Hq)
      as (ds & Heq & Hall & Hval & c & ds' & -> & Hnz & Hz).
    pose proof (Z.mod_pos_bound n 10 ltac:(lia)) as Hm.
    destruct (digit_char_facts (n mod 10) Hm) as (Hd & Hv & _ & _).
    exists ((c :: ds') ++ [digit_char (n mod 10)]). split.
    { rewrite Heq, <- app_assoc. reflexivity. }
    repeat split.
    + apply Forall_app. split; [assumption | repeat constructor; exact Hd].
    + intros a s. rewrite <- app_assoc. cbn [app] in *.
      rewrite (Hval a (digit_char (n mod 10) :: s)).
      cbn [digits_val]. rewrite Hd, Hv. f_equal.
      cbn [length]. rewrite length_app. cbn [length].
      replace (Z.of_nat (S (length ds' + 1)))
        with (Z.succ (Z.of_nat (S (length ds')))) by lia.
      rewrite Z.pow_succ_r by lia.
      pose proof (Z.div_mod n 10 ltac:(lia)). lia.
    + exists c, (ds' ++ [digit_char (n mod 10)]). repeat split.
      * intros _. apply Hnz. apply Z.div_str_pos. lia.
      * intros ->. lia.
Qed.

Lemma printf_d_digits n : (0 <= n)%Z -> digits_of n (printf_d n).
Proof.
  intros Hn. unfold printf_d. destruct (Z.ltb_spec n 0) as [|_]; [lia|].
  destruct (decimal_digits_spec (Z.to_nat (Z.log2 n)) n []) as (ds & Heq & Hds).
  - split; [assumption|]. rewrite Nat2Z.inj_succ, Z2Nat.id by apply Z.log2_nonneg.
    destruct (Z.eq_dec n 0%Z) as [->|Hne]; [reflexivity|].
    apply Z.log2_spec. lia.
  - rewrite Heq, app_nil_r. exact Hds.
Qed.

Lemma is_digit_cases c : is_digit c = true -> In c (cstr "0123456789").
Proof.
  destruct c as [[] [] [] [] [] [] [] []]; intros H; try discriminate H;
    simpl; tauto.
Qed.

Lemma span_digits ds rest :
  Forall (fun c => is_digit c = true) ds -> span is_digit rest = 0 ->
  span is_digit (ds ++ rest) = length ds.
Proof.
  induction 1 as [|c ds Hc _ IH]; intros Hrest; [assumption|].
  simpl. rewrite Hc. f_equal. now apply IH.
Qed.

Lemma closes_cases rest :
  closes rest ->
  rest = [] \/ exists c r, rest = c :: r /\ In c (cstr ",]}").
Proof.
  destruct rest as [|c r]; [now left|]. intros H. right. exists c, r.
  split; [reflexivity|]. destruct H as [->|[->| ->]]; simpl; tauto.
Qed.

Lemma scan_num n rest :
  (0 <= n)%Z -> closes rest ->
  scan (printf_d n ++ rest) = (NUM, printf_d n) :: scan rest.
Proof.
  intros Hn Hrest. apply scan_return.
  destruct (printf_d_digits n Hn) as (Hall & _ & c & ds' & Heq & Hnz & Hz).
  destruct (Z.eq_dec n 0%Z) as [H0|H0].
  - rewrite (Hz H0).
    destruct (closes_cases rest Hrest) as [->|(c' & r & -> & Hc')];
      [reflexivity|].
    simpl in Hc'. repeat destruct Hc' as [<-|Hc']; try reflexivity. contradiction.
  - rewrite Heq in *. specialize (Hnz ltac:(lia)).
    apply Forall_cons in Hall as [Hc Hall].
    assert (Hspan : span is_digit (ds' ++ rest) = length ds').
    { apply span_digits; [assumption|].
      destruct (closes_cases rest Hrest) as [->|(c' & r & -> & Hc')];
        [reflexivity|].
      simpl in Hc'. repeat destruct Hc' as [<-|Hc']; try reflexivity. contradiction. }
    assert (Hnum : match_num (c :: ds' ++ rest) = Some (S (length ds'))).
    { unfold match_num. rewrite (digit_neq c "-"%char) by (assumption || reflexivity).
      cbn [match_unsigned]. now rewrite Hnz, Hspan. }
    assert (Hfloat : match_floatnum (c :: ds' ++ rest) = None).
    { unfold match_floatnum.
      rewrite !(digit_neq c) by (assumption || reflexivity). cbn [orb].
      unfold match_unsigned_float. cbn [span]. rewrite Hc, Hspan. cbn [drop].
      rewrite drop_app_length.
      destruct (closes_cases rest Hrest) as [->|(c' & r & -> & Hc')];
        [reflexivity|].
      simpl in Hc'. repeat destruct Hc' as [<-|Hc']; try reflexivity. contradiction. }
    cbn [app length]. unfold rules. rewrite Hnum, Hfloat.
    apply is_digit_cases in Hc. simpl in Hc.
    repeat destruct Hc as [<-|Hc]; try reflexivity. contradiction.
Qed.

Lemma strtoull_printf_d n :
  (0 <= n <= ULLONG_MAX)%Z ->
  strtoull (printf_d n) = n /\
  Ascii.eqb (nth 0 (printf_d n) NUL) "-"%char = false.
Proof.
  intros Hn.
  destruct (printf_d_digits n ltac:(lia)) as (Hall & Hval & c & ds' & Heq & _).
  split.
  - rewrite strtoull_digits.
    + specialize (Hval 0%Z []). rewrite app_nil_r in Hval. rewrite Hval.
      cbn [digits_val]. lia.
    + unfold all_digits. rewrite Heq at 1. rewrite forallb_forall.
      intros x Hx. rewrite Forall_forall in Hall. apply Hall.
      now apply list_elem_of_In.
  - rewrite Heq in *. apply Forall_cons in Hall as [Hc _].
    cbn [nth]. now apply digit_neq.
Qed.

(** *** Scanning the text of a tree *)

Lemma scan_comma_text comma s :
  scan (comma_text comma ++ s) = comma_tokens comma ++ scan s.
Proof.
  destruct comma; [|reflexivity].
  apply (scan_punct ","%char COMMA). simpl. tauto.
Qed.

Lemma scan_name_text in_object nm s :
  printable_name in_object nm ->
  scan (name_text nm ++ s) = name_tokens nm ++ scan s.
Proof.
  destruct nm as [nm|]; [|reflexivity]. intros [_ Hplain].
  unfold name_text, printf_s, name_tokens.
  replace (([dquote] ++ c_str nm ++ [dquote] ++ cstr " : ") ++ s)
    with (([dquote] ++ c_str nm ++ [dquote]) ++
          " "%char :: ":"%char :: " "%char :: s)
    by (now rewrite <- !app_assoc).
  rewrite scan_charstr by exact Hplain.
  rewrite scan_space, (scan_punct ":"%char COLON) by (simpl; tauto).
  now rewrite scan_space.
Qed.

Lemma closes_forest ts rest :
  closes rest -> closes (print_forest ts true ++ rest).
Proof.
  destruct ts as [|t ts]; [trivial|]. intros _.
  destruct t; simpl; now left.
Qed.

Lemma scan_var nm v s :
  printable_var v -> closes s ->
  scan (json_PrintValue (mkobject (mkJNode JSON_VAR nm None) (Var v)) ++ s) =
  var_tokens v ++ scan s.
Proof.
  unfold printable_var, json_PrintValue, var_tokens.
  cbn [node type rest as_JVar].
  destruct (var_type v); try contradiction; intros Hv Hs.
  - apply scan_num; [lia | assumption].
  - apply scan_num; assumption.
  - destruct Hv as [Hscan _]. apply scan_return. now apply Hscan.
  - unfold printf_s. now apply scan_charstr.
Qed.

Lemma scan_bool nm v s :
  closes s ->
  scan (json_PrintValue (mkobject (mkJNode JSON_BOOL nm None) (Var v)) ++ s) =
  (if (0 <? get_ui (var_val v))%Z then [(TRUE, cstr "true")]
   else [(FALSE, cstr "false")]) ++ scan s.
Proof.
  intros Hs. unfold json_PrintValue. cbn [node type rest as_JVar].
  destruct (0 <? get_ui (var_val v))%Z.
  - now apply scan_true.
  - apply scan_false.
Qed.

Lemma scan_print :
  (forall t in_object comma rest,
     printable in_object t -> closes rest ->
     scan (print_tree t comma ++ rest) =
     comma_tokens comma ++ name_tokens (tree_name t) ++ value_tokens t ++ scan rest) /\
  (forall ts in_object comma rest,
     printable_forest in_object ts -> closes rest ->
     scan (print_forest ts comma ++ rest) = forest_tokens ts comma ++ scan rest).
Proof.
  apply tree_forest_ind.
  - intros nm ts IH in_object comma rest [Hnm [_ Hts]] Hrest.
    cbn [print_tree tree_name value_tokens]. rewrite <- !app_assoc.
    rewrite scan_comma_text, (scan_name_text in_object) by assumption.
    do 2 f_equal. cbn [cstr list_ascii_of_string app].
    rewrite (scan_punct "["%char LBRACKET) by (simpl; tauto).
    rewrite (IH false false) by (assumption || (simpl; tauto)).
    rewrite (scan_punct "]"%char RBRACKET) by (simpl; tauto).
    now rewrite <- ?app_assoc.
  - intros nm ts IH in_object comma rest [Hnm [_ Hts]] Hrest.
    cbn [print_tree tree_name value_tokens]. rewrite <- !app_assoc.
    rewrite scan_comma_text, (scan_name_text in_object) by assumption.
    do 2 f_equal. cbn [cstr list_ascii_of_string app].
    rewrite (scan_punct "{"%char LBRACE) by (simpl; tauto).
    rewrite (IH true false) by (assumption || (simpl; tauto)).
    rewrite (scan_punct "}"%char RBRACE) by (simpl; tauto).
    now rewrite <- ?app_assoc.
  - intros nm v in_object comma rest [Hnm Hv] Hrest.
    cbn [print_tree tree_name value_tokens]. rewrite <- !app_assoc.
    rewrite scan_comma_text, (scan_name_text in_object) by assumption.
    now rewrite scan_var.
  - intros nm v in_object comma rest [Hnm _] Hrest.
    cbn [print_tree tree_name value_tokens]. rewrite <- !app_assoc.
    rewrite scan_comma_text, (scan_name_text in_object) by assumption.
    now rewrite scan_bool.
  - reflexivity.
  - intros t IHt ts IHts in_object comma rest [Ht Hts] Hrest.
    cbn [print_forest forest_tokens]. rewrite <- !app_assoc.
    rewrite (IHt in_object) by (assumption || now apply closes_forest).
    now rewrite (IHts in_object).
Qed.

(** *** Trees the grammar's actions build *)

Lemma built_lo h lo l t : built h lo l t -> lo <= l.
Proof. now destruct 1. Qed.

Lemma built_frame h :
  (forall lo l t, built h lo l t ->
     forall h' : list object, (forall i, lo <= i <= l -> h' !! i = h !! i) ->
     built h' lo l t) /\
  (forall lo hi p ts, built_chain h lo hi p ts ->
     forall h' : list object, (forall i, lo <= i < hi -> h' !! i = h !! i) ->
     built_chain h' lo hi p ts).
Proof.
  apply built_both_ind.
  - intros lo l nm nx c ts Hlo Hl _ IH h' Hagree.
    apply built_array with nx c; [assumption | rewrite Hagree by lia; assumption|].
    apply IH. intros i Hi. apply Hagree. lia.
  - intros lo l nm nx c ts Hlo Hl _ IH h' Hagree.
    apply built_object with nx c; [assumption | rewrite Hagree by lia; assumption|].
    apply IH. intros i Hi. apply Hagree. lia.
  - intros lo l nm nx v Hlo Hl h' Hagree.
    apply built_var with nx; [assumption | rewrite Hagree by lia; assumption].
  - intros lo l nm nx v Hlo Hl h' Hagree.
    apply built_bool with nx; [assumption | rewrite Hagree by lia; assumption].
  - constructor.
  - intros lo hi l t ts Hl Ht IHt _ IHts h' Hagree.
    pose proof (built_lo _ _ _ _ Ht) as Hlo.
    constructor; [assumption | apply IHt; intros; apply Hagree; lia|].
    unfold load in *. rewrite Hagree by lia.
    apply IHts. intros i Hi. apply Hagree. lia.
Qed.

Lemma built_repr h :
  (forall lo l t, built h lo l t -> repr h l t) /\
  (forall lo hi p ts, built_chain h lo hi p ts -> repr_chain h p ts).
Proof.
  apply built_both_ind; intros; econstructor; eassumption.
Qed.

(** Writing the name or the sibling link of a root leaves its tree. *)
Lemma built_store_root h lo l t f :
  (forall o, type (node (f o)) = type (node o) /\ rest (f o) = rest o) ->
  built h lo l t ->
  built (store f l h) lo l (with_name (name (node (f (load h l)))) t).
Proof.
  intros Hf Ht.
  assert (Hch : forall p ts, built_chain h lo l p ts ->
                               built_chain (store f l h) lo l p ts).
  { intros p ts Hc. apply (proj2 (built_frame h) _ _ _ _ Hc).
    intros i Hi. apply lookup_store_ne. lia. }
  assert (Hnew : forall o, h !! l = Some o ->
            store f l h !! l =
            Some (mkobject (mkJNode (type (node o)) (name (node (f o)))
                              (pNext (node (f o)))) (rest o))).
  { intros o Ho. rewrite (lookup_store_eq _ _ _ _ Ho). f_equal.
    destruct (Hf o) as [Hty Hrest]. destruct (f o) as [[ty nm nx] r].
    simpl in *. now subst. }
  inversion Ht as [? ? ? ? ? ? Hlo Hl Hc|? ? ? ? ? ? Hlo Hl Hc|? ? ? ? ? Hlo Hl|? ? ? ? ? Hlo Hl];
    subst; rewrite (load_lookup _ _ _ Hl); cbn [with_name];
    econstructor; try eassumption; try (apply (Hnew _ Hl)); auto.
Qed.

(** *** The productions on the tokens of a printed tree *)

Lemma c_str_no_NUL s : Forall (fun c => c <> NUL) (c_str s).
Proof.
  induction s as [|c s IH]; simpl; [constructor|].
  destruct (Ascii.eqb_spec c NUL); constructor; assumption.
Qed.

Lemma c_str_idem s : c_str (c_str s) = c_str s.
Proof.
  pose proof (c_str_app_no_NUL (c_str s) [] (c_str_no_NUL s)) as H.
  now rewrite !app_nil_r in H.
Qed.

Lemma unescape_plain x :
  Forall (fun c => c <> dquote /\ c <> "\"%char) x -> unescape x = x.
Proof.
  induction 1 as [|c x [_ Hb] _ IH]; [reflexivity|]. simpl.
  destruct (Ascii.eqb_spec c "\"%char); [contradiction | now rewrite IH].
Qed.

Lemma get_charstr_plain s :
  plain s -> get_charstr (Some (dquote :: c_str s ++ [dquote])) = Some (c_str s).
Proof.
  intros Hs. change (dquote :: c_str s ++ [dquote]) with ([dquote] ++ c_str s ++ [dquote]).
  rewrite get_charstr_quoted by apply c_str_no_NUL.
  now rewrite unescape_plain.
Qed.

Lemma JSON_ParseNumber_printf_d n h :
  (0 <= n < 2 ^ 31)%Z ->
  exists var,
    JSON_ParseNumber None (Some (printf_d n)) h =
    (Some (length h), h ++ [mkobject (mkJNode JSON_VAR None None) (Var var)]) /\
    json_PrintValue (mkobject (mkJNode JSON_VAR None None) (Var var)) = printf_d n.
Proof.
  intros Hn. unfold JSON_ParseNumber. rewrite JSON_Var_eq.
  destruct (strtoull_printf_d n) as [Hv Hneg]; [unfold ULLONG_MAX; lia|].
  rewrite Hneg, Hv, store_new. eexists. split; [reflexivity|].
  unfold json_PrintValue. cbn [node type rest as_JVar].
  destruct (Z.ltb_spec n 65535).
  - cbn. unfold to_uint16. now rewrite Z.mod_small by lia.
  - destruct (Z.ltb_spec n 4294967295); [|lia].
    cbn. unfold to_int32, to_uint32. rewrite (Z.mod_small n) by lia.
    rewrite Z.mod_small by lia. f_equal. lia.
Qed.

(** A Var or Bool allocated last by a constructor. *)
Lemma parsed_leaf g t ty v :
  ty = JSON_VAR \/ ty = JSON_BOOL ->
  let t' := match ty with JSON_BOOL => TBool None v | _ => TVar None v end in
  print_value t' = print_value t ->
  parsed g (set_heap (heap g ++ [mkobject (mkJNode ty None None) (Var v)]) g)
    (length (heap g)) t t'.
Proof.
  intros Hty t' Hprint. unfold parsed. cbn [heap set_heap errorFlag].
  repeat split.
  - intros i Hi. now apply lookup_app_l.
  - rewrite length_app. simpl. lia.
  - destruct Hty as [-> | ->]; subst t';
      [apply built_var with None | apply built_bool with None];
      try reflexivity; apply list_lookup_middle; reflexivity.
  - now destruct Hty as [-> | ->].
  - now rewrite load_new.
  - assumption.
Qed.

Lemma print_value_var nm v :
  print_value (TVar nm v) =
  match var_type v with
  | JVARTYPE_UINT16 => printf_d (get_ui (var_val v))
  | JVARTYPE_UINT32 => printf_d (to_int32 (get_ul (var_val v)))
  | JVARTYPE_FLOAT => printf_f (get_f (var_val v))
  | JVARTYPE_STR => [dquote] ++ printf_s (get_str (var_val v)) ++ [dquote]
  | _ => []
  end.
Proof. reflexivity. Qed.

Lemma print_value_bool nm v :
  print_value (TBool nm v) =
  if (0 <? get_ui (var_val v))%Z then cstr "true" else cstr "false ".
Proof. reflexivity. Qed.

Lemma value_leaf t in_object fuel ts g :
  match t with TVar _ _ | TBool _ _ => True | _ => False end ->
  printable in_object t ->
  exists g' t',
    value (S fuel) (value_tokens t ++ ts) g = (Some (Some (length (heap g)), ts), g') /\
    parsed g g' (length (heap g)) t t'.
Proof.
  destruct t as [| |nm v|nm v]; try contradiction; intros _ [_ Hv].
  - unfold printable_var in Hv. cbn [value_tokens]. unfold var_tokens.
    destruct (var_type v) eqn:Hvt; try contradiction; cbn [app value].
    + destruct (JSON_ParseNumber_printf_d (get_ui (var_val v)) (heap g) Hv)
        as (var & -> & Hp).
      do 2 eexists. split; [reflexivity|].
      apply (parsed_leaf g _ JSON_VAR var); [now left|].
      rewrite !print_value_var, Hvt. exact Hp.
    + destruct (JSON_ParseNumber_printf_d (to_int32 (get_ul (var_val v))) (heap g))
        as (var & -> & Hp).
      { split; [assumption|]. unfold to_int32.
        pose proof (Z.mod_pos_bound (get_ul (var_val v) + 2 ^ 31) (2 ^ 32)). lia. }
      do 2 eexists. split; [reflexivity|].
      apply (parsed_leaf g _ JSON_VAR var); [now left|].
      rewrite !print_value_var, Hvt. exact Hp.
    + rewrite JSON_Float_eq.
      do 2 eexists. split; [reflexivity|].
      apply (parsed_leaf g _ JSON_VAR); [now left|].
      rewrite !print_value_var, Hvt. cbn [var_type var_val get_f].
      now destruct Hv as (_ & _ & ->).
    + rewrite get_charstr_plain by assumption. rewrite JSON_Str_eq.
      do 2 eexists. split; [reflexivity|].
      apply (parsed_leaf g _ JSON_VAR); [now left|].
      rewrite !print_value_var, Hvt. cbn [var_type var_val get_str].
      unfold printf_s. now rewrite c_str_idem.
  - cbn [value_tokens].
    destruct (0 <? get_ui (var_val v))%Z eqn:Hb; cbn [app value];
      rewrite JSON_Bool_eq; do 2 eexists; (split; [reflexivity|]);
      apply (parsed_leaf g _ JSON_BOOL); try (now right);
      rewrite !print_value_bool, Hb; reflexivity.
Qed.

Lemma print_tree_value t comma :
  print_tree t comma = comma_text comma ++ name_text (tree_name t) ++ print_value t.
Proof. destruct t; reflexivity. Qed.

Lemma with_name_same t : with_name (tree_name t) t = t.
Proof. now destruct t. Qed.

Lemma tree_name_with_name nm t : tree_name (with_name nm t) = nm.
Proof. now destruct t. Qed.

Lemma print_value_with_name nm t : print_value (with_name nm t) = print_value t.
Proof. now destruct t. Qed.

Lemma built_name h lo l t : built h lo l t -> name (node (load h l)) = tree_name t.
Proof.
  destruct 1 as [? ? ? ? ? ? _ Hl _|? ? ? ? ? ? _ Hl _|? ? ? ? ? _ Hl|? ? ? ? ? _ Hl];
    now rewrite (load_lookup _ _ _ Hl).
Qed.

Lemma built_allocated h lo l t : built h lo l t -> l < length h.
Proof.
  destruct 1 as [? ? ? ? ? ? _ Hl _|? ? ? ? ? ? _ Hl _|? ? ? ? ? _ Hl|? ? ? ? ? _ Hl];
    now apply lookup_lt_Some in Hl.
Qed.

(** An array element: the value as it was parsed. *)
Lemma parsed_child_unnamed g g' l t t' :
  tree_name t = None -> parsed g g' l t t' -> parsed_child g g' l t t'.
Proof.
  intros Hnm (Hflag & Hold & Hlen & Hb & Hnm' & Hnext & Hprint).
  repeat split; try assumption.
  intros comma. now rewrite !print_tree_value, Hnm, Hnm', Hprint.
Qed.

(** An object member: the value with the name of its key stored. *)
Lemma parsed_child_named g g' l t t' nm :
  tree_name t = Some nm -> parsed g g' l t t' ->
  parsed_child g (set_heap (store (set_name (Some (c_str nm))) l (heap g')) g')
    l t (with_name (Some (c_str nm)) t').
Proof.
  intros Hnm (Hflag & Hold & Hlen & Hb & Hnm' & Hnext & Hprint).
  pose proof (built_lo _ _ _ _ Hb) as Hlo.
  unfold parsed_child. cbn [heap set_heap errorFlag].
  repeat split; try assumption.
  - intros i Hi. rewrite lookup_store_ne by lia. now apply Hold.
  - now rewrite store_length.
  - apply (built_store_root _ _ _ _ (set_name (Some (c_str nm)))) in Hb;
      [exact Hb | now intros [[] ?]].
  - rewrite load_store_eq by lia. exact Hnext.
  - intros comma. rewrite !print_tree_value, tree_name_with_name, Hnm.
    rewrite print_value_with_name, Hprint.
    unfold name_text, printf_s. now rewrite c_str_idem.
Qed.

(** The last child of a chain. *)
Lemma parsed_chain_last g g' l t t' :
  parsed_child g g' l t t' ->
  parsed_chain g g' l (Fcons t Fnil) (Fcons t' Fnil).
Proof.
  intros (Hflag & Hold & Hlen & Hb & Hnext & Hprint).
  pose proof (built_lo _ _ _ _ Hb) as Hlo.
  repeat split; try assumption; try lia.
  - constructor; [lia | assumption|]. rewrite Hnext. constructor.
  - intros comma. cbn [print_forest]. now rewrite Hprint.
Qed.

(** A child linked in front of the chain parsed after it. *)
Lemma parsed_chain_link g g1 g3 l1 l3 t t' ts ts' :
  parsed_child g g1 l1 t t' -> parsed_chain g1 g3 l3 ts ts' ->
  parsed_chain g (set_heap (store (set_pNext (Some l3)) l1 (heap g3)) g3)
    l1 (Fcons t ts) (Fcons t' ts').
Proof.
  intros (Hflag & Hold & Hlen & Hb & Hnext & Hprint)
         (Hflag3 & Hold3 & Hlen3 & Hch & Hprint3).
  pose proof (built_lo _ _ _ _ Hb) as Hlo.
  unfold parsed_chain. cbn [heap set_heap errorFlag]. rewrite store_length.
  repeat split; try congruence; try lia.
  - intros i Hi. rewrite lookup_store_ne by lia.
    rewrite Hold3 by lia. now apply Hold.
  - constructor; [lia| |].
    + assert (Hb3 : built (heap g3) (length (heap g)) l1 t').
      { apply (proj1 (built_frame (heap g1)) _ _ _ Hb).
        intros i Hi. apply Hold3. lia. }
      pose proof (built_name _ _ _ _ Hb3) as Hname.
      apply (built_store_root _ _ _ _ (set_pNext (Some l3))) in Hb3;
        [|now intros [[] ?]].
      cbn [set_pNext node name] in Hb3. rewrite Hname, with_name_same in Hb3.
      exact Hb3.
    + rewrite load_store_eq by lia. cbn [set_pNext node pNext].
      rewrite Hlen in Hch.
      apply (proj2 (built_frame (heap g3)) _ _ _ _ Hch).
      intros i Hi. apply lookup_store_ne. lia.
  - intros comma. cbn [print_forest]. now rewrite Hprint, Hprint3.
Qed.

(** One step of each production. *)
Lemma value_json fuel tk x ts g :
  tk = LBRACKET \/ tk = LBRACE ->
  value (S fuel) ((tk, x) :: ts) g = json fuel ((tk, x) :: ts) g.
Proof. now intros [-> | ->]. Qed.

Lemma json_list_eq fuel x ts g :
  json (S fuel) ((LBRACKET, x) :: ts) g =
  match value_list fuel ts g with
  | (Some (v2, (RBRACKET, _) :: ts), g) =>
      let '(pArray, h) := JSON_Array None (heap g) in
      let h := match pArray with
               | Some a => store (set_pFirst v2) a h
               | None => h
               end in
      (Some (pArray, ts), set_root pArray (set_heap h g))
  | (_, g) => (None, g)
  end.
Proof. reflexivity. Qed.

Lemma json_object_eq fuel x ts g :
  json (S fuel) ((LBRACE, x) :: ts) g =
  match attribute_list fuel ts g with
  | (Some (v2, (RBRACE, _) :: ts), g) =>
      let '(pObject, h) := JSON_Object None (heap g) in
      let h := match pObject with
               | Some o => store (set_pFirst v2) o h
               | None => h
               end in
      (Some (pObject, ts), set_root pObject (set_heap h g))
  | (_, g) => (None, g)
  end.
Proof. reflexivity. Qed.

Lemma value_list_eq fuel ts g :
  value_list (S fuel) ts g =
  match value fuel ts g with
  | (Some (v1, (COMMA, _) :: ts), g) =>
      match value_list fuel ts g with
      | (Some (v3, ts), g) =>
          let h := match v1 with
                   | Some l => store (set_pNext v3) l (heap g)
                   | None => heap g
                   end in
          (Some (v1, ts), set_heap h g)
      | (None, g) => (None, g)
      end
  | r => r
  end.
Proof. reflexivity. Qed.

Lemma attribute_list_eq fuel yytext x ts g :
  attribute_list (S fuel) ((CHARSTR, yytext) :: (COLON, x) :: ts) g =
  let attribute :=
    match value fuel ts g with
    | (Some (v3, ts), g) =>
        let h := match v3 with
                 | Some l => store (set_name (get_charstr (Some yytext))) l (heap g)
                 | None => heap g
                 end in
        (Some (v3, ts), set_heap h g)
    | (None, g) => (None, g)
    end in
  match attribute with
  | (Some (v1, (COMMA, _) :: ts), g) =>
      match attribute_list fuel ts g with
      | (Some (v3, ts), g) =>
          let h := match v1 with
                   | Some l => store (set_pNext v3) l (heap g)
                   | None => heap g
                   end in
          (Some (v1, ts), set_heap h g)
      | (None, g) => (None, g)
      end
  | r => r
  end.
Proof. reflexivity. Qed.

(** The container allocated after its chain of children. *)
Lemma parsed_container g g1 l1 ts ts' ty :
  ty = JSON_ARRAY \/ ty = JSON_OBJECT ->
  parsed_chain g g1 l1 ts ts' ->
  let a := length (heap g1) in
  let g' := set_root (Some a)
              (set_heap (heap g1 ++
                 [mkobject (mkJNode ty None None)
                    (Container (mkJArray 0 (Some l1) None))]) g1) in
  let t nm := match ty with JSON_OBJECT => TObject nm | _ => TArray nm end in
  forall nm, parsed g g' a (t nm ts) (t None ts') /\ root g' = Some a.
Proof.
  intros Hty (Hflag & Hold & Hlen & Hch & Hprint) a g' t nm.
  split; [|reflexivity]. unfold parsed. subst g'.
  cbn [heap set_heap set_root errorFlag].
  assert (Hch' : built_chain
            (heap g1 ++ [mkobject (mkJNode ty None None)
                           (Container (mkJArray 0 (Some l1) None))])
            (length (heap g)) a (Some l1) ts').
  { apply (proj2 (built_frame (heap g1)) _ _ _ _ Hch).
    intros i Hi. apply lookup_app_l. lia. }
  repeat split.
  - assumption.
  - intros i Hi. rewrite lookup_app_l by lia. now apply Hold.
  - rewrite length_app. simpl. lia.
  - destruct Hty as [-> | ->]; subst t;
      [eapply built_array | eapply built_object];
      try (apply list_lookup_middle; reflexivity); try exact Hch'; assumption.
  - now destruct Hty as [-> | ->].
  - now rewrite load_new.
  - destruct Hty as [-> | ->]; subst t; unfold print_value;
      cbn [with_name print_tree]; now rewrite Hprint.
Qed.

Lemma forest_tokens_comma ts :
  ts <> Fnil -> forest_tokens ts true = (COMMA, cstr ",") :: forest_tokens ts false.
Proof. destruct ts; [congruence | reflexivity]. Qed.

Lemma json_list_reads nm ts fuel rest g :
  value_list_reads ts -> printable_forest false ts -> weight_forest ts < fuel ->
  exists l g' t',
    json fuel (value_tokens (TArray nm ts) ++ rest) g = (Some (Some l, rest), g') /\
    parsed g g' l (TArray nm ts) t' /\ root g' = Some l.
Proof.
  intros Hvl Hts Hw. destruct fuel as [|fuel]; [lia|].
  cbn [value_tokens]. rewrite <- !app_assoc. cbn [app].
  rewrite json_list_eq.
  destruct (Hvl fuel (cstr "]") rest g Hts ltac:(lia)) as (l1 & g1 & ts' & -> & Hch).
  rewrite JSON_Array_eq, store_new.
  do 3 eexists. split; [reflexivity|].
  apply (parsed_container g g1 l1 ts ts' JSON_ARRAY); [now left | assumption].
Qed.

Lemma json_object_reads nm ts fuel rest g :
  attribute_list_reads ts -> printable_forest true ts -> weight_forest ts < fuel ->
  exists l g' t',
    json fuel (value_tokens (TObject nm ts) ++ rest) g = (Some (Some l, rest), g') /\
    parsed g g' l (TObject nm ts) t' /\ root g' = Some l.
Proof.
  intros Hal Hts Hw. destruct fuel as [|fuel]; [lia|].
  cbn [value_tokens]. rewrite <- !app_assoc. cbn [app].
  rewrite json_object_eq.
  destruct (Hal fuel (cstr "}") rest g Hts ltac:(lia)) as (l1 & g1 & ts' & -> & Hch).
  rewrite JSON_Object_eq, store_new.
  do 3 eexists. split; [reflexivity|].
  apply (parsed_container g g1 l1 ts ts' JSON_OBJECT); [now right | assumption].
Qed.

Lemma printable_name_of in_object t :
  printable in_object t -> printable_name in_object (tree_name t).
Proof. destruct t; now intros [H _]. Qed.

Lemma productions_read :
  (forall t, value_reads t) /\
  (forall ts, ts <> Fnil -> value_list_reads ts /\ attribute_list_reads ts).
Proof.
  apply tree_forest_ind; unfold value_reads.
  - intros nm ts IH in_object fuel rest g [_ [Hne Hts]] Hw.
    destruct fuel as [|fuel]; [simpl in Hw; lia|].
    cbn [value_tokens app]. rewrite value_json by now left.
    destruct (json_list_reads nm ts fuel rest g) as (l & g' & t' & Hj & Hp & _);
      [now apply IH | assumption | simpl in Hw; lia|].
    exists l, g', t'. split; assumption.
  - intros nm ts IH in_object fuel rest g [_ [Hne Hts]] Hw.
    destruct fuel as [|fuel]; [simpl in Hw; lia|].
    cbn [value_tokens app]. rewrite value_json by now right.
    destruct (json_object_reads nm ts fuel rest g) as (l & g' & t' & Hj & Hp & _);
      [now apply IH | assumption | simpl in Hw; lia|].
    exists l, g', t'. split; assumption.
  - intros nm v in_object fuel rest g Hp Hw.
    destruct fuel as [|fuel]; [simpl in Hw; lia|].
    destruct (value_leaf (TVar nm v) in_object fuel rest g I Hp) as (g' & t' & H).
    eauto.
  - intros nm v in_object fuel rest g Hp Hw.
    destruct fuel as [|fuel]; [simpl in Hw; lia|].
    destruct (value_leaf (TBool nm v) in_object fuel rest g I Hp) as (g' & t' & H).
    eauto.
  - congruence.
  - intros t IHt ts IHts _. split.
    + intros fuel x rest g [Ht Hts] Hw.
      destruct fuel as [|fuel]; [simpl in Hw; lia|].
      cbn [weight_forest] in Hw.
      assert (Hnm : tree_name t = None).
      { apply printable_name_of in Ht.
        destruct (tree_name t); [destruct Ht; discriminate | reflexivity]. }
      cbn [forest_tokens comma_tokens]. rewrite Hnm. cbn [name_tokens app].
      rewrite value_list_eq. rewrite <- app_assoc.
      destruct ts as [|t2 ts2].
      * cbn [forest_tokens app].
        destruct (IHt false fuel ((RBRACKET, x) :: rest) g Ht ltac:(lia))
          as (l & g1 & t' & -> & Hp).
        do 3 eexists. split; [reflexivity|].
        apply parsed_chain_last, parsed_child_unnamed; eassumption.
      * rewrite forest_tokens_comma by discriminate. cbn [app].
        destruct (IHt false fuel
                    ((COMMA, cstr ",") ::
                     forest_tokens (Fcons t2 ts2) false ++ (RBRACKET, x) :: rest)
                    g Ht ltac:(lia)) as (l1 & g1 & t' & -> & Hp).
        destruct (IHts ltac:(discriminate)) as [Hvl _].
        destruct (Hvl fuel x rest g1 Hts ltac:(lia)) as (l3 & g3 & ts' & -> & Hch).
        do 3 eexists. split; [reflexivity|].
        eapply parsed_chain_link; [|exact Hch].
        apply parsed_child_unnamed; eassumption.
    + intros fuel x rest g [Ht Hts] Hw.
      destruct fuel as [|fuel]; [simpl in Hw; lia|].
      cbn [weight_forest] in Hw.
      assert (Hnm : exists nm, tree_name t = Some nm /\ plain nm).
      { pose proof (printable_name_of _ _ Ht) as Hnm.
        destruct (tree_name t) as [nm|]; [exists nm; now destruct Hnm | discriminate]. }
      destruct Hnm as (nm & Hnm & Hplain).
      cbn [forest_tokens comma_tokens]. rewrite Hnm. cbn [name_tokens app].
      rewrite attribute_list_eq. rewrite <- app_assoc.
      rewrite get_charstr_plain by assumption.
      destruct ts as [|t2 ts2].
      * cbn [forest_tokens app].
        destruct (IHt true fuel ((RBRACE, x) :: rest) g Ht ltac:(lia))
          as (l & g1 & t' & -> & Hp).
        do 3 eexists. split; [reflexivity|].
        apply parsed_chain_last, parsed_child_named; eassumption.
      * rewrite forest_tokens_comma by discriminate. cbn [app].
        destruct (IHt true fuel
                    ((COMMA, cstr ",") ::
                     forest_tokens (Fcons t2 ts2) false ++ (RBRACE, x) :: rest)
                    g Ht ltac:(lia)) as (l1 & g1 & t' & -> & Hp).
        cbn zeta iota beta.
        destruct (IHts ltac:(discriminate)) as [_ Hal].
        pose proof (parsed_child_named _ _ _ _ _ _ Hnm Hp) as Hc.
        destruct (Hal fuel x rest
                    (set_heap (store (set_name (Some (c_str nm))) l1 (heap g1)) g1)
                    Hts ltac:(lia)) as (l3 & g3 & ts' & -> & Hch).
        do 3 eexists. split; [reflexivity|].
        eapply parsed_chain_link; [exact Hc | exact Hch].
Qed.

(** *** The printed text is a C string, and the fuel of yyparse is enough *)

Lemma cstr_no_NUL (lit : list ascii) :
  forallb (fun c => negb (Ascii.eqb c NUL)) lit = true ->
  Forall (fun c => c <> NUL) lit.
Proof.
  rewrite forallb_forall, Forall_forall. intros H c Hc%list_elem_of_In.
  specialize (H c Hc). now destruct (Ascii.eqb_spec c NUL).
Qed.

Lemma printf_d_no_NUL n : (0 <= n)%Z -> Forall (fun c => c <> NUL) (printf_d n).
Proof.
  intros Hn. destruct (printf_d_digits n Hn) as (Hall & _).
  eapply Forall_impl; [exact Hall|]. now intros c Hc ->.
Qed.

Lemma print_no_NUL :
  (forall t in_object comma, printable in_object t ->
     Forall (fun c => c <> NUL) (print_tree t comma)) /\
  (forall ts in_object comma, printable_forest in_object ts ->
     Forall (fun c => c <> NUL) (print_forest ts comma)).
Proof.
  assert (Hcomma : forall comma, Forall (fun c => c <> NUL) (comma_text comma))
    by (intros []; now apply cstr_no_NUL).
  assert (Hname : forall nm, Forall (fun c => c <> NUL) (name_text nm)).
  { intros [nm|]; [|constructor]. unfold name_text, printf_s.
    repeat apply Forall_app_2; try (now apply cstr_no_NUL). apply c_str_no_NUL. }
  apply tree_forest_ind.
  - intros nm ts IH in_object comma [_ [_ Hts]]. cbn [print_tree].
    repeat apply Forall_app_2; auto; try (now apply cstr_no_NUL). now apply (IH false).
  - intros nm ts IH in_object comma [_ [_ Hts]]. cbn [print_tree].
    repeat apply Forall_app_2; auto; try (now apply cstr_no_NUL). now apply (IH true).
  - intros nm v in_object comma [_ Hv]. rewrite print_tree_value, print_value_var.
    repeat apply Forall_app_2; auto. unfold printable_var in Hv.
    destruct (var_type v); try contradiction.
    + apply printf_d_no_NUL. lia.
    + now apply printf_d_no_NUL.
    + now destruct Hv as (_ & Hv & _).
    + repeat apply Forall_app_2; try (now apply cstr_no_NUL). apply c_str_no_NUL.
  - intros nm v in_object comma _. rewrite print_tree_value, print_value_bool.
    repeat apply Forall_app_2; auto.
    destruct (0 <? _)%Z; now apply cstr_no_NUL.
  - constructor.
  - intros t IHt ts IHts in_object comma [Ht Hts]. cbn [print_forest].
    apply Forall_app_2; eauto.
Qed.

(** ** The depth of the productions' recursion *)

(** A production that succeeds reads at least one token. *)
Lemma productions_consume fuel :
  (forall ts g v ts' g',
     json fuel ts g = (Some (v, ts'), g') -> length ts' < length ts) /\
  (forall ts g v ts' g',
     value fuel ts g = (Some (v, ts'), g') -> length ts' < length ts) /\
  (forall ts g v ts' g',
     value_list fuel ts g = (Some (v, ts'), g') -> length ts' < length ts) /\
  (forall ts g v ts' g',
     attribute_list fuel ts g = (Some (v, ts'), g') -> length ts' < length ts).
Proof.
  induction fuel as [|fuel (IHj & IHv & IHvl & IHal)];
    [repeat split; intros; discriminate|].
  repeat split; intros ts g v ts' g'.
  - cbn [json]. destruct ts as [|[[] y] ts0]; try discriminate.
    + destruct (attribute_list fuel ts0 g) as [[[v2 [|[[] y2] ts2]]|] g2] eqn:E;
        try discriminate.
      destruct (JSON_Object None (heap g2)). intros H; inversion H; subst.
      apply IHal in E. cbn [length] in *. lia.
    + destruct (value_list fuel ts0 g) as [[[v2 [|[[] y2] ts2]]|] g2] eqn:E;
        try discriminate.
      destruct (JSON_Array None (heap g2)). intros H; inversion H; subst.
      apply IHvl in E. cbn [length] in *. lia.
  - cbn [value].
    destruct ts as [|[[] y] ts0];
      try (intros E; apply IHj in E; exact E);
      match goal with
      | |- context [let '(_, _) := ?c in _] => destruct c
      end; intros H; inversion H; subst; cbn [length]; lia.
  - cbn [value_list].
    destruct (value fuel ts g) as [[[v1 ts1]|] g1] eqn:E; [|discriminate].
    apply IHv in E.
    destruct ts1 as [|[[] y1] ts2];
      try (intros H; inversion H; subst; cbn [length] in *; lia).
    destruct (value_list fuel ts2 g1) as [[[v3 ts3]|] g3] eqn:E3; [|discriminate].
    apply IHvl in E3. intros H; inversion H; subst. cbn [length] in *. lia.
  - cbn [attribute_list].
    destruct ts as [|[[] y] [|[[] y0] ts0]]; try discriminate.
    destruct (value fuel ts0 g) as [[[v1 ts1]|] g1] eqn:E; [|discriminate].
    apply IHv in E.
    destruct ts1 as [|[[] y1] ts2];
      try (intros H; inversion H; subst; cbn [length] in *; lia).
    destruct (attribute_list fuel ts2 _) as [[[v3 ts3]|] g3] eqn:E3; [|discriminate].
    apply IHal in E3. intros H; inversion H; subst. cbn [length] in *. lia.
Qed.

(** With three calls per token (and one, two, three and one more for json,
    value, value_list and attribute_list) the recursion never runs out:
    more fuel gives the same result. *)
Lemma productions_fuel f1 :
  (forall f2 ts g, 3 * length ts + 1 <= f1 -> 3 * length ts + 1 <= f2 ->
     json f1 ts g = json f2 ts g) /\
  (forall f2 ts g, 3 * length ts + 2 <= f1 -> 3 * length ts + 2 <= f2 ->
     value f1 ts g = value f2 ts g) /\
  (forall f2 ts g, 3 * length ts + 3 <= f1 -> 3 * length ts + 3 <= f2 ->
     value_list f1 ts g = value_list f2 ts g) /\
  (forall f2 ts g, 3 * length ts + 1 <= f1 -> 3 * length ts + 1 <= f2 ->
     attribute_list f1 ts g = attribute_list f2 ts g).
Proof.
  induction f1 as [|f1 (IHj & IHv & IHvl & IHal)];
    [repeat split; intros; lia|].
  repeat split; (intros [|f2] ts g H1 H2; [lia|]).
  - cbn [json]. destruct ts as [|[[] y] ts0]; try reflexivity; cbn [length] in *.
    + now rewrite (IHal f2 ts0 g) by lia.
    + now rewrite (IHvl f2 ts0 g) by lia.
  - cbn [value]. destruct ts as [|[[] y] ts0]; try reflexivity;
      apply IHj; lia.
  - cbn [value_list]. rewrite (IHv f2 ts g) by lia.
    destruct (value f2 ts g) as [[[v1 ts1]|] g1] eqn:E; [|reflexivity].
    apply (proj1 (proj2 (productions_consume f2))) in E.
    destruct ts1 as [|[[] y1] ts2]; try reflexivity.
    cbn [length] in E. now rewrite (IHvl f2 ts2 g1) by lia.
  - cbn [attribute_list].
    destruct ts as [|[[] y] [|[[] y0] ts0]]; try reflexivity.
    cbn [length] in *. rewrite (IHv f2 ts0 g) by lia.
    destruct (value f2 ts0 g) as [[[v1 ts1]|] g1] eqn:E; [|reflexivity].
    apply (proj1 (proj2 (productions_consume f2))) in E.
    destruct ts1 as [|[[] y1] ts2]; try reflexivity.
    cbn [length] in E. now rewrite (IHal f2 ts2 _) by lia.
Qed.

(** yyparse does not depend on its bound: it is json with any larger
    fuel. *)
Lemma yyparse_fuel ts g fuel :
  3 * length ts + 3 <= fuel ->
  yyparse ts g =
  match json fuel ts g with
  | (Some (_, []), g) => (0%Z, g)
  | (_, g) => (1%Z, yyerror g)
  end.
Proof.
  intros Hf. unfold yyparse.
  now rewrite (proj1 (productions_fuel (3 * length ts + 3)) fuel ts g) by lia.
Qed.

Lemma weight_tokens :
  (forall t in_object, printable in_object t ->
     weight t + 2 <= 3 * length (value_tokens t)) /\
  (forall ts in_object comma, printable_forest in_object ts ->
     weight_forest ts <= 3 * length (forest_tokens ts comma) + 1).
Proof.
  apply tree_forest_ind.
  - intros nm ts IH in_object [_ [_ Hts]]. cbn [weight value_tokens].
    rewrite !length_app. cbn [length].
    specialize (IH false false Hts). lia.
  - intros nm ts IH in_object [_ [_ Hts]]. cbn [weight value_tokens].
    rewrite !length_app. cbn [length].
    specialize (IH true false Hts). lia.
  - intros nm v in_object [_ Hv]. cbn [weight value_tokens].
    unfold printable_var in Hv. unfold var_tokens.
    destruct (var_type v); try contradiction; simpl; lia.
  - intros nm v in_object _. cbn [weight value_tokens].
    destruct (0 <? _)%Z; simpl; lia.
  - intros; simpl; lia.
  - intros t IHt ts IHts in_object comma [Ht Hts].
    cbn [weight_forest forest_tokens]. rewrite !length_app.
    specialize (IHt in_object Ht). specialize (IHts in_object true Hts). lia.
Qed.

(** *** Trees the tree algebra builds *)

Lemma laid_bounds h :
  (forall lo hi t, laid h lo hi t -> lo < hi) /\
  (forall lo hi p ts lst, laid_chain h lo hi p ts lst ->
     lo <= hi /\ (forall q, lst = Some q -> lo <= q < hi)).
Proof.
  apply laid_both_ind; intros; try lia.
  - split; [lia|]. discriminate.
  - destruct H0 as [Hle Hq]. split; [lia|].
    intros q [= <-]. destruct lst as [q'|]; simpl; [|lia].
    specialize (Hq q' eq_refl). lia.
Qed.

Lemma laid_frame h :
  (forall lo hi t, laid h lo hi t ->
     forall h' : list object, (forall i, lo <= i < hi -> h' !! i = h !! i) ->
     laid h' lo hi t) /\
  (forall lo hi p ts lst, laid_chain h lo hi p ts lst ->
     forall h' : list object, (forall i, lo <= i < hi -> h' !! i = h !! i) ->
     laid_chain h' lo hi p ts lst).
Proof.
  apply laid_both_ind.
  - intros lo hi nm nx c ts lst Hl Hc IH h' Hagree.
    pose proof (proj1 (proj2 (laid_bounds h) _ _ _ _ _ Hc)) as Hb.
    apply laid_array with nx c lst; [rewrite Hagree by lia; assumption|].
    apply IH. intros i Hi. apply Hagree. lia.
  - intros lo hi nm nx c ts lst Hl Hc IH h' Hagree.
    pose proof (proj1 (proj2 (laid_bounds h) _ _ _ _ _ Hc)) as Hb.
    apply laid_object with nx c lst; [rewrite Hagree by lia; assumption|].
    apply IH. intros i Hi. apply Hagree. lia.
  - intros lo nm nx v Hl h' Hagree.
    apply laid_var with nx. rewrite Hagree by lia. assumption.
  - intros lo nm nx v Hl h' Hagree.
    apply laid_bool with nx. rewrite Hagree by lia. assumption.
  - constructor.
  - intros lo mid hi t ts lst Ht IHt Hc IHc h' Hagree.
    pose proof (proj1 (laid_bounds h) _ _ _ Ht) as Hb.
    pose proof (proj1 (proj2 (laid_bounds h) _ _ _ _ _ Hc)) as Hb'.
    apply laid_cons with mid; [apply IHt; intros; apply Hagree; lia|].
    unfold load in *. rewrite Hagree by lia.
    apply IHc. intros i Hi. apply Hagree. lia.
Qed.

Lemma laid_repr h :
  (forall lo hi t, laid h lo hi t -> repr h lo t) /\
  (forall lo hi p ts lst, laid_chain h lo hi p ts lst -> repr_chain h p ts).
Proof.
  apply laid_both_ind; intros; econstructor; eassumption.
Qed.


Lemma forest_app_nil ts : forest_app ts Fnil = ts.
Proof. induction ts as [|t ts IH]; simpl; congruence. Qed.

Lemma forest_app_assoc ts us vs :
  forest_app (forest_app ts us) vs = forest_app ts (forest_app us vs).
Proof. induction ts as [|t ts IH]; simpl; congruence. Qed.

(** Writing the sibling link of a root leaves its tree. *)
Lemma laid_store_root h lo hi t p :
  laid h lo hi t -> laid (store (set_pNext p) lo h) lo hi t.
Proof.
  intros Ht.
  assert (Hch : forall q ts lst, laid_chain h (S lo) hi q ts lst ->
                  laid_chain (store (set_pNext p) lo h) (S lo) hi q ts lst).
  { intros q ts lst Hc. apply (proj2 (laid_frame h) _ _ _ _ _ Hc).
    intros i Hi. apply lookup_store_ne. lia. }
  inversion Ht as [? ? ? ? ? ? ? Hl Hc|? ? ? ? ? ? ? Hl Hc|? ? ? ? Hl|? ? ? ? Hl];
    subst; econstructor;
    try (rewrite (lookup_store_eq _ _ _ _ Hl); reflexivity); eauto.
Qed.

Lemma laid_root h lo hi t : laid h lo hi t -> exists o, h !! lo = Some o.
Proof. destruct 1; eauto. Qed.

Lemma laid_cons_eq h lo mid hi t ts lst l :
  laid h lo mid t ->
  laid_chain h mid hi (pNext (node (load h lo))) ts lst ->
  l = Some (default lo lst) ->
  laid_chain h lo hi (Some lo) (Fcons t ts) l.
Proof. intros Ht Hc ->. now apply laid_cons with mid. Qed.

(** Linking a tree laid out next after the last root of a chain. *)
Lemma laid_chain_snoc h lo mid p ts lst :
  laid_chain h lo mid p ts lst ->
  forall q hi t (h' : list object),
    lst = Some q ->
    (forall i, lo <= i < mid -> h' !! i = store (set_pNext (Some mid)) q h !! i) ->
    laid h' mid hi t -> pNext (node (load h' mid)) = None ->
    laid_chain h' lo hi p (forest_app ts (Fcons t Fnil)) (Some mid).
Proof.
  induction 1 as [|lo mid0 mid t0 ts0 lst0 Ht0 Hc IH];
    intros q hi t h' Hq Hagree Ht Hnext; [discriminate|].
  pose proof (proj1 (laid_bounds h) _ _ _ Ht0) as Hb0.
  pose proof (proj2 (laid_bounds h) _ _ _ _ _ Hc) as [Hb1 Hb2].
  injection Hq as <-. cbn [forest_app].
  destruct lst0 as [q0|].
  - specialize (Hb2 q0 eq_refl). change (default lo (Some q0)) with q0 in Hagree.
    apply laid_cons_eq with mid0 (Some mid); [| |reflexivity].
    + apply (proj1 (laid_frame h) _ _ _ Ht0). intros i Hi.
      rewrite Hagree by lia. apply lookup_store_ne. lia.
    + replace (pNext (node (load h' lo))) with (pNext (node (load h lo))).
      * apply (IH q0); try assumption; try reflexivity.
        intros i Hi. apply Hagree. lia.
      * unfold load. rewrite Hagree by lia.
        now rewrite lookup_store_ne by lia.
  - change (default lo None) with lo in Hagree.
    inversion Hc as [? Hnx|]; subst.
    destruct (laid_root _ _ _ _ Ht0) as [o Ho].
    apply laid_cons_eq with mid (Some mid); [| |reflexivity].
    + apply (proj1 (laid_frame _) _ _ _ (laid_store_root h lo mid t0 (Some mid) Ht0)).
      intros i Hi. now apply Hagree.
    + replace (pNext (node (load h' lo))) with (Some mid).
      * apply laid_cons_eq with hi None; [assumption | | reflexivity].
        rewrite Hnext. constructor.
      * unfold load. rewrite Hagree by lia.
        now rewrite (lookup_store_eq _ _ _ _ Ho).
Qed.

Lemma appender_eq ty add a v (h : list object) :
  appender ty add -> type (node (load h a)) = ty ->
  snd (add (Some a) (Some v) h) =
  match pFirst (as_JArray (load h a)) with
  | None => store (set_pLast (Some v)) a (store (set_pFirst (Some v)) a h)
  | Some _ =>
      match pLast (as_JArray (load h a)) with
      | Some last => store (set_pLast (Some v)) a (store (set_pNext (Some v)) last h)
      | None => h
      end
  end.
Proof.
  intros [[-> ->]|[-> ->]] Hty; unfold JSON_ArrayAdd, JSON_ObjectAdd;
    rewrite Hty;
    destruct (pFirst (as_JArray (load h a)));
    [destruct (pLast (as_JArray (load h a)))| |
     destruct (pLast (as_JArray (load h a)))|]; reflexivity.
Qed.

Lemma JSON_ParseNumber_parsed_var nm numstr h :
  JSON_ParseNumber nm (Some numstr) h =
  (Some (length h),
   h ++ [mkobject (mkJNode JSON_VAR nm None) (Var (parsed_var numstr))]).
Proof.
  unfold parsed_var, JSON_ParseNumber. rewrite !JSON_Var_eq, !store_new.
  cbn [snd app length]. reflexivity.
Qed.


Lemma laid_chain_cases h lo hi p ts lst :
  laid_chain h lo hi p ts lst ->
  (p = None /\ ts = Fnil /\ lst = None /\ lo = hi) \/
  (exists q, p = Some lo /\ lst = Some q /\ lo <= q < hi).
Proof.
  intros Hc. pose proof (proj2 (proj2 (laid_bounds h) _ _ _ _ _ Hc)) as Hb.
  destruct Hc; [left; auto | right]. eauto.
Qed.

Lemma construct_leaf (h : list object) ty nm v r :
  r = (Some (length h), h ++ [mkobject (mkJNode ty nm None) (Var v)]) ->
  forall t, laid (snd r) (length h) (S (length h)) t ->
  fst r = Some (length h) /\
  laid (snd r) (length h) (length (snd r)) t /\
  (forall i, i < length h -> snd r !! i = h !! i) /\
  pNext (node (load (snd r) (length h))) = None.
Proof.
  intros -> t Ht. cbn [fst snd] in *. rewrite length_app, Nat.add_1_r.
  repeat split; try assumption.
  - intros i Hi. now apply lookup_app_l.
  - now rewrite load_new.
Qed.

Lemma construct_laid :
  (forall t (h : list object),
     fst (construct t h) = Some (length h) /\
     laid (snd (construct t h)) (length h) (length (snd (construct t h)))
       (tree_of t) /\
     (forall i, i < length h -> snd (construct t h) !! i = h !! i) /\
     pNext (node (load (snd (construct t h)) (length h))) = None) /\
  (forall ms ty add a nd c ts0 (h : list object),
     appender ty add ->
     h !! a = Some (mkobject nd (Container c)) -> type nd = ty ->
     laid_chain h (S a) (length h) (pFirst c) ts0 (pLast c) ->
     exists c',
       construct_members add (Some a) ms h !! a =
         Some (mkobject nd (Container c')) /\
       laid_chain (construct_members add (Some a) ms h) (S a)
         (length (construct_members add (Some a) ms h)) (pFirst c')
         (forest_app ts0 (forest_of ms)) (pLast c') /\
       (forall i, i < a -> construct_members add (Some a) ms h !! i = h !! i)).
Proof.
  apply term_terms_ind.
  - (* MkArray *)
    intros nm ms IH h. cbn [construct]. rewrite JSON_Array_eq.
    destruct (IH JSON_ARRAY JSON_ArrayAdd (length h) (mkJNode JSON_ARRAY nm None)
                (mkJArray 0 None None) Fnil
                (h ++ [mkobject (mkJNode JSON_ARRAY nm None)
                         (Container (mkJArray 0 None None))]))
      as (c' & Ha & Hc & Hold).
    + left. now split.
    + now apply list_lookup_middle.
    + reflexivity.
    + rewrite length_app, Nat.add_1_r. constructor.
    + cbn [fst snd forest_app] in *. repeat split.
      * now apply laid_array with None c' (pLast c').
      * intros i Hi. rewrite Hold by assumption. now apply lookup_app_l.
      * now rewrite (load_lookup _ _ _ Ha).
  - (* MkObject *)
    intros nm ms IH h. cbn [construct]. rewrite JSON_Object_eq.
    destruct (IH JSON_OBJECT JSON_ObjectAdd (length h) (mkJNode JSON_OBJECT nm None)
                (mkJArray 0 None None) Fnil
                (h ++ [mkobject (mkJNode JSON_OBJECT nm None)
                         (Container (mkJArray 0 None None))]))
      as (c' & Ha & Hc & Hold).
    + right. now split.
    + now apply list_lookup_middle.
    + reflexivity.
    + rewrite length_app, Nat.add_1_r. constructor.
    + cbn [fst snd forest_app] in *. repeat split.
      * now apply laid_object with None c' (pLast c').
      * intros i Hi. rewrite Hold by assumption. now apply lookup_app_l.
      * now rewrite (load_lookup _ _ _ Ha).
  - intros nm num h. cbn [construct tree_of].
    eapply construct_leaf; [apply JSON_Num_eq|].
    rewrite JSON_Num_eq. eapply laid_var. now apply list_lookup_middle.
  - intros nm numstr h. cbn [construct tree_of].
    eapply construct_leaf; [apply JSON_ParseNumber_parsed_var|].
    rewrite JSON_ParseNumber_parsed_var. eapply laid_var.
    now apply list_lookup_middle.
  - intros nm num h. cbn [construct tree_of].
    eapply construct_leaf; [apply JSON_Float_eq|].
    rewrite JSON_Float_eq. eapply laid_var. now apply list_lookup_middle.
  - intros nm num h. cbn [construct tree_of].
    eapply construct_leaf; [apply JSON_Bool_eq|].
    rewrite JSON_Bool_eq. eapply laid_bool. now apply list_lookup_middle.
  - intros nm str h. cbn [construct tree_of].
    eapply construct_leaf; [apply JSON_Str_eq|].
    rewrite JSON_Str_eq. eapply laid_var. now apply list_lookup_middle.
  - (* Mnil *)
    intros ty add a nd c ts0 h _ Ha _ Hc. exists c.
    cbn [construct_members forest_of]. rewrite forest_app_nil. auto.
  - (* Mcons *)
    intros m IHm ms IHms ty add a nd c ts0 h Hadd Ha Hty Hc.
    cbn [construct_members forest_of].
    destruct (IHm h) as (Hv & Hm & Hold & Hnext).
    destruct (construct m h) as [v h1]. cbn [fst snd] in *. subst v.
    assert (Hlt : a < length h) by now apply lookup_lt_Some in Ha.
    assert (Ha1 : h1 !! a = Some (mkobject nd (Container c)))
      by now rewrite Hold.
    pose proof (proj1 (laid_bounds _) _ _ _ Hm) as Hlen.
    assert (Hc1 : laid_chain h1 (S a) (length h) (pFirst c) ts0 (pLast c)).
    { apply (proj2 (laid_frame h) _ _ _ _ _ Hc). intros i Hi. apply Hold. lia. }
    pose proof (appender_eq ty add a (length h) h1 Hadd) as Hadd1.
    rewrite (load_lookup _ _ _ Ha1) in Hadd1. specialize (Hadd1 Hty).
    cbn [as_JArray rest] in Hadd1.
    destruct (add (Some a) (Some (length h)) h1) as [rc h2].
    cbn [snd] in Hadd1.
    destruct (laid_chain_cases _ _ _ _ _ _ Hc1)
      as [(Hp & Hts & Hl & Hlo)|(q & Hp & Hl & Hq)].
    + (* the first member *)
      rewrite Hp in Hadd1. subst ts0.
      set (c2 := mkJArray (n c) (Some (length h)) (Some (length h))).
      assert (Ha2 : h2 !! a = Some (mkobject nd (Container c2))).
      { subst h2. erewrite lookup_store_eq;
          [|erewrite lookup_store_eq; [reflexivity | eassumption]].
        reflexivity. }
      assert (Hother : forall i, i <> a -> h2 !! i = h1 !! i).
      { intros i Hi. subst h2. now rewrite !lookup_store_ne by congruence. }
      assert (Hlen2 : length h2 = length h1)
        by (subst h2; now rewrite !store_length).
      destruct (IHms ty add a nd c2 (Fcons (tree_of m) Fnil) h2 Hadd Ha2 Hty)
        as (c' & Ha' & Hc' & Hold').
      * cbn [pFirst pLast c2]. rewrite <- Hlo, Hlen2.
        apply laid_cons_eq with (length h1) None; [| |reflexivity].
        -- rewrite Hlo. apply (proj1 (laid_frame h1) _ _ _ Hm). intros i Hi.
           apply Hother. lia.
        -- unfold load. rewrite Hother by lia. fold (load h1 (S a)).
           rewrite Hlo, Hnext. constructor.
      * exists c'. repeat split; try assumption.
        intros i Hi. rewrite Hold' by assumption.
        rewrite Hother by lia. apply Hold. lia.
    + (* a later member *)
      rewrite Hp, Hl in Hadd1.
      set (c2 := mkJArray (n c) (pFirst c) (Some (length h))).
      assert (Ha2 : h2 !! a = Some (mkobject nd (Container c2))).
      { subst h2. erewrite lookup_store_eq;
          [|rewrite lookup_store_ne by lia; eassumption].
        reflexivity. }
      assert (Hother : forall i, i <> a ->
                h2 !! i = store (set_pNext (Some (length h))) q h1 !! i).
      { intros i Hi. subst h2. now rewrite lookup_store_ne by congruence. }
      assert (Hlen2 : length h2 = length h1)
        by (subst h2; now rewrite !store_length).
      assert (Hm2 : laid h2 (length h) (length h1) (tree_of m)).
      { apply (proj1 (laid_frame h1) _ _ _ Hm). intros i Hi.
        rewrite Hother by lia. apply lookup_store_ne. lia. }
      destruct (IHms ty add a nd c2 (forest_app ts0 (Fcons (tree_of m) Fnil))
                  h2 Hadd Ha2 Hty)
        as (c' & Ha' & Hc' & Hold').
      * cbn [pFirst pLast c2]. rewrite Hlen2.
        apply laid_chain_snoc with (h := h1) (mid := length h) (lst := pLast c) (q := q);
          try assumption.
        -- intros i Hi. apply Hother. lia.
        -- unfold load. rewrite Hother by lia.
           rewrite lookup_store_ne by lia. exact Hnext.
      * exists c'. rewrite forest_app_assoc in Hc'. cbn [forest_app] in Hc'.
        repeat split; try assumption.
        intros i Hi. rewrite Hold' by assumption.
        rewrite Hother by lia. rewrite lookup_store_ne by lia.
        apply Hold. lia.
Qed.

(** The trees the tree algebra builds are trees of the heap. *)
Lemma construct_repr t (h : list object) :
  fst (construct t h) = Some (length h) /\
  repr (snd (construct t h)) (length h) (tree_of t).
Proof.
  destruct (proj1 construct_laid t h) as (Hl & Ht & _).
  split; [assumption|]. exact (proj1 (laid_repr _) _ _ _ Ht).
Qed.

(** C2 (as amended). For a tree of the heap, in whatever order the
    constructors and the appends built it ([construct_repr] gives the
    trees built member by member), whose root is an unnamed, non-empty
    array or object, whose containers all are non-empty, whose object
    members have names and array elements have none, with names and
    strings free of quote and backslash, in which every Var has a kind,
    with integers that print as a decimal number from 0 to 2147483647 and
    floats whose text reads back, and whose text needs fewer than
    YYMAXDEPTH entries of the generated parser's stack: JSON_Print writes
    a text; JSON_ProcessBuffer on that text returns a root; and JSON_Print
    of that root writes the same text. (The bound on the stack is the one
    condition the proof does not use: it marks the texts for which the
    generated parser is the grammar of [yyparse].) *)
Theorem C2_round_trip (h : list object) (l : nat) (t : tree) (g : globals) :
  repr h l t -> printable_root t -> stack_need t < YYMAXDEPTH ->
  exists (text : list ascii) (N : nat),
    (forall fuel, N <= fuel -> JSON_Print fuel h (Some l) false = Some text) /\
    exists l',
      fst (JSON_ProcessBuffer (Some text) g) = Some l' /\
      forall fuel, N <= fuel ->
        JSON_Print fuel (heap (snd (JSON_ProcessBuffer (Some text) g)))
          (Some l') false = Some text.
Proof.
  intros Hrepr [Hp Hroot] _.
  assert (Hnm : tree_name t = None).
  { apply printable_name_of in Hp. destruct (tree_name t); [now destruct Hp | reflexivity]. }
  assert (Hscan : scan (c_str (print_tree t false)) = value_tokens t ++ []).
  { pose proof (c_str_app_no_NUL (print_tree t false) []
                  (proj1 print_no_NUL t false false Hp)) as Hc.
    cbn [c_str] in Hc. rewrite !app_nil_r in Hc. rewrite Hc.
    pose proof (proj1 scan_print t false false [] Hp I) as Hs.
    rewrite app_nil_r in Hs. rewrite Hs, Hnm. reflexivity. }
  assert (Hjson : exists l' g' t',
            json (3 * length (value_tokens t ++ []) + 3) (value_tokens t ++ []) g =
            (Some (Some l', []), g') /\
            parsed g g' l' t t' /\ root g' = Some l').
  { pose proof (proj1 weight_tokens t false Hp) as Hw.
    destruct t as [nm ts|nm ts| |]; try contradiction;
      destruct Hp as [_ [Hne Hts]]; cbn [weight] in Hw.
    - apply json_list_reads;
        [now apply productions_read | assumption | rewrite app_nil_r; lia].
    - apply json_object_reads;
        [now apply productions_read | assumption | rewrite app_nil_r; lia]. }
  destruct Hjson as (l' & g' & t' & Hjson & Hparsed & Hr).
  destruct Hparsed as (_ & _ & _ & Hb & Hnm' & _ & Hprint).
  apply (proj1 (built_repr _)) in Hb.
  exists (print_tree t false), (Nat.max (weight t) (weight t')). split.
  - intros fuel Hfuel. apply (proj1 (JSON_Print_repr h fuel)); [assumption | lia].
  - unfold JSON_ProcessBuffer, yyparse. rewrite Hscan, Hjson.
    cbn [fst snd Z.eqb]. exists l'. split; [exact Hr|].
    intros fuel Hfuel.
    rewrite (proj1 (JSON_Print_repr (heap g') fuel) _ _ _ Hb) by lia.
    f_equal. now rewrite !print_tree_value, Hnm, Hnm', Hprint.
Qed.

(** ** C6: JSON_ParseNumber without a literal *)

(** C4 (the text of a false Bool has a trailing space). For a node of
    kind JSON_BOOL, JSON_Print writes the comma, if asked for, the name,
    if there is one, and then true when the stored value is positive and
    otherwise false and a space: six characters, not five. *)
Theorem C4_false_has_trailing_space (h : list object) (l : nat)
    (comma : bool) (fuel : nat) :
  type (node (load h l)) = JSON_BOOL ->
  JSON_Print (S fuel) h (Some l) comma =
    Some (comma_text comma ++ name_text (name (node (load h l))) ++
          if (0 <? get_ui (var_val (as_JVar (load h l))))%Z
          then cstr "true" else cstr "false ") /\
  cstr "false " <> cstr "false" /\
  length (cstr "false ") = 6.
Proof.
  intros Hty. split; [|split; [discriminate | reflexivity]].
  cbn [JSON_Print]. rewrite Hty. unfold json_PrintValue. rewrite Hty.
  unfold comma_text, name_text.
  destruct comma, (name (node (load h l))); reflexivity.
Qed.

(** C6 (as amended). With a NULL literal text JSON_ParseNumber does not
    fail: it returns the Var JSON_Var allocates, of node kind JSON_VAR
    with the given name, its scalar kind, length and value left zero
    (JVARTYPE_INVALID). *)
Theorem C6_null_literal (name : option (list ascii)) (h : list object) :
  JSON_ParseNumber name None h = JSON_Var name h /\
  JSON_ParseNumber name None h =
    (Some (length h),
     h ++ [mkobject (mkJNode JSON_VAR name None)
             (Var (mkJVarObject JVARTYPE_INVALID 0 val_zero))]).
Proof.
  unfold JSON_ParseNumber. rewrite JSON_Var_eq. split; reflexivity.
Qed.

(** ** C10: the root after a syntax error *)

(** C10. After a syntax error (yyparse returns non-zero)
    JSON_ProcessBuffer returns NULL, while JSON_Process returns the value
    of [root] whatever yyparse returned. From the initial state, the file
    content [[1], fails to parse and JSON_Process returns the inner array,
    which the reduction of the nested [json] left in [root]; and when the
    content is only an identifier, which no production starts with,
    JSON_Process returns the root of whichever parse ran before. *)
Theorem C10_root_after_syntax_error :
  (forall (buf : list ascii) (g : globals),
     fst (yyparse (scan (c_str buf)) g) <> 0%Z ->
     fst (JSON_ProcessBuffer (Some buf) g) = None) /\
  (forall (fopen : list ascii -> option (list ascii)) (path yyin : list ascii)
          (g : globals),
     fopen path = Some yyin ->
     fst (JSON_Process fopen (Some path) g) = root (snd (yyparse (scan yyin) g))) /\
  (forall (fopen : list ascii -> option (list ascii)) (path : list ascii),
     fopen path = Some (cstr "[[1],") ->
     fst (yyparse (scan (cstr "[[1],")) initial) = 1%Z /\
     fst (JSON_Process fopen (Some path) initial) = Some 1 /\
     type (node (load (heap (snd (JSON_Process fopen (Some path) initial))) 1))
       = JSON_ARRAY) /\
  (forall (fopen : list ascii -> option (list ascii)) (path : list ascii)
          (g : globals),
     fopen path = Some (cstr "x") ->
     fst (yyparse (scan (cstr "x")) g) = 1%Z /\
     fst (JSON_Process fopen (Some path) g) = root g).
Proof.
  split; [|split; [|split]].
  - intros buf g Hrc. unfold JSON_ProcessBuffer.
    destruct (yyparse (scan (c_str buf)) g) as [rc g'] eqn:Hp.
    cbn [fst] in *. destruct (Z.eqb_spec rc 0); [contradiction | reflexivity].
  - intros fopen path yyin g Hopen. unfold JSON_Process. rewrite Hopen.
    now destruct (yyparse (scan yyin) g).
  - intros fopen path Hopen. unfold JSON_Process. rewrite Hopen.
    repeat split; reflexivity.
  - intros fopen path g Hopen. unfold JSON_Process. rewrite Hopen.
    split; reflexivity.
Qed.

(** * Lookup, parser and scanner *)

Lemma get_charstr_Some yytext : exists s, get_charstr (Some yytext) = Some s.
Proof.
  unfold get_charstr. destruct (get_charstr_loop _ _ _ _ _). eauto.
Qed.

Lemma grammatical_with_name nm in_object t :
  grammatical in_object t -> grammatical true (with_name (Some nm) t).
Proof. destruct t; intros [_ H]; (split; [discriminate | exact H]). Qed.

(** An object member: the value with a name stored. *)
Lemma parsed_child_renamed g g' l t nm :
  parsed g g' l t t ->
  parsed_child g (set_heap (store (set_name nm) l (heap g')) g')
    l (with_name nm t) (with_name nm t).
Proof.
  intros (Hflag & Hold & Hlen & Hb & Hnm' & Hnext & Hprint).
  pose proof (built_lo _ _ _ _ Hb) as Hlo.
  unfold parsed_child. cbn [heap set_heap errorFlag].
  repeat split; try assumption.
  - intros i Hi. rewrite lookup_store_ne by lia. now apply Hold.
  - now rewrite store_length.
  - apply (built_store_root _ _ _ _ (set_name nm)) in Hb;
      [exact Hb | now intros [[] ?]].
  - rewrite load_store_eq by lia. exact Hnext.
Qed.

Lemma grammatical_unnamed t : grammatical false t -> tree_name t = None.
Proof. destruct t; now intros [H _]. Qed.

(** What the productions return when they succeed. *)
Lemma productions_sound fuel :
  (forall ts g v ts' g',
     json fuel ts g = (Some (v, ts'), g') ->
     exists l t, v = Some l /\ parsed g g' l t t /\ grammatical false t /\
                 is_container t /\ root g' = Some l) /\
  (forall ts g v ts' g',
     value fuel ts g = (Some (v, ts'), g') ->
     exists l t, v = Some l /\ parsed g g' l t t /\ grammatical false t) /\
  (forall ts g v ts' g',
     value_list fuel ts g = (Some (v, ts'), g') ->
     exists l ts0, v = Some l /\ parsed_chain g g' l ts0 ts0 /\ ts0 <> Fnil /\
                   grammatical_forest false ts0) /\
  (forall ts g v ts' g',
     attribute_list fuel ts g = (Some (v, ts'), g') ->
     exists l ts0, v = Some l /\ parsed_chain g g' l ts0 ts0 /\ ts0 <> Fnil /\
                   grammatical_forest true ts0).
Proof.
  induction fuel as [|fuel (IHj & IHv & IHvl & IHal)];
    [repeat split; intros; discriminate|].
  repeat split; intros ts g v ts' g'.
  - (* json *)
    cbn [json]. destruct ts as [|[[] y] ts0]; try discriminate.
    + destruct (attribute_list fuel ts0 g) as [[[v2 [|[[] y2] ts2]]|] g2] eqn:E;
        try discriminate.
      destruct (IHal _ _ _ _ _ E) as (l1 & ts1 & -> & Hch & Hne & Hg).
      rewrite JSON_Object_eq, store_new. intros H; inversion H; subst; clear H.
      destruct (parsed_container g g2 l1 ts1 ts1 JSON_OBJECT (or_intror eq_refl) Hch None)
        as [Hp Hroot].
      do 2 eexists. split; [reflexivity|]. split; [exact Hp|].
      repeat split; try assumption; exact I.
    + destruct (value_list fuel ts0 g) as [[[v2 [|[[] y2] ts2]]|] g2] eqn:E;
        try discriminate.
      destruct (IHvl _ _ _ _ _ E) as (l1 & ts1 & -> & Hch & Hne & Hg).
      rewrite JSON_Array_eq, store_new. intros H; inversion H; subst; clear H.
      destruct (parsed_container g g2 l1 ts1 ts1 JSON_ARRAY (or_introl eq_refl) Hch None)
        as [Hp Hroot].
      do 2 eexists. split; [reflexivity|]. split; [exact Hp|].
      repeat split; try assumption; exact I.
  - (* value *)
    cbn [value].
    destruct ts as [|[[] y] ts0];
      try (intros E; destruct (IHj _ _ _ _ _ E) as (l & t & ? & ? & ? & _); eauto).
    + rewrite JSON_ParseNumber_parsed_var. intros H; inversion H; subst; clear H.
      do 2 eexists. split; [reflexivity|]. split.
      * apply (parsed_leaf g (TVar None (parsed_var y)) JSON_VAR (parsed_var y));
          [now left | reflexivity].
      * split; [reflexivity|]. left. eauto.
    + rewrite JSON_Float_eq. intros H; inversion H; subst; clear H.
      do 2 eexists. split; [reflexivity|]. split.
      * apply (parsed_leaf g (TVar None _) JSON_VAR); [now left | reflexivity].
      * split; [reflexivity|]. right; left. eauto.
    + destruct (get_charstr_Some y) as [s ->]. rewrite JSON_Str_eq.
      intros H; inversion H; subst; clear H.
      do 2 eexists. split; [reflexivity|]. split.
      * apply (parsed_leaf g (TVar None _) JSON_VAR); [now left | reflexivity].
      * split; [reflexivity|]. right; right. eauto.
    + rewrite JSON_Bool_eq. intros H; inversion H; subst; clear H.
      do 2 eexists. split; [reflexivity|]. split.
      * apply (parsed_leaf g (TBool None _) JSON_BOOL); [now right | reflexivity].
      * split; [reflexivity|]. now left.
    + rewrite JSON_Bool_eq. intros H; inversion H; subst; clear H.
      do 2 eexists. split; [reflexivity|]. split.
      * apply (parsed_leaf g (TBool None _) JSON_BOOL); [now right | reflexivity].
      * split; [reflexivity|]. now right.
  - (* value_list *)
    cbn [value_list].
    destruct (value fuel ts g) as [[[v1 ts1]|] g1] eqn:E; [|discriminate].
    destruct (IHv _ _ _ _ _ E) as (l1 & t1 & -> & Hp1 & Hg1).
    assert (Hc1 : parsed_child g g1 l1 t1 t1)
      by (apply parsed_child_unnamed; [now apply grammatical_unnamed | assumption]).
    assert (Hlast : (Some (Some l1, ts1), g1) = (Some (v, ts'), g') ->
              exists l ts0, v = Some l /\ parsed_chain g g' l ts0 ts0 /\
                ts0 <> Fnil /\ grammatical_forest false ts0).
    { intros H; inversion H; subst; clear H.
      exists l1, (Fcons t1 Fnil). split; [reflexivity|].
      split; [now apply parsed_chain_last|]. split; [discriminate|].
      split; [assumption | exact I]. }
    destruct ts1 as [|[[] y1] ts2]; try exact Hlast.
    destruct (value_list fuel ts2 g1) as [[[v3 ts3]|] g3] eqn:E3; [|discriminate].
    destruct (IHvl _ _ _ _ _ E3) as (l3 & ts3' & -> & Hch3 & Hne3 & Hg3).
    intros H; inversion H; subst; clear H.
    exists l1, (Fcons t1 ts3'). split; [reflexivity|]. split.
    + eapply parsed_chain_link; eassumption.
    + split; [discriminate|]. split; assumption.
  - (* attribute_list *)
    cbn [attribute_list].
    destruct ts as [|[[] y] [|[[] y0] ts0]]; try discriminate.
    destruct (value fuel ts0 g) as [[[v1 ts1]|] g1] eqn:E; [|discriminate].
    destruct (IHv _ _ _ _ _ E) as (l1 & t1 & -> & Hp1 & Hg1).
    destruct (get_charstr_Some y) as [nm Hnm]. rewrite Hnm.
    pose proof (parsed_child_renamed g g1 l1 t1 (Some nm) Hp1) as Hc1.
    pose proof (grammatical_with_name nm _ _ Hg1) as Hg1'.
    assert (Hlast :
              (Some (Some l1, ts1),
               set_heap (store (set_name (Some nm)) l1 (heap g1)) g1) =
              (Some (v, ts'), g') ->
              exists l ts0, v = Some l /\ parsed_chain g g' l ts0 ts0 /\
                ts0 <> Fnil /\ grammatical_forest true ts0).
    { intros H; inversion H; subst; clear H.
      exists l1, (Fcons (with_name (Some nm) t1) Fnil). split; [reflexivity|].
      split; [now apply parsed_chain_last|]. split; [discriminate|].
      split; [assumption | exact I]. }
    destruct ts1 as [|[[] y1] ts2]; try exact Hlast.
    destruct (attribute_list fuel ts2 _) as [[[v3 ts3]|] g3] eqn:E3; [|discriminate].
    destruct (IHal _ _ _ _ _ E3) as (l3 & ts3' & -> & Hch3 & Hne3 & Hg3).
    intros H; inversion H; subst; clear H.
    exists l1, (Fcons (with_name (Some nm) t1) ts3'). split; [reflexivity|]. split.
    + eapply parsed_chain_link; eassumption.
    + split; [discriminate|]. split; assumption.
Qed.


Lemma parser_node_zero : parser_node zero_JArray.
Proof. repeat split. intros [H|H]; discriminate. Qed.

Lemma extends_refl g : extends g g.
Proof.
  repeat split; auto; unfold load; rewrite (lookup_ge_None_2 _ _ H);
    try reflexivity.
  intros [H'|H']; discriminate.
Qed.

Lemma extends_trans g1 g2 g3 : extends g1 g2 -> extends g2 g3 -> extends g1 g3.
Proof.
  intros (H1 & L1 & F1 & N1) (H2 & L2 & F2 & N2).
  split; [|split; [|split]]; try lia; try congruence.
  - intros i Hi. rewrite H2 by lia. now apply H1.
  - intros i Hi. destruct (Nat.lt_ge_cases i (length (heap g2))) as [Hlt|Hge].
    + unfold load. rewrite H2 by assumption. now apply N1.
    + now apply N2.
Qed.

(** Allocating a node the parser makes. *)
Lemma extends_alloc g o h' :
  parser_node o -> h' = heap g ++ [o] -> extends g (set_heap h' g).
Proof.
  intros Ho ->. split; [|split; [|split]]; cbn [heap set_heap errorFlag].
  - intros i Hi. now apply lookup_app_l.
  - rewrite length_app. lia.
  - reflexivity.
  - intros i Hi. destruct (Nat.eq_dec i (length (heap g))) as [->|Hne].
    + now rewrite load_new.
    + unfold load. rewrite lookup_ge_None_2; [apply parser_node_zero|].
      rewrite length_app. simpl. lia.
Qed.

Lemma extends_root g g' r : extends g g' -> extends g (set_root r g').
Proof. intros H. exact H. Qed.

(** Writing the name or the sibling link of a node allocated since. *)
Lemma extends_store g g' f l :
  (forall o, type (node (f o)) = type (node o) /\ rest (f o) = rest o) ->
  length (heap g) <= l -> extends g g' ->
  extends g (set_heap (store f l (heap g')) g').
Proof.
  intros Hf Hl (H1 & L1 & F1 & N1).
  split; [|split; [|split]]; cbn [heap set_heap errorFlag].
  - intros i Hi. rewrite lookup_store_ne by lia. now apply H1.
  - now rewrite store_length.
  - assumption.
  - intros i Hi. destruct (Nat.eq_dec i l) as [->|Hne].
    + destruct (Nat.lt_ge_cases l (length (heap g'))) as [Hlt|Hge].
      * rewrite load_store_eq by assumption.
        destruct (Hf (load (heap g') l)) as [Hty Hrest].
        destruct (N1 l Hi) as (Ha & Hb & Hc).
        unfold parser_node, as_JArray in *. rewrite Hty, Hrest. auto.
      * unfold load, store. rewrite list_lookup_alter_eq.
        rewrite (lookup_ge_None_2 _ _ Hge). apply parser_node_zero.
    + rewrite load_store_ne by congruence. now apply N1.
Qed.

Lemma parsed_lo g g' l t : parsed g g' l t t -> length (heap g) <= l.
Proof. intros (_ & _ & _ & Hb & _). exact (built_lo _ _ _ _ Hb). Qed.

(** Whatever the productions return, they leave the nodes that were there
    and allocate nodes without tail and count. *)
Lemma productions_extend fuel :
  (forall ts g r g', json fuel ts g = (r, g') -> extends g g') /\
  (forall ts g r g', value fuel ts g = (r, g') -> extends g g') /\
  (forall ts g r g', value_list fuel ts g = (r, g') -> extends g g') /\
  (forall ts g r g', attribute_list fuel ts g = (r, g') -> extends g g').
Proof.
  induction fuel as [|fuel (IHj & IHv & IHvl & IHal)].
  { split; [|split; [|split]]; intros ts g r g' H; inversion H;
      apply extends_refl. }
  split; [|split; [|split]]; intros ts g r g'.
  - cbn [json].
    destruct ts as [|[[] y] ts0];
      try (intros H; inversion H; apply extends_refl).
    + destruct (attribute_list fuel ts0 g) as [r2 g2] eqn:E.
      pose proof (IHal _ _ _ _ E) as Hx.
      destruct r2 as [[v2 [|[[] y2] ts2]]|];
        try (intros H; inversion H; subst; exact Hx).
      destruct (proj2 (proj2 (proj2 (productions_sound fuel))) _ _ _ _ _ E)
        as (l1 & ts1 & -> & _).
      rewrite JSON_Object_eq, store_new. intros H; inversion H; subst.
      eapply extends_trans; [exact Hx|]. apply extends_root.
      eapply extends_alloc; [|reflexivity].
      repeat split. intros _. discriminate.
    + destruct (value_list fuel ts0 g) as [r2 g2] eqn:E.
      pose proof (IHvl _ _ _ _ E) as Hx.
      destruct r2 as [[v2 [|[[] y2] ts2]]|];
        try (intros H; inversion H; subst; exact Hx).
      destruct (proj1 (proj2 (proj2 (productions_sound fuel))) _ _ _ _ _ E)
        as (l1 & ts1 & -> & _).
      rewrite JSON_Array_eq, store_new. intros H; inversion H; subst.
      eapply extends_trans; [exact Hx|]. apply extends_root.
      eapply extends_alloc; [|reflexivity].
      repeat split. intros _. discriminate.
  - cbn [value].
    destruct ts as [|[[] y] ts0]; try (intros H; exact (IHj _ _ _ _ H)).
    + rewrite JSON_ParseNumber_parsed_var. intros H; inversion H.
      eapply extends_alloc; [|reflexivity].
      repeat split. intros [H'|H']; discriminate.
    + rewrite JSON_Float_eq. intros H; inversion H.
      eapply extends_alloc; [|reflexivity].
      repeat split. intros [H'|H']; discriminate.
    + destruct (get_charstr_Some y) as [s ->]. rewrite JSON_Str_eq.
      intros H; inversion H.
      eapply extends_alloc; [|reflexivity].
      repeat split. intros [H'|H']; discriminate.
    + rewrite JSON_Bool_eq. intros H; inversion H.
      eapply extends_alloc; [|reflexivity].
      repeat split. intros [H'|H']; discriminate.
    + rewrite JSON_Bool_eq. intros H; inversion H.
      eapply extends_alloc; [|reflexivity].
      repeat split. intros [H'|H']; discriminate.
  - cbn [value_list].
    destruct (value fuel ts g) as [r1 g1] eqn:E.
    pose proof (IHv _ _ _ _ E) as Hx.
    destruct r1 as [[v1 [|[[] y1] ts2]]|];
      try (intros H; inversion H; subst; exact Hx).
    destruct (value_list fuel ts2 g1) as [r3 g3] eqn:E3.
    pose proof (IHvl _ _ _ _ E3) as Hx3.
    destruct (proj1 (proj2 (productions_sound fuel)) _ _ _ _ _ E)
      as (l1 & t1 & -> & Hp1 & _).
    destruct r3 as [[v3 ts3]|]; intros H; inversion H; subst.
    + apply extends_store;
        [now intros [[] ?] | exact (parsed_lo _ _ _ _ Hp1)|].
      eapply extends_trans; eassumption.
    + eapply extends_trans; eassumption.
  - cbn [attribute_list].
    destruct ts as [|[[] y] [|[[] y0] ts0]];
      try (intros H; inversion H; apply extends_refl).
    destruct (value fuel ts0 g) as [r1 g1] eqn:E.
    pose proof (IHv _ _ _ _ E) as Hx.
    destruct r1 as [[v1 ts1]|]; [|intros H; inversion H; subst; exact Hx].
    destruct (proj1 (proj2 (productions_sound fuel)) _ _ _ _ _ E)
      as (l1 & t1 & -> & Hp1 & _).
    pose proof (parsed_lo _ _ _ _ Hp1) as Hlo.
    assert (Hx1 : extends g
              (set_heap (store (set_name (get_charstr (Some y))) l1 (heap g1)) g1))
      by (apply extends_store; [now intros [[] ?] | assumption | assumption]).
    destruct ts1 as [|[[] y1] ts2];
      try (intros H; inversion H; subst; exact Hx1).
    destruct (attribute_list fuel ts2 _) as [r3 g3] eqn:E3.
    pose proof (IHal _ _ _ _ E3) as Hx3.
    destruct r3 as [[v3 ts3]|]; intros H; inversion H; subst.
    + apply extends_store; [now intros [[] ?] | assumption|].
      eapply extends_trans; eassumption.
    + eapply extends_trans; eassumption.
Qed.


(** The tokens a production reads are tokens of the grammar. *)
Lemma productions_tokens fuel :
  (forall ts g v ts' g',
     json fuel ts g = (Some (v, ts'), g') ->
     exists used, ts = used ++ ts' /\
       Forall (fun tk => grammar_token (fst tk) = true) used) /\
  (forall ts g v ts' g',
     value fuel ts g = (Some (v, ts'), g') ->
     exists used, ts = used ++ ts' /\
       Forall (fun tk => grammar_token (fst tk) = true) used) /\
  (forall ts g v ts' g',
     value_list fuel ts g = (Some (v, ts'), g') ->
     exists used, ts = used ++ ts' /\
       Forall (fun tk => grammar_token (fst tk) = true) used) /\
  (forall ts g v ts' g',
     attribute_list fuel ts g = (Some (v, ts'), g') ->
     exists used, ts = used ++ ts' /\
       Forall (fun tk => grammar_token (fst tk) = true) used).
Proof.
  induction fuel as [|fuel (IHj & IHv & IHvl & IHal)];
    [repeat split; intros; discriminate|].
  repeat split; intros ts g v ts' g'.
  - cbn [json]. destruct ts as [|[[] y] ts0]; try discriminate.
    + destruct (attribute_list fuel ts0 g) as [[[v2 [|[[] y2] ts2]]|] g2] eqn:E;
        try discriminate.
      destruct (IHal _ _ _ _ _ E) as (used & -> & Hu).
      destruct (JSON_Object None (heap g2)). intros H; inversion H; subst.
      exists ((LBRACE, y) :: used ++ [(RBRACE, y2)]).
      split; [cbn [app]; rewrite <- ?app_assoc; reflexivity|].
      constructor; [reflexivity|]. apply Forall_app. split; [assumption|].
      now constructor.
    + destruct (value_list fuel ts0 g) as [[[v2 [|[[] y2] ts2]]|] g2] eqn:E;
        try discriminate.
      destruct (IHvl _ _ _ _ _ E) as (used & -> & Hu).
      destruct (JSON_Array None (heap g2)). intros H; inversion H; subst.
      exists ((LBRACKET, y) :: used ++ [(RBRACKET, y2)]).
      split; [cbn [app]; rewrite <- ?app_assoc; reflexivity|].
      constructor; [reflexivity|]. apply Forall_app. split; [assumption|].
      now constructor.
  - cbn [value].
    destruct ts as [|[[] y] ts0];
      try (intros E; exact (IHj _ _ _ _ _ E));
      match goal with
      | |- context [let '(_, _) := ?c in _] => destruct c
      end; intros H; inversion H; subst;
      match goal with
      | |- exists used, ?tk :: _ = _ /\ _ => exists [tk]
      end; (split; [reflexivity | now constructor]).
  - cbn [value_list].
    destruct (value fuel ts g) as [[[v1 ts1]|] g1] eqn:E; [|discriminate].
    destruct (IHv _ _ _ _ _ E) as (used & -> & Hu).
    destruct ts1 as [|[[] y1] ts2];
      try (intros H; inversion H; subst; solve [eauto]).
    destruct (value_list fuel ts2 g1) as [[[v3 ts3]|] g3] eqn:E3; [|discriminate].
    destruct (IHvl _ _ _ _ _ E3) as (used3 & -> & Hu3).
    intros H; inversion H; subst.
    exists (used ++ (COMMA, y1) :: used3).
    split; [cbn [app]; rewrite <- ?app_assoc; reflexivity|].
    apply Forall_app. split; [assumption|]. now constructor.
  - cbn [attribute_list].
    destruct ts as [|[[] y] [|[[] y0] ts0]]; try discriminate.
    destruct (value fuel ts0 g) as [[[v1 ts1]|] g1] eqn:E; [|discriminate].
    destruct (IHv _ _ _ _ _ E) as (used & -> & Hu).
    destruct ts1 as [|[[] y1] ts2];
      try (intros H; inversion H; subst;
           exists ((CHARSTR, y) :: (COLON, y0) :: used);
           solve [split; [reflexivity | repeat constructor; assumption]]).
    destruct (attribute_list fuel ts2 _) as [[[v3 ts3]|] g3] eqn:E3; [|discriminate].
    destruct (IHal _ _ _ _ _ E3) as (used3 & -> & Hu3).
    intros H; inversion H; subst.
    exists ((CHARSTR, y) :: (COLON, y0) :: used ++ (COMMA, y1) :: used3).
    split; [cbn [app]; rewrite <- ?app_assoc; reflexivity|].
    repeat (constructor; [reflexivity|]).
    apply Forall_app. split; [assumption|]. now constructor.
Qed.


(** The nodes of a tree can be listed in the order JSON_Find visits
    them. *)
Lemma repr_preorder h :
  (forall l t, repr h l t ->
     forall sibs, preorder h (pNext (node (load h l))) sibs ->
     exists kids, preorder h (Some l) (l :: kids ++ sibs)) /\
  (forall p ts, repr_chain h p ts -> exists ls, preorder h p ls).
Proof.
  apply repr_both_ind.
  - intros l nm nx c ts Hl _ [kids Hk] sibs Hs.
    rewrite (load_lookup _ _ _ Hl) in Hs. exists kids.
    eapply pre_container; [exact Hl | now left | exact Hk | exact Hs].
  - intros l nm nx c ts Hl _ [kids Hk] sibs Hs.
    rewrite (load_lookup _ _ _ Hl) in Hs. exists kids.
    eapply pre_container; [exact Hl | now right | exact Hk | exact Hs].
  - intros l nm nx v Hl sibs Hs.
    rewrite (load_lookup _ _ _ Hl) in Hs. exists [].
    eapply pre_leaf; [exact Hl | discriminate | discriminate | exact Hs].
  - intros l nm nx v Hl sibs Hs.
    rewrite (load_lookup _ _ _ Hl) in Hs. exists [].
    eapply pre_leaf; [exact Hl | discriminate | discriminate | exact Hs].
  - exists []. constructor.
  - intros l t ts _ IHt _ [ls Hls].
    destruct (IHt ls Hls) as [kids Hk]. eauto.
Qed.

Lemma yyparse_success ts g g' :
  yyparse ts g = (0%Z, g') ->
  exists v, json (3 * length ts + 3) ts g = (Some (v, []), g').
Proof.
  unfold yyparse.
  destruct (json (3 * length ts + 3) ts g) as [[[v [|tk ts']]|] g1];
    intros H; inversion H; eauto.
Qed.

Lemma yyparse_extends ts g :
  (forall i, i < length (heap g) -> heap (snd (yyparse ts g)) !! i = heap g !! i) /\
  length (heap g) <= length (heap (snd (yyparse ts g))) /\
  (forall i, length (heap g) <= i ->
     parser_node (load (heap (snd (yyparse ts g))) i)).
Proof.
  unfold yyparse.
  destruct (json (3 * length ts + 3) ts g) as [r g1] eqn:E.
  destruct (proj1 (productions_extend _) _ _ _ _ E) as (H1 & H2 & _ & H4).
  destruct r as [[v [|tk ts']]|]; cbn [snd heap yyerror]; auto.
Qed.

Lemma JSON_ProcessBuffer_success buf g l g' :
  JSON_ProcessBuffer (Some buf) g = (Some l, g') ->
  yyparse (scan (c_str buf)) g = (0%Z, g') /\ root g' = Some l.
Proof.
  unfold JSON_ProcessBuffer.
  destruct (yyparse (scan (c_str buf)) g) as [rc g1].
  destruct (Z.eqb_spec rc 0) as [->|Hne]; intros H; inversion H; subst.
  now split.
Qed.

Lemma prefix_of_lookups (h h' : list object) :
  (forall i, i < length h -> h' !! i = h !! i) -> length h <= length h' ->
  h' = h ++ drop (length h) h'.
Proof.
  intros Hsame Hlen. rewrite <- (take_drop (length h) h') at 1. f_equal.
  apply list_eq. intros i.
  destruct (Nat.lt_ge_cases i (length h)) as [Hlt|Hge].
  - rewrite lookup_take_lt by assumption. now apply Hsame.
  - rewrite lookup_take_ge by assumption. symmetry. now apply lookup_ge_None.
Qed.

(** X1. What JSON_ProcessBuffer returns, when it is not NULL, is the node
    allocated last, left in [root], without siblings, and the root of a
    tree: an array or an object without a name, in which no container is
    empty, every member of an object has a name and no element of an
    array has one. JSON_Print of it ends and writes the text of that
    tree, and a search from it visits finitely many nodes. *)
Theorem parse_gives_tree (buf : list ascii) (g g' : globals) (l : nat) :
  JSON_ProcessBuffer (Some buf) g = (Some l, g') ->
  exists t,
    repr (heap g') l t /\ grammatical false t /\ is_container t /\
    root g' = Some l /\ length (heap g') = S l /\
    pNext (node (load (heap g') l)) = None /\
    (forall fuel, weight t <= fuel ->
       JSON_Print fuel (heap g') (Some l) false = Some (print_tree t false)) /\
    exists ls, preorder (heap g') (Some l) ls.
Proof.
  intros H. destruct (JSON_ProcessBuffer_success _ _ _ _ H) as [Hp Hroot].
  destruct (yyparse_success _ _ _ Hp) as [v Hj].
  destruct (proj1 (productions_sound _) _ _ _ _ _ Hj)
    as (l' & t & -> & Hparsed & Hg & Hc & Hr).
  assert (l' = l) by congruence. subst l'.
  destruct Hparsed as (_ & _ & Hlen & Hb & _ & Hnext & _).
  apply (proj1 (built_repr _)) in Hb.
  exists t. repeat split; try assumption.
  - intros fuel Hfuel. now apply (proj1 (JSON_Print_repr (heap g') fuel)).
  - destruct (proj1 (repr_preorder _) _ _ Hb []) as [kids Hk];
      [rewrite Hnext; constructor | eauto].
Qed.

(** X2. Parsing only allocates: whatever the text, and whether it parses
    or not, JSON_ProcessBuffer leaves every node that existed before as
    it was; and so does JSON_Process on a file without a NUL byte (with a
    NUL right after an opening quote get_charstr writes out of bounds,
    and nothing can be said). *)
Theorem parse_keeps_heap (g : globals) :
  (forall buf,
     exists new, heap (snd (JSON_ProcessBuffer buf g)) = heap g ++ new) /\
  (forall fopen inputFile,
     (forall path yyin,
        fopen path = Some yyin -> Forall (fun c => c <> NUL) yyin) ->
     exists new, heap (snd (JSON_Process fopen inputFile g)) = heap g ++ new).
Proof.
  split.
  - intros [buf|]; [|exists []; cbn; now rewrite app_nil_r].
    unfold JSON_ProcessBuffer.
    destruct (yyparse_extends (scan (c_str buf)) g) as (H1 & H2 & _).
    destruct (yyparse (scan (c_str buf)) g) as [rc g1]. cbn [snd] in *.
    eexists. now apply prefix_of_lookups.
  - intros fopen [path|] _; [|exists []; cbn; now rewrite app_nil_r].
    unfold JSON_Process.
    destruct (fopen path) as [yyin|]; [|exists []; cbn; now rewrite app_nil_r].
    destruct (yyparse_extends (scan yyin) g) as (H1 & H2 & _).
    destruct (yyparse (scan yyin) g) as [rc g1]. cbn [snd] in *.
    eexists. now apply prefix_of_lookups.
Qed.

Lemma parser_node_rejects (h : list object) a p :
  parser_node (load h a) ->
  (fst (JSON_ArrayAdd (Some a) p h) <> EOK /\ snd (JSON_ArrayAdd (Some a) p h) = h) /\
  (fst (JSON_ObjectAdd (Some a) p h) <> EOK /\ snd (JSON_ObjectAdd (Some a) p h) = h).
Proof.
  intros (Hlast & _ & Hfirst). unfold JSON_ArrayAdd, JSON_ObjectAdd.
  destruct p as [p|]; [|repeat split; discriminate].
  rewrite Hlast.
  destruct (type (node (load h a))) eqn:Hty;
    try (repeat split; discriminate);
    (destruct (pFirst (as_JArray (load h a)));
     [repeat split; discriminate | exfalso; apply Hfirst; auto]).
Qed.

(** X3. A parsed tree cannot be appended to: for the node
    JSON_ProcessBuffer returns, and for every node the parse allocated,
    JSON_ArrayAdd and JSON_ObjectAdd fail and change nothing; on the
    returned array (object) JSON_ArrayAdd (JSON_ObjectAdd) of a node
    returns EINVAL, as the grammar's actions leave pLast NULL. *)
Theorem parsed_tree_rejects_append (buf : list ascii) (g g' : globals) (l : nat) :
  JSON_ProcessBuffer (Some buf) g = (Some l, g') ->
  length (heap g) <= l /\
  (forall a p, length (heap g) <= a ->
     (fst (JSON_ArrayAdd (Some a) p (heap g')) <> EOK /\
      snd (JSON_ArrayAdd (Some a) p (heap g')) = heap g') /\
     (fst (JSON_ObjectAdd (Some a) p (heap g')) <> EOK /\
      snd (JSON_ObjectAdd (Some a) p (heap g')) = heap g')) /\
  (forall p,
     match type (node (load (heap g') l)) with
     | JSON_ARRAY => JSON_ArrayAdd (Some l) (Some p) (heap g') = (EINVAL, heap g')
     | _ => JSON_ObjectAdd (Some l) (Some p) (heap g') = (EINVAL, heap g')
     end).
Proof.
  intros H. destruct (JSON_ProcessBuffer_success _ _ _ _ H) as [Hp Hroot].
  pose proof (yyparse_extends (scan (c_str buf)) g) as (_ & _ & Hnodes).
  rewrite Hp in Hnodes. cbn [snd] in Hnodes.
  destruct (yyparse_success _ _ _ Hp) as [v Hj].
  destruct (proj1 (productions_sound _) _ _ _ _ _ Hj)
    as (l' & t & -> & Hparsed & Hg & Hc & Hr).
  assert (l' = l) by congruence. subst l'.
  pose proof (parsed_lo _ _ _ _ Hparsed) as Hlo.
  split; [assumption|]. split.
  - intros a p Ha. apply parser_node_rejects. now apply Hnodes.
  - intros p. destruct (Hnodes l Hlo) as (Hlast & _ & Hfirst).
    destruct Hparsed as (_ & _ & _ & Hb & _).
    unfold JSON_ArrayAdd, JSON_ObjectAdd.
    inversion Hb as [? ? ? ? ? ? _ Hl _|? ? ? ? ? ? _ Hl _|? ? ? ? ? _ Hl|? ? ? ? ? _ Hl];
      subst; try contradiction;
      rewrite (load_lookup _ _ _ Hl) in *; cbn [node type rest as_JArray] in *;
      rewrite Hlast;
      (destruct (pFirst c); [reflexivity | exfalso; apply Hfirst; auto]).
Qed.

(** X4. Text with a token no production names (an identifier such as
    null, a semicolon, a dot) does not parse: JSON_ProcessBuffer returns
    NULL. *)
Theorem parse_rejects_tokens (buf : list ascii) (g : globals) :
  Exists (fun tk => grammar_token (fst tk) = false) (scan (c_str buf)) ->
  fst (JSON_ProcessBuffer (Some buf) g) = None.
Proof.
  intros Hex.
  destruct (JSON_ProcessBuffer (Some buf) g) as [[l|] g'] eqn:E; [|reflexivity].
  exfalso.
  destruct (JSON_ProcessBuffer_success _ _ _ _ E) as [Hp _].
  destruct (yyparse_success _ _ _ Hp) as [v Hj].
  destruct (proj1 (productions_tokens _) _ _ _ _ _ Hj) as (used & Hts & Hu).
  rewrite app_nil_r in Hts. rewrite Hts in Hex.
  apply Exists_exists in Hex as (tk & Hin & Hno).
  rewrite Forall_forall in Hu. rewrite (Hu tk Hin) in Hno. discriminate.
Qed.


(** ** strcmp *)

Lemma nat_of_ascii_0 c : nat_of_ascii c = 0 -> c = NUL.
Proof.
  intros H. rewrite <- (ascii_nat_embedding c), H. reflexivity.
Qed.

Lemma strcmp_0 s1 s2 : strcmp s1 s2 = 0%Z <-> c_str s1 = c_str s2.
Proof.
  revert s2. induction s1 as [|c1 r1 IH]; intros [|c2 r2]; cbn [strcmp c_str].
  - tauto.
  - destruct (Ascii.eqb_spec c2 NUL) as [->|Hc2]; [cbn; tauto|].
    split; [|discriminate]. intros H. exfalso. apply Hc2, nat_of_ascii_0. lia.
  - destruct (Ascii.eqb_spec c1 NUL) as [->|Hc1]; [cbn; tauto|].
    split; [|discriminate]. intros H. exfalso. apply Hc1, nat_of_ascii_0. lia.
  - destruct (Ascii.eqb_spec c1 NUL) as [->|Hc1]; cbn [orb].
    + destruct (Ascii.eqb_spec c2 NUL) as [->|Hc2]; [cbn; tauto|].
      split; [|discriminate]. intros H. exfalso. apply Hc2, nat_of_ascii_0.
      change (nat_of_ascii NUL) with 0 in H. lia.
    + destruct (Ascii.eqb_spec c1 c2) as [<-|Hne]; cbn [negb].
      * destruct (Ascii.eqb_spec c1 NUL); [contradiction|].
        rewrite IH. split; [congruence | now intros [= ->]].
      * split.
        -- intros H. exfalso. apply Hne.
           rewrite <- (ascii_nat_embedding c1), <- (ascii_nat_embedding c2).
           f_equal. lia.
        -- destruct (Ascii.eqb_spec c2 NUL); [discriminate|]. congruence.
Qed.

Lemma strcmp_sym s1 s2 : (strcmp s1 s2 =? 0)%Z = (strcmp s2 s1 =? 0)%Z.
Proof.
  destruct (Z.eqb_spec (strcmp s1 s2) 0) as [H|H];
    destruct (Z.eqb_spec (strcmp s2 s1) 0) as [H'|H']; try reflexivity;
    rewrite strcmp_0 in *; congruence.
Qed.

Lemma has_name_spec h key l :
  has_name h key l = true <->
  exists nm, name (node (load h l)) = Some nm /\ c_str nm = c_str key.
Proof.
  unfold has_name. destruct (name (node (load h l))) as [nm|].
  - rewrite Z.eqb_eq, strcmp_0. split; [eauto | now intros (? & [= <-] & ?)].
  - split; [discriminate | now intros (? & ? & _)].
Qed.

(** ** JSON_Attribute *)

Lemma JSON_Attribute_loop_chain h key p cs :
  chain h p cs -> forall fuel, length cs <= fuel ->
  JSON_Attribute_loop fuel h p key = Some (List.find (has_name h key) cs).
Proof.
  induction 1 as [|l o ls Hl Hch IH]; intros fuel Hfuel;
    [now destruct fuel|].
  destruct fuel as [|fuel]; [simpl in Hfuel; lia|].
  cbn [JSON_Attribute_loop List.find]. unfold has_name at 1.
  rewrite (load_lookup _ _ _ Hl).
  destruct (name (node o)) as [nm|].
  - destruct (strcmp nm key =? 0)%Z; [reflexivity|].
    apply IH. simpl in Hfuel. lia.
  - apply IH. simpl in Hfuel. lia.
Qed.

(** X5. JSON_Attribute returns the first member of an object, in chain
    order, whose name is not NULL and equal to the attribute as a C
    string, and NULL when there is none; members without a name are
    passed over. It returns NULL when the object pointer or the attribute
    is NULL or the node's kind is not JSON_OBJECT. *)
Theorem JSON_Attribute_first (h : list object) (o : nat) (key : list ascii)
    (cs : list nat) (fuel : nat) :
  chain h (pFirst (as_JArray (load h o))) cs -> length cs <= fuel ->
  (type (node (load h o)) = JSON_OBJECT ->
   JSON_Attribute fuel (Some o) (Some key) h =
     Some (List.find (has_name h key) cs)) /\
  (forall l, has_name h key l = true <->
     exists nm, name (node (load h l)) = Some nm /\ c_str nm = c_str key) /\
  (type (node (load h o)) <> JSON_OBJECT ->
   JSON_Attribute fuel (Some o) (Some key) h = Some None) /\
  JSON_Attribute fuel None (Some key) h = Some None /\
  JSON_Attribute fuel (Some o) None h = Some None.
Proof.
  intros Hch Hfuel. split; [|split; [|split; [|split]]]; try reflexivity.
  - intros Hty. unfold JSON_Attribute. rewrite Hty.
    now apply JSON_Attribute_loop_chain.
  - intros l. apply has_name_spec.
  - intros Hty. unfold JSON_Attribute.
    destruct (type (node (load h o))); congruence.
Qed.

(** ** JSON_ObjectAdd and JSON_Attribute *)

Lemma linked_step h0 a qs h p :
  a < length h0 -> p <> a -> a ∉ qs -> NoDup (qs ++ [p]) -> unlinked h0 p ->
  linked h0 a qs h ->
  fst (JSON_ObjectAdd (Some a) (Some p) h) = EOK /\
  linked h0 a (qs ++ [p]) (snd (JSON_ObjectAdd (Some a) (Some p) h)).
Proof.
  intros Ha Hpa Haq Hnd (o & Ho & Hnext) [Hlen Hty Hfirst Hlast Hch Hother Hsame].
  assert (Hpq : p ∉ qs).
  { apply NoDup_app in Hnd as (_ & Hd & _). intros Hin. apply (Hd _ Hin). constructor. }
  assert (Hop : h !! p = Some o) by now rewrite Hother.
  unfold JSON_ObjectAdd. rewrite Hty, Hfirst, Hlast.
  destruct qs as [|q0 qs' _] using rev_ind.
  - cbn [head fst snd]. split; [reflexivity|].
    assert (Hload : load (store (set_pLast (Some p)) a (store (set_pFirst (Some p)) a h)) a
                    = set_pLast (Some p) (set_pFirst (Some p) (load h a))).
    { rewrite load_store_eq by (rewrite store_length; lia).
      now rewrite load_store_eq by lia. }
    constructor; rewrite ?store_length, ?Hload; try assumption; try reflexivity.
    + cbn. econstructor; [rewrite !lookup_store_ne by congruence; eassumption|].
      rewrite Hnext. constructor.
    + intros p' Hp' Hp'a. rewrite !lookup_store_ne by congruence.
      apply Hother; [apply not_elem_of_nil | assumption].
    + intros p' Hp'a. rewrite !load_store_ne by congruence. now apply Hsame.
  - rewrite last_snoc.
    assert (Hq0a : q0 <> a) by (intros ->; apply Haq, elem_of_app; right; constructor).
    assert (Hq0p : q0 <> p) by (intros ->; apply Hpq, elem_of_app; right; constructor).
    assert (Hhead : head ((qs' ++ [q0]) ++ [p]) = head (qs' ++ [q0]))
      by now destruct qs'.
    destruct (head (qs' ++ [q0])) as [f|] eqn:Hf; [|destruct qs'; discriminate].
    cbn [fst snd]. split; [reflexivity|].
    assert (Hload : load (store (set_pLast (Some p)) a
                            (store (set_pNext (Some p)) q0 h)) a
                    = set_pLast (Some p) (load h a)).
    { rewrite load_store_eq by (rewrite store_length; lia).
      now rewrite load_store_ne by congruence. }
    constructor; rewrite ?store_length, ?Hload, ?Hhead; try assumption.
    + cbn. now rewrite last_snoc.
    + apply chain_store_ne.
      * apply (chain_snoc _ _ _ _ _ o); try assumption.
        now apply NoDup_app in Hnd as (? & _ & _).
      * intros [Hin|Hin%list_elem_of_singleton]%elem_of_app; [auto | congruence].
    + intros p' Hp' Hp'a.
      assert (p' <> q0)
        by (intros ->; apply Hp'; rewrite !elem_of_app; left; right; constructor).
      rewrite !lookup_store_ne by congruence.
      apply Hother; [|assumption]. intros Hin. apply Hp', elem_of_app. now left.
    + intros p' Hp'a. rewrite load_store_ne by congruence.
      destruct (Nat.eq_dec p' q0) as [->|Hne].
      * assert (Hq :
          name (node (load (store (set_pNext (Some p)) q0 h) q0)) =
            name (node (load h q0)) /\
          type (node (load (store (set_pNext (Some p)) q0 h) q0)) =
            type (node (load h q0)) /\
          rest (load (store (set_pNext (Some p)) q0 h) q0) = rest (load h q0)).
        { unfold load, store. rewrite list_lookup_alter_eq.
          destruct (h !! q0); auto. }
        destruct Hq as (-> & -> & ->). now apply Hsame.
      * rewrite load_store_ne by congruence. now apply Hsame.
Qed.


Lemma linked_all h0 a ps : forall qs h,
  a < length h0 -> a ∉ qs ++ ps -> NoDup (qs ++ ps) ->
  (forall p, p ∈ ps -> unlinked h0 p) ->
  linked h0 a qs h ->
  Forall (fun rc => rc = EOK) (object_append_results a ps h) /\
  linked h0 a (qs ++ ps) (object_appends a ps h).
Proof.
  induction ps as [|p ps IH]; intros qs h Ha Haq Hnd Hun Hinv.
  - rewrite app_nil_r. split; [constructor | assumption].
  - cbn [object_appends foldl object_append_results]. fold (object_appends a ps).
    replace (qs ++ p :: ps) with ((qs ++ [p]) ++ ps) in *
      by now rewrite <- app_assoc.
    destruct (linked_step h0 a qs h p) as [Hrc Hstep]; try assumption.
    + intros ->. apply Haq. rewrite !elem_of_app. left. right. constructor.
    + intros Hin. apply Haq. rewrite !elem_of_app. now left; left.
    + now apply NoDup_app in Hnd as (? & _ & _).
    + apply Hun. now left.
    + destruct (IH (qs ++ [p]) (snd (JSON_ObjectAdd (Some a) (Some p) h)))
        as [Hrcs Hall]; try assumption.
      * intros q Hq. apply Hun. now right.
      * split; [constructor; assumption | assumption].
Qed.

Lemma linked_fresh h a name :
  h !! a = Some (fresh_object name) -> linked h a [] h.
Proof.
  intros Ha. constructor; rewrite ?(load_lookup _ _ _ Ha);
    try reflexivity; try constructor; auto.
Qed.

Lemma find_agree {A} (f g : A -> bool) (l : list A) :
  (forall x, In x l -> f x = g x) -> List.find f l = List.find g l.
Proof.
  induction l as [|x l IH]; intros H; [reflexivity|]. cbn [List.find].
  rewrite (H x (or_introl eq_refl)). destruct (g x); [reflexivity|].
  apply IH. intros y Hy. apply H. now right.
Qed.

(** X6. JSON_ObjectAdd and JSON_Attribute: after distinct, unlinked nodes
    are appended to a freshly created object, every JSON_ObjectAdd
    returned EOK, the members are the appended nodes in the order of the
    calls, the nodes kept their names, kinds and values, and
    JSON_Attribute returns the node appended first among those with the
    name asked for (NULL when none has it). *)
Theorem object_add_then_attribute (h : list object) (o : nat)
    (nm : option (list ascii)) (ps : list nat) :
  h !! o = Some (fresh_object nm) ->
  o ∉ ps -> NoDup ps -> (forall p, p ∈ ps -> unlinked h p) ->
  Forall (fun rc => rc = EOK) (object_append_results o ps h) /\
  chain (object_appends o ps h)
    (pFirst (as_JArray (load (object_appends o ps h) o))) ps /\
  (forall p, p <> o ->
     name (node (load (object_appends o ps h) p)) =
       name (node (load h p)) /\
     type (node (load (object_appends o ps h) p)) = type (node (load h p)) /\
     rest (load (object_appends o ps h) p) = rest (load h p)) /\
  (forall key fuel, length ps <= fuel ->
     JSON_Attribute fuel (Some o) (Some key) (object_appends o ps h) =
       Some (List.find (has_name h key) ps)).
Proof.
  intros Ha Haps Hnd Hun.
  destruct (linked_all h o ps [] h) as [Hrcs Hinv]; try assumption.
  { now apply lookup_lt_Some in Ha. }
  { now apply linked_fresh with nm. }
  destruct Hinv as [_ Hty Hfirst _ Hch _ Hsame]. cbn [app] in *.
  split; [assumption|]. split; [now rewrite Hfirst|]. split; [assumption|].
  intros key fuel Hfuel. unfold JSON_Attribute. rewrite Hty, Hfirst.
  rewrite (JSON_Attribute_loop_chain _ key _ ps Hch) by assumption.
  f_equal. apply find_agree. intros p Hp. unfold has_name.
  destruct (Hsame p) as (-> & _); [|reflexivity].
  intros ->. apply Haps. now apply list_elem_of_In.
Qed.


(** ** JSON_Find *)

Lemma find_app {A} (f : A -> bool) (l1 l2 : list A) :
  List.find f (l1 ++ l2) =
  match List.find f l1 with Some x => Some x | None => List.find f l2 end.
Proof.
  induction l1 as [|x l1 IH]; [reflexivity|]. cbn [app List.find].
  now destruct (f x).
Qed.

Lemma JSON_Find_preorder h key p ls :
  preorder h p ls -> forall fuel, length ls < fuel ->
  JSON_Find fuel h p (Some key) = Some (List.find (is_key h key) ls).
Proof.
  induction 1 as [|l o kids sibs Hl Hty _ IHk _ IHs|l o sibs Hl Hty1 Hty2 _ IHs];
    intros fuel Hfuel.
  - destruct fuel; [simpl in Hfuel; lia | reflexivity].
  - destruct fuel as [|fuel]; [lia|].
    cbn [length] in Hfuel. rewrite length_app in Hfuel.
    cbn [JSON_Find List.find]. unfold is_key at 1.
    rewrite (load_lookup _ _ _ Hl), find_app.
    destruct Hty as [-> | ->];
      (destruct (name (node o)) as [nm|];
       [destruct (strcmp key nm =? 0)%Z; [reflexivity|]|];
       rewrite IHk by lia;
       (destruct (List.find (is_key h key) kids); [reflexivity|]);
       apply IHs; lia).
  - destruct fuel as [|fuel]; [lia|]. cbn [length] in Hfuel.
    cbn [JSON_Find List.find]. unfold is_key at 1.
    rewrite (load_lookup _ _ _ Hl).
    destruct (type (node o)); try congruence;
      try (apply IHs; lia);
      (destruct (name (node o)) as [nm|];
       [destruct (strcmp key nm =? 0)%Z; [reflexivity|]|];
       apply IHs; lia).
Qed.

Lemma is_key_spec h key l :
  is_key h key l = true <->
  type (node (load h l)) <> JSON_INVALID /\
  exists nm, name (node (load h l)) = Some nm /\ c_str nm = c_str key.
Proof.
  unfold is_key.
  destruct (type (node (load h l)));
    try (split; [discriminate | now intros [? _]]);
    (destruct (name (node (load h l))) as [nm|];
     [rewrite Z.eqb_eq, strcmp_0;
      split; [intros H; split; [discriminate | eauto]
             | now intros (_ & ? & [= <-] & ?)]
     | split; [discriminate | now intros (_ & ? & ? & _)]]).
Qed.

(** X7. JSON_Find returns the first node, in the order a depth-first
    walk visits them (a node, then the descendants of an array or object,
    then the siblings after it), that has a kind and a name equal to the
    key as a C string; NULL when no node has; NULL when the key is
    NULL. The walk starts at the given node and goes on through the
    siblings after it. *)
Theorem JSON_Find_first (h : list object) (p : option nat) (ls : list nat)
    (key : list ascii) (fuel : nat) :
  preorder h p ls -> length ls < fuel ->
  JSON_Find fuel h p (Some key) = Some (List.find (is_key h key) ls) /\
  (forall l, is_key h key l = true <->
     type (node (load h l)) <> JSON_INVALID /\
     exists nm, name (node (load h l)) = Some nm /\ c_str nm = c_str key) /\
  JSON_Find fuel h p None = Some None.
Proof.
  intros Hpre Hfuel. split; [now apply JSON_Find_preorder|]. split.
  - intros l. apply is_key_spec.
  - destruct fuel; [lia | reflexivity].
Qed.


(** ** The getters *)

(** The node at the head of a chain, as the tree shows it. *)
Lemma repr_node h l t :
  repr h l t ->
  name (node (load h l)) = tree_name t /\
  match t with
  | TArray _ _ => type (node (load h l)) = JSON_ARRAY
  | TObject _ _ => type (node (load h l)) = JSON_OBJECT
  | TVar _ v => type (node (load h l)) = JSON_VAR /\ as_JVar (load h l) = v
  | TBool _ v => type (node (load h l)) = JSON_BOOL /\ as_JVar (load h l) = v
  end.
Proof.
  destruct 1 as [? ? ? ? ? Hl _|? ? ? ? ? Hl _|? ? ? ? Hl|? ? ? ? Hl];
    rewrite (load_lookup _ _ _ Hl); auto.
Qed.

Ltac getter_loop :=
  let l := fresh "l" in let t := fresh "t" in let ts := fresh "ts" in
  let Ht := fresh "Ht" in let IH := fresh "IH" in
  let Hn := fresh "Hn" in let Hns := fresh "Hns" in
  let fuel := fresh "fuel" in let Hfuel := fresh "Hfuel" in
  let Hname := fresh "Hname" in let Hnode := fresh "Hnode" in
  induction 1 as [|l t ts Ht _ IH]; intros Hns fuel Hfuel;
    [now destruct fuel|];
  destruct Hns as [Hn Hns];
  destruct fuel as [|fuel]; [simpl in Hfuel; lia|];
  cbn [forest_length] in Hfuel;
  destruct (repr_node _ _ _ Ht) as [Hname Hnode];
  cbn [JSON_GetStr_loop JSON_GetBool_loop JSON_GetNum_loop JSON_GetFloat_loop
       member];
  rewrite Hname;
  destruct (tree_name t) as [nm|]; [|congruence];
  (destruct (strcmp nm _ =? 0)%Z; [|apply IH; [assumption | lia]]);
  destruct t as [? ?|? ?|? v|? v];
  cbn [str_value bool_value num_value float_value];
  try (rewrite Hnode; apply IH; [assumption | lia]);
  (let Hty := fresh "Hty" in let Hv := fresh "Hv" in
   destruct Hnode as [Hty Hv]; rewrite Hty; cbv iota; rewrite ?Hv);
  try (apply IH; [assumption | lia]);
  (destruct (var_type v); try reflexivity; (apply IH; [assumption | lia])).

Lemma JSON_GetStr_loop_members h key p ts :
  repr_chain h p ts -> named_forest ts ->
  forall fuel, forest_length ts <= fuel ->
  JSON_GetStr_loop fuel h p key = Returns (member key str_value ts).
Proof. getter_loop. Qed.

Lemma JSON_GetBool_loop_members h key p ts :
  repr_chain h p ts -> named_forest ts ->
  forall fuel, forest_length ts <= fuel ->
  JSON_GetBool_loop fuel h p key =
  Returns (default false (member key bool_value ts)).
Proof. getter_loop. Qed.

Lemma JSON_GetNum_loop_members h key p ts :
  repr_chain h p ts -> named_forest ts ->
  forall fuel, forest_length ts <= fuel ->
  JSON_GetNum_loop fuel h p key =
  Returns (match member key num_value ts with
           | Some v => (0%Z, Some v)
           | None => ((-1)%Z, None)
           end).
Proof. getter_loop. Qed.

Lemma JSON_GetFloat_loop_members h key p ts :
  repr_chain h p ts -> named_forest ts ->
  forall fuel, forest_length ts <= fuel ->
  JSON_GetFloat_loop fuel h p key =
  Returns (match member key float_value ts with
           | Some v => (0%Z, Some v)
           | None => ((-1)%Z, None)
           end).
Proof. getter_loop. Qed.



Lemma repr_object_members h o nm ts :
  repr h o (TObject nm ts) ->
  type (node (load h o)) = JSON_OBJECT /\
  repr_chain h (pFirst (as_JArray (load h o))) ts.
Proof.
  inversion 1 as [|? ? ? ? ? Hl Hch| |]; subst.
  now rewrite (load_lookup _ _ _ Hl).
Qed.



(** ** The getters on parsed text *)

Lemma parsed_var_eq numstr :
  parsed_var numstr =
  if Ascii.eqb (nth 0 numstr NUL) "-"%char then
    let lli := strtoll numstr in
    if ((-32768 <? lli) && (lli <? 32767))%Z then
      mkJVarObject JVARTYPE_INT16 2 (val_i (to_int16 lli))
    else if ((-2147483648 <? lli) && (lli <? 2147483647))%Z then
      mkJVarObject JVARTYPE_INT32 4 (val_l (to_int32 lli))
    else
      mkJVarObject JVARTYPE_INT64 8 (val_ll lli)
  else
    let llu := strtoull numstr in
    if (llu <? 65535)%Z then
      mkJVarObject JVARTYPE_UINT16 2 (val_ui (to_uint16 llu))
    else if (llu <? 4294967295)%Z then
      mkJVarObject JVARTYPE_UINT32 4 (val_ul (to_uint32 llu))
    else
      mkJVarObject JVARTYPE_UINT64 8 (val_ull llu).
Proof.
  unfold parsed_var, JSON_ParseNumber. rewrite JSON_Var_eq, store_new.
  reflexivity.
Qed.

Lemma parsed_scalar_uint32 v :
  parsed_scalar v -> var_type v = JVARTYPE_UINT32 ->
  (to_int32 (get_ul (var_val v)) < 0 \/ 65535 <= to_int32 (get_ul (var_val v)))%Z.
Proof.
  intros [[numstr ->]|[[num ->]|[str ->]]]; try discriminate.
  rewrite parsed_var_eq.
  destruct (Ascii.eqb (nth 0 numstr NUL) "-"%char); cbv zeta.
  - destruct (_ && _)%bool; [discriminate|].
    destruct (_ && _)%bool; discriminate.
  - destruct (Z.ltb_spec (strtoull numstr) 65535); [discriminate|].
    destruct (Z.ltb_spec (strtoull numstr) 4294967295); [|discriminate].
    intros _. cbn [var_val get_ul]. unfold to_int32, to_uint32.
    rewrite (Z.mod_small (strtoull numstr) (2 ^ 32)) by lia.
    destruct (Z.lt_ge_cases (strtoull numstr) (2 ^ 31)).
    + right. rewrite Z.mod_small by lia. lia.
    + left.
      replace (strtoull numstr + 2 ^ 31)%Z
        with ((strtoull numstr - 2 ^ 31) + 1 * 2 ^ 32)%Z by lia.
      rewrite Z.mod_add by lia. rewrite Z.mod_small by lia. lia.
Qed.

Lemma grammatical_named ts : grammatical_forest true ts -> named_forest ts.
Proof.
  induction ts as [|t ts IH]; [trivial|]. intros [Ht Hts].
  split; [|now apply IH]. destruct t; apply Ht.
Qed.

Lemma grammatical_member_num key ts v :
  grammatical_forest true ts -> member key num_value ts = Some v ->
  (v < 0 \/ 65535 <= v)%Z.
Proof.
  induction ts as [|t ts IH]; [discriminate|]. intros [Ht Hts]. cbn [member].
  destruct (tree_name t) as [nm|]; [|now apply IH].
  destruct (strcmp nm key =? 0)%Z; [|now apply IH].
  destruct t as [? ?|? ?|? v0|? v0]; cbn [num_value]; try (now apply IH).
  destruct Ht as [_ Hv]. cbn in Hv.
  destruct (var_type v0) eqn:Hvt; try (now apply IH).
  intros [= <-]. now apply parsed_scalar_uint32.
Qed.

(** X10. JSON_GetNum on parsed text: on the node JSON_ProcessBuffer
    returns, every call with a name ends and is defined (the members of a
    parsed object all have names), and the value it stores is never from
    0 to 65534: a number below 65535 is stored as a 16-bit Var, which
    JSON_GetNum passes over, so that it returns -1 for it. *)
Theorem parsed_small_numbers_not_found (buf : list ascii) (g g' : globals)
    (l : nat) (key : list ascii) :
  JSON_ProcessBuffer (Some buf) g = (Some l, g') ->
  exists (N : nat) (r : Z * option Z),
    (forall fuel, N <= fuel ->
       JSON_GetNum fuel (Some l) (Some key) true (heap g') = Returns r) /\
    (r = ((-1)%Z, None) \/
     exists v, r = (0%Z, Some v) /\ (v < 0 \/ 65535 <= v)%Z).
Proof.
  intros H. destruct (JSON_ProcessBuffer_success _ _ _ _ H) as [Hp Hroot].
  destruct (yyparse_success _ _ _ Hp) as [v Hj].
  destruct (proj1 (productions_sound _) _ _ _ _ _ Hj)
    as (l' & t & -> & Hparsed & Hg & Hc & Hr).
  assert (l' = l) by congruence. subst l'.
  destruct Hparsed as (_ & _ & _ & Hb & _).
  apply (proj1 (built_repr _)) in Hb.
  destruct t as [nm ts|nm ts| |]; try contradiction.
  - exists 0, ((-1)%Z, None). split; [|now left].
    intros fuel _. unfold JSON_GetNum.
    destruct (repr_node _ _ _ Hb) as [_ ->]. reflexivity.
  - destruct Hg as [_ [_ Hts]].
    exists (forest_length ts).
    exists (match member key num_value ts with
            | Some v => (0%Z, Some v)
            | None => ((-1)%Z, None)
            end).
    split.
    + intros fuel Hfuel.
      destruct (repr_object_members _ _ _ _ Hb) as [Hty Hch].
      unfold JSON_GetNum. rewrite Hty.
      apply JSON_GetNum_loop_members;
        [assumption | now apply grammatical_named | assumption].
    + destruct (member key num_value ts) as [v0|] eqn:Hm; [|now left].
      right. exists v0. split; [reflexivity|].
      now apply (grammatical_member_num key ts).
Qed.

(** ** Numbers as JSON_Print writes them *)

Lemma digits_val_nonneg s : forall acc, (0 <= acc)%Z -> (0 <= digits_val acc s)%Z.
Proof.
  induction s as [|c s IH]; intros acc Hacc; cbn [digits_val]; [assumption|].
  destruct (is_digit c) eqn:Hc; [|assumption].
  apply IH. apply is_digit_range in Hc. unfold digit_val. lia.
Qed.

Lemma to_int32_small n : (0 <= n < 2 ^ 31)%Z -> to_int32 (to_uint32 n) = n.
Proof.
  intros Hn. unfold to_int32, to_uint32.
  rewrite (Z.mod_small n (2 ^ 32)) by lia. rewrite Z.mod_small by lia. lia.
Qed.

Lemma to_int32_large n :
  (2 ^ 31 <= n < 2 ^ 32)%Z -> to_int32 (to_uint32 n) = (n - 2 ^ 32)%Z.
Proof.
  intros Hn. unfold to_int32, to_uint32.
  rewrite (Z.mod_small n (2 ^ 32)) by lia.
  replace (n + 2 ^ 31)%Z with ((n - 2 ^ 31) + 1 * 2 ^ 32)%Z by lia.
  rewrite Z.mod_add by lia. rewrite Z.mod_small by lia. lia.
Qed.

(** The text json_PrintValue writes for the Var of a decimal literal. *)
Lemma parsed_var_text nm numstr :
  decimal_literal numstr = true ->
  json_PrintValue (mkobject (mkJNode JSON_VAR nm None) (Var (parsed_var numstr))) =
  if Ascii.eqb (nth 0 numstr NUL) "-"%char then []
  else if (literal_value numstr <? 2 ^ 31)%Z
       then printf_d (literal_value numstr)
  else if (literal_value numstr <? 4294967295)%Z
       then printf_d (literal_value numstr - 2 ^ 32)
  else [].
Proof.
  intros Hlit. unfold json_PrintValue. cbn [node type rest as_JVar].
  rewrite parsed_var_eq.
  destruct numstr as [|c ds]; [discriminate|].
  unfold decimal_literal in Hlit. unfold literal_value. cbn [nth].
  destruct (Ascii.eqb_spec c "-"%char) as [->|Hc]; cbv zeta.
  - repeat match goal with
           | |- context [if ?b then _ else _] => destruct b
           end; reflexivity.
  - rewrite (strtoull_digits _ Hlit).
    pose proof (digits_val_nonneg (c :: ds) 0%Z ltac:(lia)) as Hn.
    set (n := digits_val 0 (c :: ds)) in *. unfold ULLONG_MAX.
    destruct (Z.ltb_spec (Z.min (2 ^ 64 - 1) n) 65535) as [H1|H1].
    + rewrite Z.min_r in * by lia. cbn [var_type var_val get_ui].
      destruct (Z.ltb_spec n (2 ^ 31)); [|lia].
      unfold to_uint16. now rewrite Z.mod_small by lia.
    + destruct (Z.ltb_spec (Z.min (2 ^ 64 - 1) n) 4294967295) as [H2|H2].
      * rewrite Z.min_r in * by lia. cbn [var_type var_val get_ul].
        destruct (Z.ltb_spec n (2 ^ 31)).
        -- now rewrite to_int32_small by lia.
        -- destruct (Z.ltb_spec n 4294967295); [|lia].
           now rewrite to_int32_large by lia.
      * cbn [var_type].
        destruct (Z.ltb_spec n (2 ^ 31)); [lia|].
        destruct (Z.ltb_spec n 4294967295); [lia | reflexivity].
Qed.

(** X11. What JSON_Print writes for the Var JSON_ParseNumber makes of a
    decimal literal of value n: nothing for a literal with a minus sign;
    the digits of n for n below 2147483648; the negative number
    n - 4294967296 for n from 2147483648 to 4294967294; nothing for n from
    4294967295 on. *)
Theorem parsed_number_text (nm : option (list ascii)) (numstr : list ascii)
    (h : list object) (fuel : nat) :
  decimal_literal numstr = true ->
  JSON_Print (S fuel) (snd (JSON_ParseNumber nm (Some numstr) h))
    (fst (JSON_ParseNumber nm (Some numstr) h)) false =
  Some (name_text nm ++
        if Ascii.eqb (nth 0 numstr NUL) "-"%char then []
        else if (literal_value numstr <? 2 ^ 31)%Z
             then printf_d (literal_value numstr)
        else if (literal_value numstr <? 4294967295)%Z
             then printf_d (literal_value numstr - 2 ^ 32)
        else []).
Proof.
  intros Hlit. rewrite JSON_ParseNumber_parsed_var. cbn [fst snd JSON_Print].
  rewrite load_new. cbn [node type name]. f_equal.
  rewrite (parsed_var_text nm numstr Hlit).
  destruct nm as [nm|]; cbn [name_text app]; [|reflexivity].
  now rewrite <- !app_assoc.
Qed.

(** ** The getters on constructed objects *)

(** X12. What the constructors store the getters return: for an object
    built by JSON_Object and, for each member, its constructor and
    JSON_ObjectAdd, all members with names, JSON_GetNum, JSON_GetStr,
    JSON_GetBool and JSON_GetFloat return the value of the first member
    that has the name asked for and was made by JSON_Num (or
    JSON_ParseNumber with a number it stores as 32-bit unsigned), JSON_Str,
    JSON_Bool and JSON_Float: for JSON_Num( k, num ) the int num, for
    JSON_Str( k, str ) the string str, for JSON_Bool( k, num ) whether
    num > 0, for JSON_Float( k, num ) the float num. *)
Theorem constructed_object_getters (nm : option (list ascii)) (ms : terms)
    (h : list object) (key : list ascii) (fuel : nat) :
  named_forest (forest_of ms) -> forest_length (forest_of ms) <= fuel ->
  (JSON_GetNum fuel (fst (construct (MkObject nm ms) h)) (Some key) true
     (snd (construct (MkObject nm ms) h)) =
     Returns (match member key num_value (forest_of ms) with
              | Some v => (0%Z, Some v)
              | None => ((-1)%Z, None)
              end) /\
   JSON_GetStr fuel (fst (construct (MkObject nm ms) h)) (Some key)
     (snd (construct (MkObject nm ms) h)) =
     Returns (member key str_value (forest_of ms)) /\
   JSON_GetBool fuel (fst (construct (MkObject nm ms) h)) (Some key)
     (snd (construct (MkObject nm ms) h)) =
     Returns (default false (member key bool_value (forest_of ms))) /\
   JSON_GetFloat fuel (fst (construct (MkObject nm ms) h)) (Some key) true
     (snd (construct (MkObject nm ms) h)) =
     Returns (match member key float_value (forest_of ms) with
              | Some v => (0%Z, Some v)
              | None => ((-1)%Z, None)
              end)) /\
  (forall k num, (- 2 ^ 31 <= num < 2 ^ 31)%Z ->
     num_value (tree_of (MkNum k num)) = Some num) /\
  (forall k str, str_value (tree_of (MkStr k str)) = Some str) /\
  (forall k num, bool_value (tree_of (MkBool k num)) = Some (0 <? num)%Z) /\
  (forall k num, float_value (tree_of (MkFloat k num)) = Some num).
Proof.
  intros Hns Hfuel. split; [|split; [|split; [|split]]].
  - destruct (construct_repr (MkObject nm ms) h) as [Hl Hrepr].
    rewrite Hl. cbn [tree_of] in Hrepr.
    destruct (repr_object_members _ _ _ _ Hrepr) as [Hty Hch].
    unfold JSON_GetNum, JSON_GetStr, JSON_GetBool, JSON_GetFloat. rewrite Hty.
    split; [now apply JSON_GetNum_loop_members|].
    split; [now apply JSON_GetStr_loop_members|].
    split; [now apply JSON_GetBool_loop_members|].
    now apply JSON_GetFloat_loop_members.
  - intros k num Hnum. cbn. f_equal. unfold to_int32, to_uint32.
    destruct (Z.lt_ge_cases num 0).
    + replace num with ((num + 2 ^ 32) + (-1) * 2 ^ 32)%Z at 1 by lia.
      rewrite Z.mod_add by lia. rewrite (Z.mod_small (num + 2 ^ 32)) by lia.
      replace (num + 2 ^ 32 + 2 ^ 31)%Z with ((num + 2 ^ 31) + 1 * 2 ^ 32)%Z by lia.
      rewrite Z.mod_add by lia. rewrite Z.mod_small by lia. lia.
    + rewrite (Z.mod_small num) by lia. rewrite Z.mod_small by lia. lia.
  - reflexivity.
  - intros k num. cbn. now destruct (0 <? num)%Z.
  - reflexivity.
Qed.

(** ** The scanner's tokens *)

Lemma yylex_In fuel : forall input t text,
  In (t, text) (yylex fuel input) ->
  exists pre s k, input = pre ++ s /\
    longest (rules s) None = Some (k, Return t) /\ text = take k s.
Proof.
  induction fuel as [|fuel IH]; intros input t text Hin; [contradiction|].
  cbn [yylex] in Hin. destruct input as [|c input']; [contradiction|].
  destruct (longest (rules (c :: input')) None) as [[k a]|] eqn:Hl.
  - assert (Hrest : In (t, text) (yylex fuel (drop k (c :: input'))) ->
              exists pre s k0, c :: input' = pre ++ s /\
                longest (rules s) None = Some (k0, Return t) /\ text = take k0 s).
    { intros H. destruct (IH _ _ _ H) as (pre & s & k0 & Hs & Hk & Ht).
      exists (take k (c :: input') ++ pre), s, k0.
      split; [|split; assumption].
      rewrite <- app_assoc, <- Hs. now rewrite take_drop. }
    destruct a as [|t0]; [now apply Hrest|].
    destruct Hin as [[= <- <-]|Hin]; [|now apply Hrest].
    exists [], (c :: input'), k. auto.
  - destruct (IH _ _ _ Hin) as (pre & s & k0 & Hs & Hk & Ht).
    exists (c :: pre), s, k0. split; [now rewrite Hs | auto].
Qed.

Lemma match_unsigned_digits s k :
  match_unsigned s = Some k -> all_digits (take k s) = true.
Proof.
  unfold match_unsigned. destruct s as [|c s']; [discriminate|].
  destruct (is_nzdigit c) eqn:Hnz.
  - intros [= <-]. cbn [take all_digits forallb].
    assert (Hc : is_digit c = true).
    { unfold is_nzdigit in Hnz. unfold is_digit.
      apply andb_true_iff in Hnz as [H1 H2].
      apply andb_true_iff. split; [|assumption].
      apply Nat.leb_le in H1. apply Nat.leb_le. lia. }
    rewrite Hc. cbn [andb].
    induction s' as [|c' s'' IHs]; [reflexivity|]. cbn [span].
    destruct (is_digit c') eqn:Hc'; [|reflexivity].
    cbn [take forallb]. now rewrite Hc'.
  - destruct (is_digit c) eqn:Hc; [|discriminate].
    intros [= <-]. cbn. now rewrite Hc.
Qed.

Lemma match_num_literal s k :
  match_num s = Some k -> decimal_literal (take k s) = true.
Proof.
  unfold match_num. destruct s as [|c s']; [discriminate|].
  destruct (Ascii.eqb_spec c "-"%char) as [->|Hc].
  - destruct (match_unsigned s') as [k'|] eqn:Hk; [|discriminate].
    intros [= <-]. cbn [take decimal_literal].
    change (Ascii.eqb "-" "-") with true. cbv iota.
    now apply match_unsigned_digits.
  - intros Hk. pose proof (match_unsigned_digits _ _ Hk) as Hd.
    destruct k as [|k];
      [unfold match_unsigned in Hk;
       destruct (is_nzdigit c); [discriminate|];
       destruct (is_digit c); discriminate|].
    cbn [take] in *. unfold decimal_literal.
    destruct (Ascii.eqb_spec c "-"%char); [contradiction | assumption].
Qed.

Lemma match_charstr_tail_quote n : forall s k,
  length s <= n ->
  match_charstr_tail s = Some k -> exists x, take k s = x ++ [dquote].
Proof.
  induction n as [|n IH]; intros [|c s'] k Hn; try discriminate;
    [simpl in Hn; lia|].
  cbn [length] in Hn. cbn [match_charstr_tail].
  destruct (Ascii.eqb_spec c dquote) as [->|Hq].
  - intros [= <-]. exists []. reflexivity.
  - destruct (Ascii.eqb c "\"%char).
    + destruct s' as [|c' s'']; [discriminate|].
      destruct (Ascii.eqb c' newline); [discriminate|].
      destruct (match_charstr_tail s'') as [k'|] eqn:Hk'; [|discriminate].
      intros [= <-]. cbn [length] in Hn.
      destruct (IH s'' k' ltac:(lia) Hk') as [x Hx].
      exists (c :: c' :: x). cbn [take plus]. now rewrite Hx.
    + destruct (match_charstr_tail s') as [k'|] eqn:Hk'; [|discriminate].
      intros [= <-].
      destruct (IH s' k' ltac:(lia) Hk') as [x Hx].
      exists (c :: x). cbn [take]. now rewrite Hx.
Qed.

Lemma match_charstr_quotes s k :
  match_charstr s = Some k -> exists x, take k s = [dquote] ++ x ++ [dquote].
Proof.
  unfold match_charstr. destruct s as [|c s']; [discriminate|].
  destruct (Ascii.eqb_spec c dquote) as [->|]; [|discriminate].
  destruct (match_charstr_tail s') as [k'|] eqn:Hk; [|discriminate].
  intros [= <-].
  destruct (match_charstr_tail_quote _ _ _ (le_n _) Hk) as [x Hx].
  exists x. cbn [take app]. now rewrite Hx.
Qed.

Lemma match_lit_take lit s k :
  match_lit lit s = Some k -> take k s = lit.
Proof.
  unfold match_lit. destruct (starts_with lit s) eqn:Hs; [|discriminate].
  intros [= <-]. revert s Hs.
  induction lit as [|a lit IH]; intros s Hs; [now rewrite take_0|].
  destruct s as [|b s']; [discriminate|]. cbn [starts_with] in Hs.
  apply andb_true_iff in Hs as [Hab Hs]. apply Ascii.eqb_eq in Hab. subst b.
  cbn [length take]. f_equal. now apply IH.
Qed.

(** X13. The scanner's tokens: a NUM token's text is a decimal literal (an
    optional minus sign and digits), as the number classifier takes it; a
    CHARSTR token's text starts and ends with a double quote, as
    get_charstr takes it; the fixed tokens have their text; no text is
    empty; DQUOTE is never returned. The text of every token is free of
    NUL when the input is. *)
Theorem scan_tokens (input : list ascii) (t : token) (text : list ascii) :
  In (t, text) (scan input) ->
  token_text t text /\ text <> [] /\
  (Forall (fun c => c <> NUL) input -> Forall (fun c => c <> NUL) text).
Proof.
  intros Hin. destruct (yylex_In _ _ _ _ Hin) as (pre & s & k & Hs & Hl & ->).
  pose proof (longest_pos _ _ _ Hl) as Hpos.
  assert (Hne : take k s <> []).
  { destruct s as [|c s']; [discriminate Hl|]. destruct k; [lia | discriminate]. }
  split; [|split; [assumption|]].
  - apply longest_from in Hl as [Hl|Hl]; [discriminate|].
    unfold rules in Hl. simpl in Hl.
    repeat match type of Hl with
           | _ \/ _ => destruct Hl as [Hl|Hl]
           end;
      try contradiction; try discriminate;
      injection Hl as Hk <-; cbn [token_text];
      try (now apply match_lit_take in Hk);
      try assumption.
    + now apply match_charstr_quotes.
    + now apply match_num_literal.
  - intros Hnul. subst input. apply Forall_app in Hnul as [_ Hnul].
    rewrite <- (take_drop k s) in Hnul. now apply Forall_app in Hnul as [? _].
Qed.

Lemma scan_blank c r : is_blank c = true -> scan (c :: r) = scan r.
Proof.
  unfold is_blank. intros [Hc|Hc]%orb_true_iff.
  - rewrite scan_delim by assumption.
    destruct r as [|c' r']; [reflexivity|]. cbn [span].
    destruct (is_delim c') eqn:Hc'; [|reflexivity].
    now rewrite scan_delim.
  - apply Ascii.eqb_eq in Hc. subst c.
    apply (scan_skip [newline] r). reflexivity.
Qed.

(** X14. Spaces, tabs and newlines before the text make no difference:
    JSON_ProcessBuffer returns the same, and JSON_Process too. *)
Theorem leading_blanks_ignored (ws : list ascii) (buf : list ascii)
    (g : globals) :
  forallb is_blank ws = true ->
  scan (ws ++ buf) = scan buf /\
  JSON_ProcessBuffer (Some (ws ++ buf)) g = JSON_ProcessBuffer (Some buf) g /\
  (forall fopen path,
     fopen path = Some (ws ++ buf) ->
     JSON_Process fopen (Some path) g = JSON_Process (fun _ => Some buf) (Some path) g).
Proof.
  intros Hws.
  assert (Hscan : forall s, scan (ws ++ s) = scan s).
  { intros s. induction ws as [|c ws IH]; [reflexivity|].
    cbn [forallb] in Hws. apply andb_true_iff in Hws as [Hc Hws].
    cbn [app]. rewrite scan_blank by assumption. now apply IH. }
  assert (Hnul : Forall (fun c => c <> NUL) ws).
  { apply Forall_forall. intros c Hc%list_elem_of_In.
    rewrite forallb_forall in Hws. specialize (Hws c Hc).
    intros ->. discriminate Hws. }
  split; [apply Hscan|]. split.
  - unfold JSON_ProcessBuffer. now rewrite c_str_app_no_NUL, Hscan.
  - intros fopen path Hopen. unfold JSON_Process. now rewrite Hopen, Hscan.
Qed.

(** ** Neighbouring tokens *)

Lemma ends_value_follows t t2 :
  ends_value t = true ->
  match t2 with COMMA | RBRACKET | RBRACE => True | _ => False end ->
  follows t t2 = true.
Proof. destruct t, t2; cbn; intros; try discriminate; tauto. Qed.

Lemma last_app_cons (A : Type) (a : list A) (t : A) (b : list A) (d : A) :
  List.last (a ++ t :: b) d = List.last (t :: b) d.
Proof.
  induction a as [|x a IH]; [reflexivity|].
  cbn [app]. change (List.last (x :: a ++ t :: b) d)
    with (match a ++ t :: b with [] => x | _ :: _ => List.last (a ++ t :: b) d end).
  destruct (a ++ t :: b) eqn:E; [now destruct a|]. exact IH.
Qed.

Lemma last_cons_cons (A : Type) (x y : A) (r : list A) (d : A) :
  List.last (x :: y :: r) d = List.last (y :: r) d.
Proof. reflexivity. Qed.

Lemma last_indep (A : Type) (x : A) (r : list A) (d d' : A) :
  List.last (x :: r) d = List.last (x :: r) d'.
Proof.
  revert x. induction r as [|y r IH]; intros x; [reflexivity|].
  rewrite !last_cons_cons. apply IH.
Qed.

Lemma chained_app (x : token) (a : list token) (t : token) (b : list token) :
  chained (x :: a) = true ->
  follows (List.last (x :: a) x) t = true ->
  chained (t :: b) = true ->
  chained ((x :: a) ++ t :: b) = true.
Proof.
  revert x. induction a as [|y a IH]; intros x Ha Hf Hb.
  - cbn [app List.last] in *. cbn [chained]. cbn [chained] in Hb.
    rewrite Hf, Hb. reflexivity.
  - cbn [chained] in Ha. apply andb_prop in Ha as [Hxy Ha].
    rewrite last_cons_cons, (last_indep _ y a x y) in Hf.
    specialize (IH y Ha Hf Hb).
    cbn [app] in *. cbn [chained]. cbn [chained] in IH. rewrite Hxy, IH.
    reflexivity.
Qed.

(** A phrase, then a token that may follow a value, then a chained list. *)
Lemma phrase_then start l t b :
  phrase start l ->
  match t with COMMA | RBRACKET | RBRACE => True | _ => False end ->
  chained (t :: b) = true ->
  chained (l ++ t :: b) = true.
Proof.
  intros (x & r & -> & _ & Hl & Hc) Ht Hb.
  apply chained_app; [assumption | | assumption].
  now apply ends_value_follows.
Qed.

Lemma phrase_head start l :
  phrase start l -> exists t r, l = t :: r /\ start t = true /\ chained l = true.
Proof. intros (t & r & H & Hs & _ & Hc). eauto. Qed.

Lemma phrase_last start l d :
  phrase start l -> ends_value (List.last l d) = true.
Proof.
  intros (t & r & -> & _ & Hl & _). now rewrite (last_indep _ t r d t).
Qed.

(** A bracketed phrase is a phrase that starts a value. *)
Lemma phrase_bracket start l o c :
  phrase start l ->
  (forall t, start t = true -> follows o t = true) ->
  match c with RBRACKET | RBRACE => True | _ => False end ->
  starts_value o = true ->
  phrase starts_value (o :: l ++ [c]).
Proof.
  intros Hl Ho Hc Hso.
  exists o, (l ++ [c]). split; [reflexivity|]. split; [assumption|].
  destruct (phrase_head _ _ Hl) as (t & r & -> & Hst & Hch).
  split.
  - cbn [app]. rewrite last_cons_cons.
    change (t :: r ++ [c]) with ((t :: r) ++ [c]).
    rewrite last_app_cons. cbn. now destruct c.
  - cbn [app chained].
    rewrite (Ho t Hst). cbn [andb].
    change (chained ((t :: r) ++ [c]) = true).
    apply (phrase_then start); [assumption | now destruct c | reflexivity].
Qed.

(** Two phrases joined by a comma. *)
Lemma phrase_comma start start' l l' :
  phrase start l -> phrase start' l' ->
  (forall t, start' t = true -> starts_value t = true) ->
  phrase start (l ++ COMMA :: l').
Proof.
  intros Hl Hl' Hsub.
  destruct (phrase_head _ _ Hl) as (t & r & -> & Hst & Hch).
  exists t, (r ++ COMMA :: l'). split; [reflexivity|]. split; [assumption|].
  destruct (phrase_head _ _ Hl') as (t' & r' & -> & Hst' & Hch').
  split.
  - rewrite last_app_cons, last_cons_cons. now apply phrase_last with start'.
  - apply (phrase_then start); [assumption | exact I |].
    cbn [chained]. cbn [chained] in Hch'.
    change (follows COMMA t') with (starts_value t').
    rewrite (Hsub t' Hst'). exact Hch'.
Qed.

(** The tokens a production reads form a phrase. *)
Lemma productions_phrase fuel :
  (forall ts g v ts' g',
     json fuel ts g = (Some (v, ts'), g') ->
     exists used, ts = used ++ ts' /\
       phrase (fun t => match t with LBRACKET | LBRACE => true | _ => false end)
         (map fst used)) /\
  (forall ts g v ts' g',
     value fuel ts g = (Some (v, ts'), g') ->
     exists used, ts = used ++ ts' /\ phrase starts_value (map fst used)) /\
  (forall ts g v ts' g',
     value_list fuel ts g = (Some (v, ts'), g') ->
     exists used, ts = used ++ ts' /\ phrase starts_value (map fst used)) /\
  (forall ts g v ts' g',
     attribute_list fuel ts g = (Some (v, ts'), g') ->
     exists used, ts = used ++ ts' /\ phrase is_charstr (map fst used)).
Proof.
  induction fuel as [|fuel (IHj & IHv & IHvl & IHal)];
    [repeat split; intros; discriminate|].
  repeat split; intros ts g v ts' g'.
  - cbn [json]. destruct ts as [|[[] y] ts0]; try discriminate.
    + destruct (attribute_list fuel ts0 g) as [[[v2 [|[[] y2] ts2]]|] g2] eqn:E;
        try discriminate.
      destruct (IHal _ _ _ _ _ E) as (used & -> & Hu).
      destruct (JSON_Object None (heap g2)). intros H; inversion H; subst.
      exists ((LBRACE, y) :: used ++ [(RBRACE, y2)]).
      split; [cbn [app]; rewrite <- ?app_assoc; reflexivity|].
      cbn [map]. rewrite map_app. cbn [map fst].
      destruct (phrase_bracket is_charstr _ LBRACE RBRACE Hu) as (t & r & Ht & _ & Hl & Hc);
        [now intros [] | exact I | reflexivity|].
      inversion Ht; subst t r. eexists _, _. split; [reflexivity|].
      split; [reflexivity|]. split; assumption.
    + destruct (value_list fuel ts0 g) as [[[v2 [|[[] y2] ts2]]|] g2] eqn:E;
        try discriminate.
      destruct (IHvl _ _ _ _ _ E) as (used & -> & Hu).
      destruct (JSON_Array None (heap g2)). intros H; inversion H; subst.
      exists ((LBRACKET, y) :: used ++ [(RBRACKET, y2)]).
      split; [cbn [app]; rewrite <- ?app_assoc; reflexivity|].
      cbn [map]. rewrite map_app. cbn [map fst].
      destruct (phrase_bracket starts_value _ LBRACKET RBRACKET Hu) as (t & r & Ht & _ & Hl & Hc);
        [now intros [] | exact I | reflexivity|].
      inversion Ht; subst t r. eexists _, _. split; [reflexivity|].
      split; [reflexivity|]. split; assumption.
  - assert (Hjson : json fuel ts g = (Some (v, ts'), g') ->
                     exists used, ts = used ++ ts' /\
                       phrase starts_value (map fst used)).
    { intros E.
      destruct (IHj _ _ _ _ _ E) as (used & Hts & (t & r & Ht & Hs & Hl & Hc)).
      exists used. split; [exact Hts|].
      exists t, r. split; [exact Ht|]. split; [now destruct t|].
      split; assumption. }
    cbn [value].
    destruct ts as [|[[] y] ts0]; try exact Hjson;
      match goal with
      | |- context [let '(_, _) := ?c in _] => destruct c
      end; intros H; inversion H; subst;
      match goal with
      | |- exists used, ?tk :: _ = _ /\ _ => exists [tk]
      end; (split; [reflexivity |]);
      eexists _, _; cbn; (split; [reflexivity | auto]).
  - cbn [value_list].
    destruct (value fuel ts g) as [[[v1 ts1]|] g1] eqn:E; [|discriminate].
    destruct (IHv _ _ _ _ _ E) as (used & -> & Hu).
    destruct ts1 as [|[[] y1] ts2];
      try (intros H; inversion H; subst; solve [eauto]).
    destruct (value_list fuel ts2 g1) as [[[v3 ts3]|] g3] eqn:E3; [|discriminate].
    destruct (IHvl _ _ _ _ _ E3) as (used3 & -> & Hu3).
    intros H; inversion H; subst.
    exists (used ++ (COMMA, y1) :: used3).
    split; [cbn [app]; rewrite <- ?app_assoc; reflexivity|].
    rewrite map_app. cbn [map fst].
    now apply phrase_comma with starts_value.
  - cbn [attribute_list].
    destruct ts as [|[[] y] [|[[] y0] ts0]]; try discriminate.
    destruct (value fuel ts0 g) as [[[v1 ts1]|] g1] eqn:E; [|discriminate].
    destruct (IHv _ _ _ _ _ E) as (used & -> & Hu).
    assert (Hp : phrase is_charstr (CHARSTR :: COLON :: map fst used)).
    { destruct (phrase_head _ _ Hu) as (t & r & Hr & Hst & Hch).
      exists CHARSTR, (COLON :: map fst used). split; [reflexivity|].
      split; [reflexivity|]. split.
      - rewrite Hr, !last_cons_cons. rewrite <- Hr. now apply phrase_last with starts_value.
      - change (chained (CHARSTR :: COLON :: map fst used))
          with (true && (match map fst used with
                         | t2 :: _ => follows COLON t2
                         | [] => true
                         end && chained (map fst used))).
        rewrite Hch, Hr. cbn [andb].
        change (follows COLON t) with (starts_value t). now rewrite Hst. }
    destruct ts1 as [|[[] y1] ts2];
      try (intros H; inversion H; subst;
           exists ((CHARSTR, y) :: (COLON, y0) :: used);
           solve [split; [reflexivity | exact Hp]]).
    destruct (attribute_list fuel ts2 _) as [[[v3 ts3]|] g3] eqn:E3; [|discriminate].
    destruct (IHal _ _ _ _ _ E3) as (used3 & -> & Hu3).
    intros H; inversion H; subst.
    exists (((CHARSTR, y) :: (COLON, y0) :: used) ++ (COMMA, y1) :: used3).
    split; [cbn [app]; rewrite <- ?app_assoc; reflexivity|].
    rewrite map_app. cbn [map fst].
    apply phrase_comma with is_charstr; [exact Hp | exact Hu3 | now intros []].
Qed.

(** X15. In a text that parses, the first token opens an array or an
    object, the last one closes one, and every token may follow the one
    before it: after an opening bracket, a comma or a colon comes the start
    of a value (after an opening brace a string), after a value comes a
    comma or a closing bracket or brace, and only a string may be followed
    by a colon. So empty arrays and objects, trailing commas and missing
    commas or colons are all syntax errors. *)
Theorem parse_neighbours buf g l g' :
  JSON_ProcessBuffer (Some buf) g = (Some l, g') ->
  exists t r,
    map fst (scan (c_str buf)) = t :: r /\
    (t = LBRACKET \/ t = LBRACE) /\
    (List.last (t :: r) t = RBRACKET \/ List.last (t :: r) t = RBRACE) /\
    chained (t :: r) = true.
Proof.
  intros E.
  destruct (JSON_ProcessBuffer_success _ _ _ _ E) as [Hp _].
  destruct (yyparse_success _ _ _ Hp) as [v Hj].
  pose proof Hj as Hj'.
  destruct (proj1 (productions_phrase _) _ _ _ _ _ Hj)
    as (used & Hts & (t & r & Ht & Hs & Hl & Hc)).
  rewrite app_nil_r in Hts. subst used.
  exists t, r. split; [exact Ht|]. rewrite <- Ht.
  split; [destruct t; try discriminate; auto|].
  split; [|exact Hc].
  (* the last token read closes the outermost container *)
  clear Hl Hc Hs Ht.
  destruct (3 * length (scan (c_str buf)) + 3) as [|fuel]; [discriminate|].
  cbn [json] in Hj'.
  destruct (scan (c_str buf)) as [|[[] y] ts0]; try discriminate.
  - destruct (attribute_list fuel ts0 g) as [[[v2 [|[[] y2] ts2]]|] g2] eqn:E2;
      try discriminate.
    destruct (JSON_Object None (heap g2)). inversion Hj'; subst.
    destruct (proj2 (proj2 (proj2 (productions_phrase _))) _ _ _ _ _ E2)
      as (used & -> & _).
    right. rewrite map_cons, map_app. cbn [map fst].
    destruct (map fst used); [reflexivity|].
    cbn [app]. rewrite last_cons_cons.
    change (t0 :: l1 ++ [RBRACE]) with ((t0 :: l1) ++ [RBRACE]).
    rewrite last_app_cons. reflexivity.
  - destruct (value_list fuel ts0 g) as [[[v2 [|[[] y2] ts2]]|] g2] eqn:E2;
      try discriminate.
    destruct (JSON_Array None (heap g2)). inversion Hj'; subst.
    destruct (proj1 (proj2 (proj2 (productions_phrase _))) _ _ _ _ _ E2)
      as (used & -> & _).
    left. rewrite map_cons, map_app. cbn [map fst].
    destruct (map fst used); [reflexivity|].
    cbn [app]. rewrite last_cons_cons.
    change (t0 :: l1 ++ [RBRACKET]) with ((t0 :: l1) ++ [RBRACKET]).
    rewrite last_app_cons. reflexivity.
Qed.

(** ** Strings from the text to the output *)

(** X16. A string token is decoded once, when it is read, and never
    encoded again: the value production stores the decoded characters of
    the token in a new node, and JSON_Print writes them between quotes as
    they are, up to the first NUL (which the escape backslash-zero
    produces). *)
Theorem string_token_printed x ts g fuel pfuel :
  Forall (fun c => c <> NUL) x ->
  let r := value (S fuel) ((CHARSTR, [dquote] ++ x ++ [dquote]) :: ts) g in
  let l := length (heap g) in
  fst r = Some (Some l, ts) /\
  heap (snd r) =
    heap g ++ [mkobject (mkJNode JSON_VAR None None)
                 (Var (mkJVarObject JVARTYPE_STR (strlen (unescape x))
                         (val_str (unescape x))))] /\
  JSON_Print (S pfuel) (heap (snd r)) (Some l) false =
    Some ([dquote] ++ c_str (unescape x) ++ [dquote]).
Proof.
  intros Hx. cbn zeta. cbn [value].
  rewrite (get_charstr_quoted x Hx), JSON_Str_eq.
  cbn [fst snd heap set_heap].
  split; [reflexivity|]. split; [reflexivity|].
  cbn [JSON_Print]. rewrite load_new. reflexivity.
Qed.

End Json.

(** * The properties at concrete inputs *)

#[local] Existing Instance two_floats.

(** C1 at the literal -32768. *)
Lemma C1_witness :
  decimal_literal (cstr "-32768") = true /\
  strtoll (cstr "-32768") = (-32768)%Z /\
  kind_of (JSON_ParseNumber None (Some (cstr "-32768")) []) = JVARTYPE_INT32.
Proof.
  split; [reflexivity|].
  pose proof (C1_number_classifier None (cstr "-32768") [] eq_refl) as H.
  cbv zeta in H. destruct H as (Hn & Hk & _).
  split; [exact Hn | exact Hk].
Defined.

(** C8 at the token of the specification's example. *)
Lemma C8_witness :
  Forall (fun c => c <> NUL) (cstr "a\nb\tc") /\
  get_charstr (Some ([dquote] ++ cstr "a\nb\tc" ++ [dquote])) =
    Some (unescape (cstr "a\nb\tc")).
Proof.
  assert (H : Forall (fun c => c <> NUL) (cstr "a\nb\tc"))
    by (repeat constructor; discriminate).
  split; [exact H|]. exact (proj1 (C8_unescape (cstr "a\nb\tc") H)).
Defined.

(** The sample nodes are distinct, unlinked and not the array. *)
Lemma sample_hypotheses :
  sample_nodes !! 0 = Some (fresh_array None) /\
  (0 ∉ [1; 2; 3]) /\ NoDup [1; 2; 3] /\
  (forall p, p ∈ [1; 2; 3] -> unlinked sample_nodes p).
Proof.
  split; [reflexivity|]. split; [|split].
  - intros H. repeat (apply elem_of_cons in H as [H|H]; [discriminate|]).
    now apply elem_of_nil in H.
  - repeat (apply NoDup_cons; split;
            [intros H; repeat (apply elem_of_cons in H as [H|H]; [discriminate|]);
             now apply elem_of_nil in H|]).
    apply NoDup_nil. exact I.
  - intros p H.
    repeat (apply elem_of_cons in H as [->|H];
            [eexists; split; reflexivity|]).
    now apply elem_of_nil in H.
Defined.

(** C9 at the sample array. *)
Lemma C9_witness :
  (sample_nodes !! 0 = Some (fresh_array None) /\
   (0 ∉ [1; 2; 3]) /\ NoDup [1; 2; 3] /\
   (forall p, p ∈ [1; 2; 3] -> unlinked sample_nodes p)) /\
  JSON_Index (Some 0) 0 sample_array = Some 1 /\
  JSON_Index (Some 0) 2 sample_array = Some 3 /\
  JSON_Index (Some 0) 3 sample_array = None.
Proof.
  split; [exact sample_hypotheses|].
  destruct sample_hypotheses as (Ha & Hnot & Hnd & Hun).
  destruct (C9_index_after_append sample_nodes 0 None [1; 2; 3] Ha Hnot Hnd Hun)
    as (Hin & Hout & _).
  split; [|split].
  - exact (Hin 0 1 eq_refl).
  - exact (Hin 2 3 eq_refl).
  - exact (Hout 3 (le_n 3)).
Defined.





Lemma sample_repr : repr sample_array 0 sample_tree.
Proof.
  eapply repr_array; [reflexivity|].
  repeat (eapply repr_cons; [econstructor; reflexivity|]).
  apply repr_nil.
Defined.

Lemma sample_printable : printable_root sample_tree.
Proof.
  split; [|exact I]. cbn.
  repeat split; try discriminate; try reflexivity.
  repeat constructor; discriminate.
Defined.

(** The sample term is the program of the sample object and builds its
    tree. *)
Lemma sample_term_constructs :
  construct sample_term [] = (Some 0, sample_object) /\
  tree_of sample_term = sample_object_tree.
Proof. split; reflexivity. Qed.

Lemma sample_object_repr : repr sample_object 0 sample_object_tree.
Proof.
  eapply repr_object; [reflexivity|].
  eapply repr_cons; [econstructor; reflexivity|].
  eapply repr_cons.
  - eapply repr_array; [reflexivity|].
    repeat (eapply repr_cons; [econstructor; reflexivity|]).
    apply repr_nil.
  - apply repr_nil.
Defined.

Lemma sample_object_printable : printable_root sample_object_tree.
Proof.
  split; [|exact I]. cbn.
  repeat split; try discriminate; try reflexivity;
    repeat constructor; discriminate.
Defined.

(** C2 (as amended) at the sample array and at the sample object; the
    text of the latter is the object with its members a and b. *)
Lemma C2_witness :
  ((repr sample_array 0 sample_tree /\ printable_root sample_tree /\
    stack_need sample_tree < YYMAXDEPTH) /\
   exists (text : list ascii) (N : nat),
     (forall fuel, N <= fuel ->
        JSON_Print fuel sample_array (Some 0) false = Some text) /\
     exists l',
       fst (JSON_ProcessBuffer (Some text) initial) = Some l' /\
       forall fuel, N <= fuel ->
         JSON_Print fuel (heap (snd (JSON_ProcessBuffer (Some text) initial)))
           (Some l') false = Some text) /\
  ((repr sample_object 0 sample_object_tree /\
    printable_root sample_object_tree /\
    stack_need sample_object_tree < YYMAXDEPTH) /\
   JSON_Print 9 sample_object (Some 0) false =
     Some (jtext "{'a' : 1,'b' : [true,false ,'x']}") /\
   exists (text : list ascii) (N : nat),
     (forall fuel, N <= fuel ->
        JSON_Print fuel sample_object (Some 0) false = Some text) /\
     exists l',
       fst (JSON_ProcessBuffer (Some text) initial) = Some l' /\
       forall fuel, N <= fuel ->
         JSON_Print fuel (heap (snd (JSON_ProcessBuffer (Some text) initial)))
           (Some l') false = Some text).
Proof.
  assert (Hs : stack_need sample_tree < YYMAXDEPTH)
    by (apply Nat.ltb_lt; reflexivity).
  assert (Hso : stack_need sample_object_tree < YYMAXDEPTH)
    by (apply Nat.ltb_lt; reflexivity).
  split.
  - split; [split; [exact sample_repr | split; [exact sample_printable | exact Hs]]|].
    exact (C2_round_trip sample_array 0 sample_tree initial
             sample_repr sample_printable Hs).
  - split; [split; [exact sample_object_repr
                   | split; [exact sample_object_printable | exact Hso]]|].
    split; [reflexivity|].
    exact (C2_round_trip sample_object 0 sample_object_tree initial
             sample_object_repr sample_object_printable Hso).
Defined.

(** C2, as stated, fails for trees built by the constructors and the
    appends alone: for each of [round_trip_samples] the second text differs
    from the first. The list gives the first text, the node read back and
    the second text.
    - An empty array prints as [], which the grammar rejects; so does an
      array holding an empty object.
    - A scalar root and a named root print text that does not start with a
      bracket or brace, which the grammar rejects.
    - A named array element and an unnamed object member are rejected.
    - A string with a double quote is written without escaping and is
      rejected; one with a backslash is read back without it.
    - A string Var with a NULL string has no kind and prints nothing.
    - JSON_Num( NULL, -1 ) prints as -1, which reads back as a 16-bit
      signed Var, for which json_PrintValue has no case; 4294967294 is
      stored as a 32-bit unsigned Var and printed with %d as -2;
      4294967295 is stored as a 64-bit Var and prints nothing.
    - A float that prints as nan (the second of [two_floats]) is scanned as
      an identifier, which the grammar rejects. *)
Lemma C2_counterexample :
  map (print_parse_print 9) round_trip_samples =
    [ (cstr "[]", None, Some []);
      (cstr "[{}]", None, Some []);
      (cstr "1", None, Some []);
      (jtext "'r' : [1]", None, Some []);
      (jtext "['k' : 1]", None, Some []);
      (cstr "{1}", None, Some []);
      (jtext "['a'b']", None, Some []);
      (jtext "['a\b']", Some 1, Some (jtext "['ab']"));
      (cstr "[]", None, Some []);
      (cstr "[-1]", Some 1, Some (cstr "[]"));
      (cstr "[-2]", Some 1, Some (cstr "[]"));
      (cstr "[]", None, Some []) ] /\
  Forall (fun r => Some (fst (fst r)) <> snd r)
    (map (print_parse_print 9) round_trip_samples) /\
  print_parse_print 9
    (with_member (JSON_Array None) JSON_ArrayAdd (JSON_Float None true)) =
    (cstr "[nan]", None, Some []).
Proof.
  split; [vm_compute; reflexivity|]. split; [|vm_compute; reflexivity].
  vm_compute. repeat (constructor; [discriminate|]). constructor.
Qed.

(** C6, as stated, fails: with a NULL literal text (and a NULL name, in
    the empty heap) JSON_ParseNumber returns a node, not NULL. *)
Lemma C6_counterexample :
  fst (JSON_ParseNumber None None []) = Some 0 /\
  fst (JSON_ParseNumber None None []) <> None.
Proof. split; [reflexivity | discriminate]. Qed.

(** C3 at the sample array: three nodes are reachable from pFirst, the
    last of them is pLast, its pNext is NULL, and n is 0. *)
Lemma C3_witness :
  (sample_nodes !! 0 = Some (fresh_array None) /\
   (0 ∉ [1; 2; 3]) /\ NoDup [1; 2; 3] /\
   (forall p, p ∈ [1; 2; 3] -> unlinked sample_nodes p)) /\
  chain sample_array (pFirst (as_JArray (load sample_array 0))) [1; 2; 3] /\
  pLast (as_JArray (load sample_array 0)) = Some 3 /\
  pNext (node (load sample_array 3)) = None /\
  n (as_JArray (load sample_array 0)) = 0.
Proof.
  split; [exact sample_hypotheses|].
  destruct sample_hypotheses as (Ha & Hnot & Hnd & Hun).
  destruct (C3_count_not_maintained sample_nodes 0 None [1; 2; 3] Ha Hnot Hnd Hun)
    as (Hch & Hlast & Hnext & Hn & _).
  split; [exact Hch|]. split; [exact Hlast|]. split; [|exact Hn].
  exact (Hnext 3 eq_refl).
Defined.

(** C4 at JSON_Bool( NULL, 0 ) and JSON_Bool( NULL, 1 ), allocated in the
    empty heap: false and a space, and true. *)
Lemma C4_witness :
  (type (node (load (snd (JSON_Bool None 0 [])) 0)) = JSON_BOOL /\
   type (node (load (snd (JSON_Bool None 1 [])) 0)) = JSON_BOOL) /\
  JSON_Print 1 (snd (JSON_Bool None 0 [])) (Some 0) false = Some (cstr "false ") /\
  JSON_Print 1 (snd (JSON_Bool None 1 [])) (Some 0) false = Some (cstr "true").
Proof.
  split; [split; reflexivity|]. split.
  - exact (proj1 (C4_false_has_trailing_space
                    (snd (JSON_Bool None 0 [])) 0 false 0 eq_refl)).
  - exact (proj1 (C4_false_has_trailing_space
                    (snd (JSON_Bool None 1 [])) 0 false 0 eq_refl)).
Defined.

(** C5 (same defect as C4). Parsing the text and printing the root gives
    the expected text but for a space after false. *)
Theorem C5_end_to_end_text :
  let '(r, g) :=
    JSON_ProcessBuffer (Some (jtext "{'a':1,'b':[true,false,'x']}")) initial in
  JSON_Print 9 (heap g) r false = Some (jtext "{'a' : 1,'b' : [true,false ,'x']}") /\
  JSON_Print 9 (heap g) r false <> Some (jtext "{'a' : 1,'b' : [true,false,'x']}").
Proof. vm_compute. split; [reflexivity | discriminate]. Qed.

(** X1 at the text of an object with one member. *)
Lemma parse_gives_tree_witness :
  JSON_ProcessBuffer (Some (jtext "{'a':1}")) initial =
    (Some 1, snd (JSON_ProcessBuffer (Some (jtext "{'a':1}")) initial)) /\
  exists t,
    repr (heap (snd (JSON_ProcessBuffer (Some (jtext "{'a':1}")) initial))) 1 t /\
    grammatical false t /\ is_container t.
Proof.
  assert (H : JSON_ProcessBuffer (Some (jtext "{'a':1}")) initial =
    (Some 1, snd (JSON_ProcessBuffer (Some (jtext "{'a':1}")) initial)))
    by reflexivity.
  split; [exact H|].
  destruct (parse_gives_tree _ _ _ _ H) as (t & Hr & Hg & Hc & _).
  exists t. auto.
Defined.

(** X2 at a file that holds the unfinished text [[1], read after the text
    [[2]] was parsed from a buffer: the two nodes of the first parse are
    left as they were, and two nodes are new. *)
Lemma parse_keeps_heap_witness :
  (forall path yyin,
     (fun _ : list ascii => Some (cstr "[[1],")) path = Some yyin ->
     Forall (fun c => c <> NUL) yyin) /\
  exists new,
    heap (snd (JSON_Process (fun _ => Some (cstr "[[1],")) (Some (cstr "f"))
                 (snd (JSON_ProcessBuffer (Some (cstr "[2]")) initial)))) =
    heap (snd (JSON_ProcessBuffer (Some (cstr "[2]")) initial)) ++ new.
Proof.
  assert (H : forall path yyin : list ascii,
            (fun _ : list ascii => Some (cstr "[[1],")) path = Some yyin ->
            Forall (fun c => c <> NUL) yyin).
  { intros path yyin E. inversion E; subst.
    repeat constructor; discriminate. }
  split; [exact H|].
  exact (proj2 (parse_keeps_heap
                  (snd (JSON_ProcessBuffer (Some (cstr "[2]")) initial)))
           (fun _ => Some (cstr "[[1],")) (Some (cstr "f")) H).
Defined.

(** X3 at the text of an array: appending node 0 to the array parsed,
    node 1, fails with EINVAL. *)
Lemma parsed_tree_rejects_append_witness :
  JSON_ProcessBuffer (Some (cstr "[1]")) initial =
    (Some 1, snd (JSON_ProcessBuffer (Some (cstr "[1]")) initial)) /\
  JSON_ArrayAdd (Some 1) (Some 0)
    (heap (snd (JSON_ProcessBuffer (Some (cstr "[1]")) initial))) =
  (EINVAL, heap (snd (JSON_ProcessBuffer (Some (cstr "[1]")) initial))).
Proof.
  assert (H : JSON_ProcessBuffer (Some (cstr "[1]")) initial =
    (Some 1, snd (JSON_ProcessBuffer (Some (cstr "[1]")) initial)))
    by reflexivity.
  split; [exact H|].
  destruct (parsed_tree_rejects_append _ _ _ _ H) as (_ & _ & Hroot).
  exact (Hroot 0).
Defined.

(** X4 at an array holding null. *)
Lemma parse_rejects_tokens_witness :
  Exists (fun tk => grammar_token (fst tk) = false) (scan (c_str (cstr "[null]"))) /\
  fst (JSON_ProcessBuffer (Some (cstr "[null]")) initial) = None.
Proof.
  assert (H : Exists (fun tk => grammar_token (fst tk) = false)
                (scan (c_str (cstr "[null]"))))
    by (apply Exists_cons_tl, Exists_cons_hd; reflexivity).
  split; [exact H|]. exact (parse_rejects_tokens _ initial H).
Defined.

Lemma sample_object_members :
  chain sample_object (pFirst (as_JArray (load sample_object 0))) [1; 2].
Proof. repeat (econstructor; [reflexivity|]). constructor. Defined.

(** X5 at the sample object: the member b is node 2, there is no member
    c. *)
Lemma JSON_Attribute_first_witness :
  (chain sample_object (pFirst (as_JArray (load sample_object 0))) [1; 2] /\
   2 <= 2) /\
  JSON_Attribute 2 (Some 0) (Some (cstr "b")) sample_object = Some (Some 2) /\
  JSON_Attribute 2 (Some 0) (Some (cstr "c")) sample_object = Some None.
Proof.
  split; [split; [exact sample_object_members | apply le_n]|].
  split.
  - exact (proj1 (JSON_Attribute_first sample_object 0 (cstr "b") [1; 2] 2
                    sample_object_members (le_n 2)) eq_refl).
  - exact (proj1 (JSON_Attribute_first sample_object 0 (cstr "c") [1; 2] 2
                    sample_object_members (le_n 2)) eq_refl).
Defined.

(** The sample members are distinct, unlinked and not the object. *)
Lemma sample_members_hypotheses :
  sample_members !! 0 = Some (fresh_object None) /\
  (0 ∉ [1; 2; 3]) /\ NoDup [1; 2; 3] /\
  (forall p, p ∈ [1; 2; 3] -> unlinked sample_members p).
Proof.
  split; [reflexivity|]. split; [|split].
  - intros H. repeat (apply elem_of_cons in H as [H|H]; [discriminate|]).
    now apply elem_of_nil in H.
  - repeat (apply NoDup_cons; split;
            [intros H; repeat (apply elem_of_cons in H as [H|H]; [discriminate|]);
             now apply elem_of_nil in H|]).
    apply NoDup_nil. exact I.
  - intros p H.
    repeat (apply elem_of_cons in H as [->|H];
            [eexists; split; reflexivity|]).
    now apply elem_of_nil in H.
Defined.

(** X6 at the sample members: of the two members named a the one
    appended first, node 1, is found. *)
Lemma object_add_then_attribute_witness :
  (sample_members !! 0 = Some (fresh_object None) /\
   (0 ∉ [1; 2; 3]) /\ NoDup [1; 2; 3] /\
   (forall p, p ∈ [1; 2; 3] -> unlinked sample_members p)) /\
  JSON_Attribute 3 (Some 0) (Some (cstr "a"))
    (object_appends 0 [1; 2; 3] sample_members) = Some (Some 1) /\
  JSON_Attribute 3 (Some 0) (Some (cstr "b"))
    (object_appends 0 [1; 2; 3] sample_members) = Some (Some 2).
Proof.
  split; [exact sample_members_hypotheses|].
  destruct sample_members_hypotheses as (Ha & Hnot & Hnd & Hun).
  destruct (object_add_then_attribute sample_members 0 None [1; 2; 3]
              Ha Hnot Hnd Hun) as (_ & _ & _ & Hattr).
  split.
  - exact (Hattr (cstr "a") 3 (le_n 3)).
  - exact (Hattr (cstr "b") 3 (le_n 3)).
Defined.

Lemma sample_object_preorder :
  preorder sample_object (Some 0) [0; 1; 2; 3; 4; 5].
Proof.
  eapply (pre_container _ 0 _ [1; 2; 3; 4; 5] []);
    [reflexivity | now right | | constructor].
  eapply (pre_leaf _ 1); [reflexivity | discriminate | discriminate|].
  eapply (pre_container _ 2 _ [3; 4; 5] []);
    [reflexivity | now left | | constructor].
  repeat (eapply pre_leaf; [reflexivity | discriminate | discriminate|]).
  constructor.
Defined.

(** X7 at the sample object: the array b is node 2; no node is named x. *)
Lemma JSON_Find_first_witness :
  (preorder sample_object (Some 0) [0; 1; 2; 3; 4; 5] /\ 6 < 7) /\
  JSON_Find 7 sample_object (Some 0) (Some (cstr "b")) = Some (Some 2) /\
  JSON_Find 7 sample_object (Some 0) (Some (cstr "x")) = Some None.
Proof.
  split; [split; [exact sample_object_preorder | apply le_n]|].
  split.
  - exact (proj1 (JSON_Find_first sample_object (Some 0) [0; 1; 2; 3; 4; 5]
                    (cstr "b") 7 sample_object_preorder (le_n 7))).
  - exact (proj1 (JSON_Find_first sample_object (Some 0) [0; 1; 2; 3; 4; 5]
                    (cstr "x") 7 sample_object_preorder (le_n 7))).
Defined.




(** X10 at the text of an object whose member a is 1: JSON_GetNum does
    not find it. *)
Lemma parsed_small_numbers_not_found_witness :
  JSON_ProcessBuffer (Some (jtext "{'a':1}")) initial =
    (Some 1, snd (JSON_ProcessBuffer (Some (jtext "{'a':1}")) initial)) /\
  exists (N : nat) (r : Z * option Z),
    (forall fuel, N <= fuel ->
       JSON_GetNum fuel (Some 1) (Some (cstr "a")) true
         (heap (snd (JSON_ProcessBuffer (Some (jtext "{'a':1}")) initial))) =
       Returns r) /\
    (r = ((-1)%Z, None) \/
     exists v, r = (0%Z, Some v) /\ (v < 0 \/ 65535 <= v)%Z).
Proof.
  assert (H : JSON_ProcessBuffer (Some (jtext "{'a':1}")) initial =
    (Some 1, snd (JSON_ProcessBuffer (Some (jtext "{'a':1}")) initial)))
    by reflexivity.
  split; [exact H|].
  exact (parsed_small_numbers_not_found _ _ _ _ (cstr "a") H).
Defined.

(** X11 at 4294967294, which prints as -2, and at -5, which prints as
    nothing. *)
Lemma parsed_number_text_witness :
  (decimal_literal (cstr "4294967294") = true /\
   decimal_literal (cstr "-5") = true) /\
  JSON_Print 1 (snd (JSON_ParseNumber None (Some (cstr "4294967294")) []))
    (fst (JSON_ParseNumber None (Some (cstr "4294967294")) [])) false =
    Some (cstr "-2") /\
  JSON_Print 1 (snd (JSON_ParseNumber None (Some (cstr "-5")) []))
    (fst (JSON_ParseNumber None (Some (cstr "-5")) [])) false = Some [].
Proof.
  split; [split; reflexivity|]. split.
  - exact (parsed_number_text None (cstr "4294967294") [] 0 eq_refl).
  - exact (parsed_number_text None (cstr "-5") [] 0 eq_refl).
Defined.

(** X12 at an object with the members a, made by JSON_Num( a, -7 ), and
    s, made by JSON_Str( s, x ). *)
Lemma constructed_object_getters_witness :
  (named_forest
     (forest_of (Mcons (MkNum (Some (cstr "a")) (-7))
                   (Mcons (MkStr (Some (cstr "s")) (cstr "x")) Mnil))) /\
   2 <= 2) /\
  JSON_GetNum 2 (Some 0) (Some (cstr "a")) true
    (snd (construct
            (MkObject None
               (Mcons (MkNum (Some (cstr "a")) (-7))
                  (Mcons (MkStr (Some (cstr "s")) (cstr "x")) Mnil))) [])) =
    Returns (0%Z, Some (-7)%Z) /\
  JSON_GetStr 2 (Some 0) (Some (cstr "s"))
    (snd (construct
            (MkObject None
               (Mcons (MkNum (Some (cstr "a")) (-7))
                  (Mcons (MkStr (Some (cstr "s")) (cstr "x")) Mnil))) [])) =
    Returns (Some (cstr "x")).
Proof.
  assert (Hn : named_forest
     (forest_of (Mcons (MkNum (Some (cstr "a")) (-7))
                   (Mcons (MkStr (Some (cstr "s")) (cstr "x")) Mnil))))
    by (repeat split; discriminate).
  split; [split; [exact Hn | apply le_n]|].
  split.
  - exact (proj1 (proj1 (constructed_object_getters None _ [] (cstr "a") 2
                           Hn (le_n 2)))).
  - exact (proj1 (proj2 (proj1 (constructed_object_getters None _ [] (cstr "s") 2
                                  Hn (le_n 2))))).
Defined.

(** X13 at the number of the text [12]. *)
Lemma scan_tokens_witness :
  In (NUM, cstr "12") (scan (cstr "[12]")) /\
  decimal_literal (cstr "12") = true.
Proof.
  assert (H : In (NUM, cstr "12") (scan (cstr "[12]")))
    by (right; left; reflexivity).
  split; [exact H|]. exact (proj1 (scan_tokens _ _ _ H)).
Defined.

(** X14 at a space, a tab and a newline before the text [1]. *)
Lemma leading_blanks_ignored_witness :
  forallb is_blank [" "%char; "009"%char; newline] = true /\
  JSON_ProcessBuffer (Some ([" "%char; "009"%char; newline] ++ cstr "[1]")) initial =
  JSON_ProcessBuffer (Some (cstr "[1]")) initial.
Proof.
  split; [reflexivity|].
  exact (proj1 (proj2 (leading_blanks_ignored [" "%char; "009"%char; newline]
                         (cstr "[1]") initial eq_refl))).
Defined.

(** X16 at a string with an escaped newline and an escaped NUL. *)
Lemma string_token_printed_witness :
  Forall (fun c => c <> NUL) (cstr "a\nb\0c") /\
  JSON_Print 1
    (heap (snd (value 1 [(CHARSTR, [dquote] ++ cstr "a\nb\0c" ++ [dquote])]
                  initial)))
    (Some 0) false =
  Some ([dquote] ++ c_str (unescape (cstr "a\nb\0c")) ++ [dquote]).
Proof.
  assert (H : Forall (fun c => c <> NUL) (cstr "a\nb\0c"))
    by (repeat constructor; discriminate).
  split; [exact H|].
  exact (proj2 (proj2 (string_token_printed (cstr "a\nb\0c") [] initial 0 0 H))).
Defined.

(** X15 at the text [[1]]. *)
Lemma parse_neighbours_witness :
  JSON_ProcessBuffer (Some (jtext "[1]")) initial =
    (Some 1, snd (JSON_ProcessBuffer (Some (jtext "[1]")) initial)) /\
  exists t r,
    map fst (scan (c_str (jtext "[1]"))) = t :: r /\
    (t = LBRACKET \/ t = LBRACE) /\
    (List.last (t :: r) t = RBRACKET \/ List.last (t :: r) t = RBRACE) /\
    chained (t :: r) = true.
Proof.
  assert (H : JSON_ProcessBuffer (Some (jtext "[1]")) initial =
    (Some 1, snd (JSON_ProcessBuffer (Some (jtext "[1]")) initial)))
    by (vm_compute; reflexivity).
  split; [exact H|].
  exact (parse_neighbours _ _ _ _ H).
Defined.
